(** * MUTE-structs: identifier algebra, identifier factory, blocks and
      renaming maps of the LogootSplit sequence CRDT.

    Shallow embedding of
      - [idfactory.ts]            ([createBetweenPosition]),
      - [logootsblock.ts]         ([LogootSBlock]),
      - [renamingmap.ts]          ([RenamingMap]),
      - [extendedrenamingmap.ts]  ([ExtendedRenamingMap]),
    together with the identifier classes they import.  JavaScript numbers
    holding integers are modelled as [Z] (no wrap-around happens in the
    source: every quantity stays far below 2^53).  An expression that throws
    (reading a field of [undefined], an explicit [throw]) or a loop that does
    not end is modelled by [None]. *)

From Stdlib Require Import ZArith Lia List Bool.
From stdpp Require Import base option list strings gmap.

Local Open Scope Z_scope.
Set Warnings "-register-all".

(** [a[i]] on a JavaScript array: [undefined] (here [None]) when [i] is
    negative or not below the length. *)
Definition arrayAt {A : Type} (a : list A) (i : Z) : option A :=
  if i <? 0 then None else a !! Z.to_nat i.

Definition arrayLength {A : Type} (a : list A) : Z := Z.of_nat (List.length a).

(** ** Numeric primitives ([int32.ts]) *)

Module Int32.

Definition INT32_BOTTOM : Z := - 2 ^ 31.
Definition INT32_TOP : Z := 2 ^ 31 - 1.

Definition isInt32 (n : Z) : bool :=
  (INT32_BOTTOM <=? n) && (n <=? INT32_TOP).

End Int32.

(** ** [Ordering] ([ordering.ts]): the enum [Less = -1, Equal = 0, Greater = 1] *)

Inductive Ordering : Set := Less | Equal | Greater.

Global Instance Ordering_eq_dec : EqDecision Ordering.
Proof. solve_decision. Defined.

Module Ord.

Definition toZ (o : Ordering) : Z :=
  match o with Less => -1 | Equal => 0 | Greater => 1 end.

(** [o >= Ordering.Equal] *)
Definition geEqual (o : Ordering) : bool := 0 <=? toZ o.

Definition compareZ (a b : Z) : Ordering :=
  if a <? b then Less else if b <? a then Greater else Equal.

End Ord.

(** ** Identifier tuples ([identifiertuple.ts]) *)

Module IdentifierTuple.

(** Modelled from the spec: the class [IdentifierTuple] is not among the
    sources; a tuple is [(random, replicaNumber, clock, offset)]. *)
Record t : Set := mk {
  random : Z;
  replicaNumber : Z;
  clock : Z;
  offset : Z
}.

Global Instance eq_dec : EqDecision t.
Proof. solve_decision. Defined.

(** Modelled from the spec: [compareTo] of [IdentifierTuple] is the
    lexicographic order on [(random, replicaNumber, clock, offset)]
    (exercised by [identifiertuple.test.ts]). *)
Definition compareTo (a b : t) : Ordering :=
  match Ord.compareZ (random a) (random b) with
  | Equal =>
      match Ord.compareZ (replicaNumber a) (replicaNumber b) with
      | Equal =>
          match Ord.compareZ (clock a) (clock b) with
          | Equal => Ord.compareZ (offset a) (offset b)
          | o => o
          end
      | o => o
      end
  | o => o
  end.

(** Modelled from the spec: two tuples share a base when the first three
    fields are equal ([equalsBase] of [IdentifierTuple]). *)
Definition equalsBase (a b : t) : bool :=
  (random a =? random b) && (replicaNumber a =? replicaNumber b)
  && (clock a =? clock b).

(** Modelled from the spec: [IdentifierTuple.fromBase], the tuple with the
    same base and another offset. *)
Definition fromBase (a : t) (o : Z) : t :=
  mk (random a) (replicaNumber a) (clock a) o.

End IdentifierTuple.

Abbreviation Tuple := IdentifierTuple.t.

(** ** Identifiers ([identifier.ts]) *)

(** Modelled from the spec: the class [Identifier] is not among the sources;
    an identifier is the sequence of its tuples (non-empty for every
    identifier of the replicated sequence). *)
Definition Identifier : Set := list Tuple.

Module Identifier.

Definition length (id : Identifier) : Z := arrayLength id.

(** [id.tuples[i]] *)
Definition tupleAt (id : Identifier) (i : Z) : option Tuple := arrayAt id i.

Definition lastTuple (id : Identifier) : Tuple :=
  List.last id (IdentifierTuple.mk 0 0 0 0).

(** the getters [replicaNumber], [clock] and [lastOffset] read the last
    tuple. *)
Definition replicaNumber (id : Identifier) : Z :=
  IdentifierTuple.replicaNumber (lastTuple id).
Definition clock (id : Identifier) : Z :=
  IdentifierTuple.clock (lastTuple id).
Definition lastOffset (id : Identifier) : Z :=
  IdentifierTuple.offset (lastTuple id).

(** Modelled from the spec: [compareTo] is lexicographic on the tuple
    sequence, a proper prefix being smaller. *)
Fixpoint compareTo (a b : Identifier) : Ordering :=
  match a, b with
  | [], [] => Equal
  | [], _ :: _ => Less
  | _ :: _, [] => Greater
  | x :: a', y :: b' =>
      match IdentifierTuple.compareTo x y with
      | Equal => compareTo a' b'
      | o => o
      end
  end.

(** Modelled from the spec: [isPrefix(I, J)] iff [|I| <= |J|] and the
    tuples of [I] are the first [|I|] tuples of [J]. *)
Fixpoint isPrefix (a b : Identifier) : bool :=
  match a, b with
  | [], _ => true
  | _ :: _, [] => false
  | x :: a', y :: b' => bool_decide (x = y) && isPrefix a' b'
  end.

(** Modelled from the spec: [equalsBase(I, J)] iff same length, all tuples
    but the last are equal, and the last tuples share a base. *)
Fixpoint equalsBase (a b : Identifier) : bool :=
  match a, b with
  | [x], [y] => IdentifierTuple.equalsBase x y
  | x :: (_ :: _) as a', y :: (_ :: _) as b' =>
      bool_decide (x = y) && equalsBase a' b'
  | _, _ => false
  end.

(** Modelled from the spec: [fromBase(I, newOffset)] replaces the offset
    of the last tuple. *)
Fixpoint fromBase (id : Identifier) (o : Z) : Identifier :=
  match id with
  | [] => []
  | [x] => [IdentifierTuple.fromBase x o]
  | x :: id' => x :: fromBase id' o
  end.

(** Modelled from the spec: [concat] is the concatenation of the tuple
    sequences and [getTail(k)] the tuples from index [k]. *)
Definition concat (a b : Identifier) : Identifier := a ++ b.
Definition getTail (id : Identifier) (k : Z) : Identifier :=
  drop (Z.to_nat k) id.

(** Modelled from the spec: [truncate(k)] gives [(head, tail)], and fails
    if [k > length]. *)
Definition truncate (id : Identifier) (k : Z) : option (Identifier * Identifier) :=
  if length id <? k then None
  else Some (take (Z.to_nat k) id, drop (Z.to_nat k) id).

Definition lt (a b : Identifier) : Prop := compareTo a b = Less.

End Identifier.

(** ** Identifier factory ([idfactory.ts]) *)

Module IdFactory.

Import Int32.

Definition MIN_TUPLE : Tuple := IdentifierTuple.mk INT32_BOTTOM 0 0 0.
Definition MAX_TUPLE : Tuple := IdentifierTuple.mk INT32_TOP 0 0 0.

(** Modelled from the spec: [createAtPosition] is imported by the renaming
    maps but its body is not among the sources; it builds the one-tuple
    identifier [(random, replicaNumber, clock, offset)]. *)
Definition createAtPosition (replicaNumber clock random offset : Z) : Identifier :=
  [IdentifierTuple.mk random replicaNumber clock offset].

(** [tuplesOf]: the tuples of an identifier, none for [null]. *)
Definition tuplesOf (id : option Identifier) : list Tuple :=
  match id with Some i => i | None => [] end.

(** [infiniteSequence(values, defaultValue)]: the state of the generator
    is the list of values still to be yielded; [next] yields the first of
    them, or the default value once they are exhausted. *)
Definition next {T : Type} (defaultValue : T) (seq : list T) : T * list T :=
  match seq with
  | [] => (defaultValue, [])
  | v :: seq' => (v, seq')
  end.

Section CreateBetween.

(** [randomInt32(l, u)] of [int32.ts] draws an integer in [[l, u)]; the
    draw is a parameter of the model. *)
Variable randomInt32 : Z -> Z -> Z.

(** The [while] loop of [createBetweenPosition]; [fuel] bounds the
    number of times its condition is tested. *)
Fixpoint loop (fuel : nat) (replicaNumber clock : Z)
    (tuple1 tuple2 : Tuple) (seq1 seq2 : list Tuple)
    (tuples : list Tuple) : option Identifier :=
  match fuel with
  | O => None
  | S fuel' =>
      if IdentifierTuple.random tuple2 - IdentifierTuple.random tuple1 <? 2 then
        let '(tuple1', seq1') := next MIN_TUPLE seq1 in
        let '(tuple2', seq2') := next MAX_TUPLE seq2 in
        loop fuel' replicaNumber clock tuple1' tuple2' seq1' seq2'
             (tuples ++ [tuple1])
      else
        let random :=
          randomInt32 (IdentifierTuple.random tuple1 + 1)
                      (IdentifierTuple.random tuple2) in
        Some (tuples ++ [IdentifierTuple.mk random replicaNumber clock 0])
  end.

Definition createBetweenPosition (id1 id2 : option Identifier)
    (replicaNumber clock : Z) : option Identifier :=
  let seq1 := tuplesOf id1 in
  let seq2 := tuplesOf id2 in
  let '(tuple1, seq1') := next MIN_TUPLE seq1 in
  let '(tuple2, seq2') := next MAX_TUPLE seq2 in
  loop (S (Nat.max (List.length seq1) (List.length seq2)))
       replicaNumber clock tuple1 tuple2 seq1' seq2' [].

End CreateBetween.

End IdFactory.

(** ** Identifier intervals ([identifierinterval.ts]) *)

Module IdentifierInterval.

(** Modelled from the spec: the class [IdentifierInterval] is not among
    the sources.  An interval is [(base, begin, end)]: the identifiers that
    share [base] (all but the offset of the last tuple) and whose last
    offset runs from [begin] to [end]. *)
Record t : Set := mk {
  base : Identifier;
  begin : Z;
  end_ : Z
}.

Definition idBegin (i : t) : Identifier := Identifier.fromBase (base i) (begin i).
Definition idEnd (i : t) : Identifier := Identifier.fromBase (base i) (end_ i).
Definition length (i : t) : Z := end_ i - begin i + 1.

(** Modelled from the spec: [toIds] lists the identifiers of the interval,
    by increasing offset. *)
Definition toIds (i : t) : list Identifier :=
  List.map (fun k => Identifier.fromBase (base i) (begin i + Z.of_nat k))
           (seq 0 (Z.to_nat (length i))).

(** Modelled from the spec: [union(pos, pos2)] is the smallest contiguous
    interval containing the interval and the offsets [pos..pos2]. *)
Definition union (i : t) (pos pos2 : Z) : t :=
  mk (base i) (Z.min (begin i) pos) (Z.max (end_ i) pos2).

End IdentifierInterval.

Abbreviation Interval := IdentifierInterval.t.

(** ** Plain JavaScript values, as handed to the [fromPlain] deserializers *)

Inductive JsNumber : Set :=
| JsInt (z : Z)      (** a number with an integer value *)
| JsNonInt.          (** any other number: a fraction, NaN, an infinity *)

Inductive JsValue : Set :=
| JsUndefined
| JsNull
| JsBoolean (b : bool)
| JsNum (n : JsNumber)
| JsString (s : string)
| JsArray (elements : list JsValue)
| JsObject (fields : list (string * JsValue)).

Module Js.

(** [typeof o === "object" && o !== null], which is also [isObject(o)] of
    [data-validation.ts] and, on plain data, [o instanceof Object]. *)
Definition isObject (o : JsValue) : bool :=
  match o with
  | JsArray _ | JsObject _ => true
  | _ => false
  end.

Fixpoint assoc (fields : list (string * JsValue)) (name : string) : JsValue :=
  match fields with
  | [] => JsUndefined
  | (k, v) :: fields' => if String.eqb k name then v else assoc fields' name
  end.

(** [o.name] for one of the field names read by the deserializers (none of
    them is a property of an array). *)
Definition get (o : JsValue) (name : string) : JsValue :=
  match o with
  | JsObject fields => assoc fields name
  | _ => JsUndefined
  end.

(** [typeof v === "number" && isInt32(v)]; the integer it holds. *)
Definition asInt32 (v : JsValue) : option Z :=
  match v with
  | JsNum (JsInt z) => if Int32.isInt32 z then Some z else None
  | _ => None
  end.

Definition isInt32 (v : JsValue) : bool :=
  match asInt32 v with Some _ => true | None => false end.

(** [Array.isArray(v)]; the elements. *)
Definition asArray (v : JsValue) : option (list JsValue) :=
  match v with
  | JsArray l => Some l
  | _ => None
  end.

End Js.

Module IdentifierTuplePlain.

(** Modelled from the spec: [IdentifierTuple.fromPlain] accepts an object
    whose four fields are int32 ([identifiertuple.test.ts]). *)
Definition fromPlain (o : JsValue) : option Tuple :=
  if Js.isObject o then
    r ← Js.asInt32 (Js.get o "random");
    p ← Js.asInt32 (Js.get o "replicaNumber");
    c ← Js.asInt32 (Js.get o "clock");
    f ← Js.asInt32 (Js.get o "offset");
    Some (IdentifierTuple.mk r p c f)
  else None.

End IdentifierTuplePlain.

Module IdentifierIntervalPlain.

(** Modelled from the spec: [IdentifierInterval.fromPlain] reads
    [{ base: tuple[], begin: int32, end: int32 }] and rejects values
    outside int32, missing fields and a [base] that is not an array of
    tuples. *)
Definition fromPlain (o : JsValue) : option Interval :=
  if Js.isObject o then
    elements ← Js.asArray (Js.get o "base");
    b ← Js.asInt32 (Js.get o "begin");
    e ← Js.asInt32 (Js.get o "end");
    let tuples := omap IdentifierTuplePlain.fromPlain elements in
    if (List.length tuples =? List.length elements)%nat
    then Some (IdentifierInterval.mk tuples b e)
    else None
  else None.

End IdentifierIntervalPlain.

(** ** Blocks ([logootsblock.ts]) *)

Module LogootSBlock.

Record t : Set := mk {
  idInterval : Interval;
  nbElement : Z
}.

(** the constructor; its [console.assert] is the precondition [pre_new]. *)
Definition new (idInterval : Interval) (nbElt : Z) : t := mk idInterval nbElt.

Definition pre_new (nbElt : Z) : Prop :=
  Int32.isInt32 nbElt = true /\ 0 <= nbElt.

Definition fromPlain (o : JsValue) : option t :=
  if Js.isObject o then
    let plainId := Js.get o "idInterval" in
    let nbElt := Js.get o "nbElement" in
    if Js.isObject plainId then
      match Js.asInt32 nbElt with
      | Some n =>
          if 0 <=? n then
            match IdentifierIntervalPlain.fromPlain plainId with
            | Some id => Some (new id n)
            | None => None
            end
          else None
      | None => None
      end
    else None
  else None.

Definition addBlock (b : t) (pos length : Z) : t :=
  mk (IdentifierInterval.union (idInterval b) pos (pos + length - 1))
     (nbElement b + length).

Definition delBlock (b : t) (nbElt : Z) : t :=
  mk (idInterval b) (nbElement b - nbElt).

(** The calls made on a block, and a run of them. *)
Inductive call : Set :=
| AddBlock (pos length : Z)
| DelBlock (nbElt : Z).

Definition exec (b : t) (c : call) : t :=
  match c with
  | AddBlock pos length => addBlock b pos length
  | DelBlock nbElt => delBlock b nbElt
  end.

(** The preconditions of the calls: the asserted ones ([length] and [nbElt]
    positive int32) and, for [delBlock], that no more elements are removed
    than the block holds. *)
Definition pre (b : t) (c : call) : Prop :=
  match c with
  | AddBlock pos length => Int32.isInt32 length = true /\ 0 < length
  | DelBlock nbElt =>
      Int32.isInt32 nbElt = true /\ 0 < nbElt /\ nbElt <= nbElement b
  end.

Fixpoint run (b : t) (cs : list call) : t :=
  match cs with
  | [] => b
  | c :: cs' => run (exec b c) cs'
  end.

Fixpoint respects (b : t) (cs : list call) : Prop :=
  match cs with
  | [] => True
  | c :: cs' => pre b c /\ respects (exec b c) cs'
  end.

End LogootSBlock.

(** ** Renaming maps ([renamingmap.ts]) *)

Module RenamingMap.

Import IdFactory.

Record t : Set := mk {
  replicaNumber : Z;
  clock : Z;
  renamedIdIntervals : list Interval;
  indexes : list Z;
  maxOffset : Z
}.

(** The constructor: [indexes] receives the running sum of the interval
    lengths, [maxOffset] is the total minus one. *)
Definition new (replicaNumber clock : Z) (renamedIdIntervals : list Interval) : t :=
  let '(indexes, index) :=
    fold_left
      (fun '(indexes, index) idInterval =>
         (indexes ++ [index], index + IdentifierInterval.length idInterval))
      renamedIdIntervals ([], 0) in
  mk replicaNumber clock renamedIdIntervals indexes (index - 1).

Definition fromPlain (o : JsValue) : option t :=
  if Js.isObject o then
    match Js.asInt32 (Js.get o "replicaNumber"),
          Js.asInt32 (Js.get o "clock"),
          Js.asArray (Js.get o "renamedIdIntervals") with
    | Some replicaNumber, Some clock, Some plainIntervals =>
        if 0 <? arrayLength plainIntervals then
          let renamedIdIntervals :=
            omap IdentifierIntervalPlain.fromPlain plainIntervals in
          if arrayLength plainIntervals =? arrayLength renamedIdIntervals
          then Some (new replicaNumber clock renamedIdIntervals)
          else None
        else None
    | _, _, _ => None
    end
  else None.

Section Methods.

Variable this : t.

Definition firstId : option Identifier :=
  idInterval ← arrayAt (renamedIdIntervals this) 0;
  Some (IdentifierInterval.idBegin idInterval).

Definition lastId : option Identifier :=
  idInterval ← arrayAt (renamedIdIntervals this)
                        (arrayLength (renamedIdIntervals this) - 1);
  Some (IdentifierInterval.idEnd idInterval).

Definition newRandom : option Z :=
  id ← firstId;
  tuple ← Identifier.tupleAt id 0;
  Some (IdentifierTuple.random tuple).

Definition newFirstId : option Identifier :=
  random ← newRandom;
  Some (createAtPosition (replicaNumber this) (clock this) random 0).

Definition newLastId : option Identifier :=
  random ← newRandom;
  Some (createAtPosition (replicaNumber this) (clock this) random
                         (maxOffset this)).

(** [renamedIdIntervals.flatMap((idInterval) => idInterval.toIds())] *)
Definition renamedIds : list Identifier :=
  flat_map IdentifierInterval.toIds (renamedIdIntervals this).

(** The [while (l <= r)] loop of [findPositionFromIndex]; leaving the
    loop throws. *)
Fixpoint findPositionLoop (fuel : nat) (l r index : Z) : option (Z * Z) :=
  match fuel with
  | O => None
  | S fuel' =>
      if l <=? r then
        let m := (l + r) / 2 in
        otherIndex ← arrayAt (indexes this) m;
        otherIdInterval ← arrayAt (renamedIdIntervals this) m;
        if otherIndex + IdentifierInterval.length otherIdInterval <=? index then
          findPositionLoop fuel' (m + 1) r index
        else if index <? otherIndex then
          findPositionLoop fuel' l m index
        else
          Some (m, index - otherIndex + IdentifierInterval.begin otherIdInterval)
      else None
  end.

Definition findPositionFromIndex (index : Z) : option (Z * Z) :=
  findPositionLoop (S (List.length (renamedIdIntervals this)))
                   0 (arrayLength (renamedIdIntervals this)) index.

Definition findIdFromIndex (index : Z) : option Identifier :=
  '(idIntervalIndex, offset) ← findPositionFromIndex index;
  idInterval ← arrayAt (renamedIdIntervals this) idIntervalIndex;
  Some (Identifier.fromBase (IdentifierInterval.idBegin idInterval) offset).

Definition findPredecessorAndSuccessorFromIndex (index : Z)
    : option (Identifier * Identifier) :=
  '(predecessorIndex, predecessorOffset) ← findPositionFromIndex index;
  predecessorIdInterval ← arrayAt (renamedIdIntervals this) predecessorIndex;
  let predecessorId :=
    Identifier.fromBase (IdentifierInterval.idBegin predecessorIdInterval)
                        predecessorOffset in
  if negb (predecessorOffset =? IdentifierInterval.end_ predecessorIdInterval) then
    Some (predecessorId, Identifier.fromBase predecessorId (predecessorOffset + 1))
  else
    nextIdInterval ← arrayAt (renamedIdIntervals this) (predecessorIndex + 1);
    Some (predecessorId, IdentifierInterval.idBegin nextIdInterval).

(** The [while (l < r)] loop of [findIndexOfIdOrPredecessor]; [inl] is
    the value returned from inside the loop, [inr] the value of [l] when
    the loop is left. *)
Fixpoint findIndexLoop (fuel : nat) (l r : Z) (id : Identifier) : option (Z + Z) :=
  match fuel with
  | O => None
  | S fuel' =>
      if l <? r then
        let m := (l + r) / 2 in
        other ← arrayAt (renamedIdIntervals this) m;
        if bool_decide (Identifier.compareTo (IdentifierInterval.idEnd other) id = Less) then
          findIndexLoop fuel' (m + 1) r id
        else if bool_decide (Identifier.compareTo id (IdentifierInterval.idBegin other) = Less) then
          findIndexLoop fuel' l m id
        else
          tuple ← Identifier.tupleAt id
                    (Identifier.length (IdentifierInterval.idBegin other) - 1);
          index ← arrayAt (indexes this) m;
          Some (inl (index + (IdentifierTuple.offset tuple
                              - IdentifierInterval.begin other)))
      else Some (inr l)
  end.

Definition findIndexOfIdOrPredecessor (id : Identifier) : option Z :=
  res ← findIndexLoop (S (List.length (renamedIdIntervals this)))
                      0 (arrayLength (renamedIdIntervals this)) id;
  match res with
  | inl index => Some index
  | inr l =>
      if arrayLength (indexes this) <=? l then Some (maxOffset this)
      else index ← arrayAt (indexes this) l; Some (index - 1)
  end.

Definition hasBeenRenamed (id : Identifier) : option bool :=
  newFirst ← newFirstId;
  Some (Identifier.equalsBase id newFirst
        && (0 <=? Identifier.lastOffset id)
        && (Identifier.lastOffset id <=? maxOffset this)).

Definition renameIdLessThanFirstId (id : Identifier) : option Identifier :=
  first ← firstId;
  newFirst ← newFirstId;
  let closestPredecessorOfFirstId :=
    Identifier.fromBase first (Identifier.lastOffset first - 1) in
  let closestPredecessorOfNewFirstId :=
    Identifier.fromBase newFirst (Identifier.lastOffset newFirst - 1) in
  let viaMaxTuple : option bool :=
    if (Identifier.length closestPredecessorOfFirstId + 1 <? Identifier.length id)
       && Identifier.isPrefix closestPredecessorOfFirstId id then
      tuple ← Identifier.tupleAt id (Identifier.length closestPredecessorOfFirstId);
      Some (bool_decide (IdentifierTuple.compareTo tuple MAX_TUPLE = Equal))
    else Some false in
  b ← viaMaxTuple;
  if (b : bool) then
    let tail := Identifier.getTail id (Identifier.length closestPredecessorOfFirstId + 1) in
    Some (Identifier.concat closestPredecessorOfNewFirstId tail)
  else if bool_decide (Identifier.compareTo id newFirst = Less) then
    Some id
  else
    Some (Identifier.concat closestPredecessorOfNewFirstId id).

Definition renameIdGreaterThanLastId (id : Identifier) : option Identifier :=
  last ← lastId;
  newLast ← newLastId;
  let viaMinTuple : option bool :=
    if bool_decide (Identifier.compareTo newLast last = Less)
       && (Identifier.length last + 1 <? Identifier.length id)
       && Identifier.isPrefix last id then
      tuple ← Identifier.tupleAt id (Identifier.length last);
      Some (bool_decide (IdentifierTuple.compareTo tuple MIN_TUPLE = Equal))
    else Some false in
  b ← viaMinTuple;
  if (b : bool) then
    Some (Identifier.getTail id (Identifier.length last + 1))
  else if bool_decide (Identifier.compareTo newLast id = Less) then
    Some id
  else
    Some (Identifier.concat newLast id).

Definition renameIdFromIndex (index : Z) : option Identifier :=
  random ← newRandom;
  Some (createAtPosition (replicaNumber this) (clock this) random index).

Definition renameIdFromPredecessorId
    (id predecessorId : Identifier) (index : Z) : option Identifier :=
  random ← newRandom;
  let newPredecessorId :=
    createAtPosition (replicaNumber this) (clock this) random index in
  let case1 : option bool :=
    if Identifier.length predecessorId + 1 <? Identifier.length id then
      let tail := Identifier.getTail id (Identifier.length predecessorId + 1) in
      if Identifier.isPrefix predecessorId id then
        tuple ← Identifier.tupleAt id (Identifier.length predecessorId);
        Some (bool_decide (IdentifierTuple.compareTo tuple MIN_TUPLE = Equal)
              && bool_decide (Identifier.compareTo tail predecessorId = Less))
      else Some false
    else Some false in
  b1 ← case1;
  if (b1 : bool) then
    Some (Identifier.concat newPredecessorId
            (Identifier.getTail id (Identifier.length predecessorId + 1)))
  else
    successorId ← findIdFromIndex (index + 1);
    let case2 : option bool :=
      if Identifier.length successorId + 1 <? Identifier.length id then
        let tail := Identifier.getTail id (Identifier.length successorId + 1) in
        let closestPredecessorOfSuccessorId :=
          Identifier.fromBase successorId (Identifier.lastOffset successorId - 1) in
        if Identifier.isPrefix closestPredecessorOfSuccessorId id then
          tuple ← Identifier.tupleAt id (Identifier.length successorId);
          Some (bool_decide (IdentifierTuple.compareTo tuple MAX_TUPLE = Equal)
                && bool_decide (Identifier.compareTo successorId tail = Less))
        else Some false
      else Some false in
    b2 ← case2;
    if (b2 : bool) then
      Some (Identifier.concat newPredecessorId
              (Identifier.getTail id (Identifier.length successorId + 1)))
    else
      Some (Identifier.concat newPredecessorId id).

Definition reverseRenameId (id : Identifier) : option Identifier :=
  renamed ← hasBeenRenamed id;
  if (renamed : bool) then
    findIdFromIndex (Identifier.lastOffset id)
  else
    first ← firstId;
    last ← lastId;
    newFirst ← newFirstId;
    newLast ← newLastId;
    random ← newRandom;
    let closestPredecessorOfNewFirstId :=
      Identifier.fromBase newFirst (Identifier.lastOffset newFirst - 1) in
    let closestSuccessorOfNewLastId :=
      Identifier.fromBase newLast (Identifier.lastOffset newLast + 1) in
    let minFirstId :=
      if bool_decide (Identifier.compareTo first closestPredecessorOfNewFirstId = Less)
      then first else closestPredecessorOfNewFirstId in
    let maxLastId :=
      if bool_decide (Identifier.compareTo last newLast = Greater)
      then last else closestSuccessorOfNewLastId in
    if bool_decide (Identifier.compareTo id minFirstId = Less)
       || bool_decide (Identifier.compareTo maxLastId id = Less) then
      Some id
    else if bool_decide (Identifier.compareTo id newFirst = Less) then
      (* closestPredecessorOfNewFirstId < id < newFirstId *)
      let end_ := Identifier.getTail id 1 in
      tuple ← Identifier.tupleAt end_ 0;
      if IdentifierTuple.random tuple =? random then
        Some end_
      else
        let closestPredecessorOfFirstId :=
          Identifier.fromBase first (Identifier.lastOffset first - 1) in
        Some (closestPredecessorOfFirstId ++ [MAX_TUPLE] ++ end_)
    else if bool_decide (Identifier.compareTo last newLast = Less)
            && bool_decide (Identifier.compareTo newLast id = Less)
            && bool_decide (Identifier.compareTo id closestSuccessorOfNewLastId = Less) then
      (* lastId < newLastId < id < closestSuccessorOfNewLastId *)
      let tail2 := Identifier.getTail id 1 in
      if bool_decide (Identifier.compareTo tail2 last = Less) then
        Some (last ++ [MIN_TUPLE] ++ tail2)
      else if bool_decide (Identifier.compareTo last tail2 = Less)
              && bool_decide (Identifier.compareTo tail2 newLast = Less) then
        Some tail2
      else Some id
    else if bool_decide (Identifier.compareTo newLast id = Less)
            && bool_decide (Identifier.compareTo id last = Less) then
      (* newLastId < id < lastId *)
      Some (last ++ [MIN_TUPLE] ++ id)
    else
      (* newFirstId < id < newLastId *)
      let tail := Identifier.getTail id 1 in
      tuple ← Identifier.tupleAt id 0;
      '(predecessorId, successorId) ←
        findPredecessorAndSuccessorFromIndex (IdentifierTuple.offset tuple);
      if bool_decide (Identifier.compareTo tail predecessorId = Less) then
        Some (predecessorId ++ [MIN_TUPLE] ++ tail)
      else if bool_decide (Identifier.compareTo successorId tail = Less) then
        let closestPredecessorOfSuccessorId :=
          Identifier.fromBase successorId (Identifier.lastOffset successorId - 1) in
        Some (closestPredecessorOfSuccessorId ++ [MAX_TUPLE] ++ tail)
      else Some tail.

(** The [while] loop of [renameIds], which advances [currentIndex]. *)
Fixpoint advance (fuel : nat) (idToRename : Identifier) (currentIndex : Z)
    : option Z :=
  match fuel with
  | O => None
  | S fuel' =>
      if currentIndex <? arrayLength renamedIds - 1 then
        other ← arrayAt renamedIds (currentIndex + 1);
        if Ord.geEqual (Identifier.compareTo idToRename other) then
          advance fuel' idToRename (currentIndex + 1)
        else Some currentIndex
      else Some currentIndex
  end.

(** The body of the callback given to [idsToRename.map], once
    [currentIndex] has been advanced. *)
Definition renameAt (idToRename : Identifier) (currentIndex : Z)
    : option Identifier :=
  if currentIndex =? -1 then
    renameIdLessThanFirstId idToRename
  else
    let atCurrent : option bool :=
      if currentIndex <? arrayLength renamedIds then
        other ← arrayAt renamedIds currentIndex;
        Some (bool_decide (Identifier.compareTo idToRename other = Equal))
      else Some false in
    b ← atCurrent;
    if (b : bool) then renameIdFromIndex currentIndex
    else if currentIndex =? arrayLength renamedIds - 1 then
      renameIdGreaterThanLastId idToRename
    else
      predecessorId ← arrayAt renamedIds currentIndex;
      renameIdFromPredecessorId idToRename predecessorId currentIndex.

(** [idsToRename.map(...)]: the callback shares [currentIndex], which is
    threaded through the identifiers. *)
Fixpoint renameLoop (idsToRename : list Identifier) (currentIndex : Z)
    : option (list Identifier) :=
  match idsToRename with
  | [] => Some []
  | idToRename :: rest =>
      currentIndex' ← advance (S (List.length renamedIds)) idToRename currentIndex;
      renamed ← renameAt idToRename currentIndex';
      renamedRest ← renameLoop rest currentIndex';
      Some (renamed :: renamedRest)
  end.

Definition renameIds (idsToRename : list Identifier) (initialIndex : Z)
    : option (list Identifier) :=
  renameLoop idsToRename initialIndex.

(** [findIndexOfIdOrPredecessor(undefined)], reached by [initRenameIds] on
    an empty batch: the search reads its argument inside the loop only,
    which is entered (and then throws) when there is an interval. *)
Definition findIndexOfUndefined : option Z :=
  if 0 <? arrayLength (renamedIdIntervals this) then None
  else if arrayLength (indexes this) <=? 0 then Some (maxOffset this)
  else index ← arrayAt (indexes this) 0; Some (index - 1).

Definition initRenameIds (idsToRename : list Identifier) : option (list Identifier) :=
  initialIndex ← match arrayAt idsToRename 0 with
                 | Some firstIdToRename => findIndexOfIdOrPredecessor firstIdToRename
                 | None => findIndexOfUndefined
                 end;
  renameIds idsToRename initialIndex.

Definition initRenameSeq (idsToRename : list Identifier) : option (list Identifier) :=
  renameIds idsToRename (-1).

(** [rename] of one identifier: [renameIds([id], -1)]. *)
Definition renameId (id : Identifier) : option Identifier :=
  ids ← initRenameSeq [id];
  arrayAt ids 0.

End Methods.

End RenamingMap.

(** ** Helpers ([helpers.ts]) *)

Module Helpers.

(** Modelled from the spec: [flatten] and [findPredecessor] of [helpers.ts]
    are not among the sources.  [flatten] appends two arrays;
    [findPredecessor(list, element, compareFn)] is the greatest element of
    the list strictly less than [element], [undefined] when there is
    none. *)
Definition flatten {A : Type} (acc cur : list A) : list A := acc ++ cur.

Definition findPredecessor {A : Type} (list : list A) (element : A)
    (compareFn : A -> A -> Ordering) : option A :=
  fold_left
    (fun best other =>
       if bool_decide (compareFn other element = Less) then
         match best with
         | Some b => if bool_decide (compareFn b other = Less) then Some other else best
         | None => Some other
         end
       else best)
    list None.

(** [a.reduce(f)] without initial value: throws on an empty array. *)
Definition reduce {A : Type} (f : A -> A -> A) (a : list A) : option A :=
  match a with
  | [] => None
  | x :: a' => Some (fold_left f a' x)
  end.

End Helpers.

(** ** Extended renaming maps ([extendedrenamingmap.ts]) *)

Module ExtendedRenamingMap.

Import IdFactory.

Record t : Type := mk {
  replicaNumber : Z;
  clock : Z;
  renamedIds : list Identifier;
  map : gmap Z (gmap Z (gmap Z Z));
  newOffsetToOldIdMap : gmap Z Identifier;
  maxOffset : Z
}.

(** The state of the constructor's [forEach]: the fields under
    construction and [newOffset]. *)
Record building : Type := mkBuilding {
  b_renamedIds : list Identifier;
  b_map : gmap Z (gmap Z (gmap Z Z));
  b_newOffsetToOldIdMap : gmap Z Identifier;
  b_newOffset : Z
}.

(** One call of the [forEach] callback.  The inner maps are objects held
    by the outer ones, so that [offsetMap.set] is seen through
    [this.map]: the update is written back. *)
Definition register (st : building) (id : Identifier) : building :=
  let map1 :=
    match b_map st !! Identifier.replicaNumber id with
    | Some _ => b_map st
    | None => <[Identifier.replicaNumber id := ∅]> (b_map st)
    end in
  let clockMap := default ∅ (map1 !! Identifier.replicaNumber id) in
  let clockMap1 :=
    match clockMap !! Identifier.clock id with
    | Some _ => clockMap
    | None => <[Identifier.clock id := ∅]> clockMap
    end in
  let offsetMap := default ∅ (clockMap1 !! Identifier.clock id) in
  let offsetMap1 := <[Identifier.lastOffset id := b_newOffset st]> offsetMap in
  mkBuilding
    (b_renamedIds st ++ [id])
    (<[Identifier.replicaNumber id :=
         <[Identifier.clock id := offsetMap1]> clockMap1]> map1)
    (<[b_newOffset st := id]> (b_newOffsetToOldIdMap st))
    (b_newOffset st + 1).

Definition new (replicaNumber clock : Z) (renamedIdIntervals : list Interval)
    : option t :=
  ids ← Helpers.reduce Helpers.flatten
          (List.map IdentifierInterval.toIds renamedIdIntervals);
  let st := fold_left register ids (mkBuilding [] ∅ ∅ 0) in
  Some (mk replicaNumber clock (b_renamedIds st) (b_map st)
           (b_newOffsetToOldIdMap st) (b_newOffset st - 1)).

Definition fromRenamingMap (renamingMap : RenamingMap.t) : option t :=
  new (RenamingMap.replicaNumber renamingMap) (RenamingMap.clock renamingMap)
      (RenamingMap.renamedIdIntervals renamingMap).

Section Methods.

Variable this : t.

Definition firstId : option Identifier := arrayAt (renamedIds this) 0.

Definition lastId : option Identifier :=
  arrayAt (renamedIds this) (arrayLength (renamedIds this) - 1).

Definition newRandom : option Z :=
  id ← firstId;
  tuple ← Identifier.tupleAt id 0;
  Some (IdentifierTuple.random tuple).

Definition newFirstId : option Identifier :=
  random ← newRandom;
  Some (createAtPosition (replicaNumber this) (clock this) random 0).

Definition newLastId : option Identifier :=
  random ← newRandom;
  Some (createAtPosition (replicaNumber this) (clock this) random
                         (maxOffset this)).

(** The three nested [has]/[get] of [renameId]. *)
Definition lookupOffset (replicaNumber clock offset : Z) : option Z :=
  clockMap ← map this !! replicaNumber;
  offsetMap ← (clockMap : gmap Z (gmap Z Z)) !! clock;
  (offsetMap : gmap Z Z) !! offset.

(** [renameId] calls itself on the predecessor; [fuel] bounds the depth
    of the calls. *)
Fixpoint renameIdRec (fuel : nat) (id : Identifier) : option Identifier :=
  match fuel with
  | O => None
  | S fuel' =>
      first ← arrayAt (renamedIds this) 0;
      last ← arrayAt (renamedIds this) (arrayLength (renamedIds this) - 1);
      if bool_decide (Identifier.compareTo id first = Less)
         || bool_decide (Identifier.compareTo last id = Less) then
        Some id
      else
        match lookupOffset (Identifier.replicaNumber id) (Identifier.clock id)
                           (Identifier.lastOffset id) with
        | Some newOffset =>
            random ← newRandom;
            Some (createAtPosition (replicaNumber this) (clock this) random newOffset)
        | None =>
            predecessorId ←
              Helpers.findPredecessor (renamedIds this) id Identifier.compareTo;
            newPredecessorId ← renameIdRec fuel' predecessorId;
            Some (Identifier.concat newPredecessorId id)
        end
  end.

Definition renameId (id : Identifier) : option Identifier :=
  renameIdRec 2 id.

Definition hasBeenRenamed (id : Identifier) : option bool :=
  newFirst ← newFirstId;
  Some (Identifier.equalsBase id newFirst
        && (0 <=? Identifier.lastOffset id)
        && (Identifier.lastOffset id <=? maxOffset this)).

Definition reverseRenameId (id : Identifier) : option Identifier :=
  renamed ← hasBeenRenamed id;
  if (renamed : bool) then
    newOffsetToOldIdMap this !! Identifier.lastOffset id
  else
    first ← firstId;
    last ← lastId;
    if bool_decide (Identifier.compareTo id first = Less)
       || bool_decide (Identifier.compareTo last id = Less) then
      Some id
    else
      newLast ← newLastId;
      if bool_decide (Identifier.compareTo newLast id = Less)
         && bool_decide (Identifier.compareTo id last = Less) then
        Some (Identifier.concat last id)
      else
        '(head, tail) ← Identifier.truncate id 1;
        predecessorId ← newOffsetToOldIdMap this !! Identifier.lastOffset head;
        if bool_decide (Identifier.compareTo tail predecessorId = Less) then
          Some (Identifier.concat predecessorId tail)
        else
          successorId ← newOffsetToOldIdMap this !! (Identifier.lastOffset head + 1);
          if bool_decide (Identifier.compareTo successorId tail = Less) then
            let closestPredecessorOfSuccessorId :=
              Identifier.fromBase successorId (Identifier.lastOffset successorId - 1) in
            Some (Identifier.concat closestPredecessorOfSuccessorId tail)
          else Some tail.

End Methods.

End ExtendedRenamingMap.

(** * Vocabulary of the statements *)

(** The lexicographic order on the four fields, as a proposition. *)
Definition tuple_lt (a b : Tuple) : Prop :=
  let '(IdentifierTuple.mk r1 p1 c1 o1) := a in
  let '(IdentifierTuple.mk r2 p2 c2 o2) := b in
  r1 < r2 \/
  (r1 = r2 /\ (p1 < p2 \/ (p1 = p2 /\ (c1 < c2 \/ (c1 = c2 /\ o1 < o2))))).

Module FactorySpec.

Import IdFactory.

(** The tuple that the generator of [createBetweenPosition] yields at
    depth [i]: the [i]-th tuple, the default value beyond the end. *)
Definition padded (tuples : list Tuple) (defaultValue : Tuple) (i : nat) : Tuple :=
  nth i tuples defaultValue.

(** [id1 < id2], where [null] stands for the virtual bounds. *)
Definition precedes (id1 id2 : option Identifier) : Prop :=
  match id1, id2 with
  | Some a, Some b => Identifier.compareTo a b = Less
  | _, _ => True
  end.

Definition below (id1 : option Identifier) (id : Identifier) : Prop :=
  match id1 with
  | Some a => Identifier.compareTo a id = Less
  | None => True
  end.


(** After leading [MIN_TUPLE]s, the tuples go on with a tuple greater than
    [MIN_TUPLE]. *)
Fixpoint aboveMin (tuples : list Tuple) : bool :=
  match tuples with
  | [] => false
  | x :: tuples' =>
      if bool_decide (x = MIN_TUPLE) then aboveMin tuples'
      else bool_decide (IdentifierTuple.compareTo MIN_TUPLE x = Less)
  end.

(** Either the first sequence is not a prefix of the second, or what
    follows it in the second is [aboveMin]. *)
Fixpoint roomAboveTuples (l1 l2 : list Tuple) : bool :=
  match l1, l2 with
  | [], _ => aboveMin l2
  | _ :: _, [] => true
  | x :: l1', y :: l2' =>
      if bool_decide (x = y) then roomAboveTuples l1' l2' else true
  end.


(** The identifiers that the factory builds and receives: at least one
    tuple, no tuple below [MIN_TUPLE], and a last tuple that is not
    [MIN_TUPLE] (the factory draws every [random] above [INT32_BOTTOM] and
    inherits [MIN_TUPLE] only before the tuple it draws). *)
Definition wellFormed (id : Identifier) : bool :=
  negb (bool_decide (id = []))
  && forallb (fun x =>
                negb (bool_decide (IdentifierTuple.compareTo MIN_TUPLE x = Greater))) id
  && negb (bool_decide (Identifier.lastTuple id = MIN_TUPLE)).

(** A bound of [createBetweenPosition] is [null] or well formed. *)
Definition wellFormedBound (id : option Identifier) : Prop :=
  match id with
  | Some a => wellFormed a = true
  | None => True
  end.

(** A source of random numbers for [randomInt32(l, u)] that draws [r]
    whenever [l <= r < u], and [l] otherwise. *)
Definition draw (r : Z) (l u : Z) : Z :=
  if (l <=? r) && (r <? u) then r else l.

(** The tuple carries the pair [(replicaNumber, clock)]. *)
Definition carries (replicaNumber clock : Z) (x : Tuple) : Prop :=
  IdentifierTuple.replicaNumber x = replicaNumber /\
  IdentifierTuple.clock x = clock.

End FactorySpec.

Module RenamingSpec.

(** The running sums stored in [indexes] and the sum of the interval
    lengths. *)
Fixpoint sums (start : Z) (intervals : list Interval) : list Z :=
  match intervals with
  | [] => []
  | i :: intervals' => start :: sums (start + IdentifierInterval.length i) intervals'
  end.

Fixpoint total (intervals : list Interval) : Z :=
  match intervals with
  | [] => 0
  | i :: intervals' => IdentifierInterval.length i + total intervals'
  end.

(** An interval has an identifier for base and [begin <= end]. *)
Definition validInterval (i : Interval) : bool :=
  negb (bool_decide (IdentifierInterval.base i = []))
  && (IdentifierInterval.begin i <=? IdentifierInterval.end_ i).

(** Each identifier is below the next one. *)
Fixpoint increasing (ids : list Identifier) : bool :=
  match ids with
  | [] => true
  | a :: ids' =>
      match ids' with
      | [] => true
      | b :: _ => bool_decide (Identifier.compareTo a b = Less) && increasing ids'
      end
  end.

(** The intervals given to a renaming map: a non-empty list of valid
    intervals.  The sequence they are taken from lists the renamed
    identifiers in increasing order ([increasing] above). *)
Definition validIntervals (intervals : list Interval) : bool :=
  negb (bool_decide (intervals = [])) && forallb validInterval intervals.

(** [id] is [p], then the tuple [x], then a non-empty tail. *)
Definition marked (p : Identifier) (x : Tuple) (id : Identifier) : Prop :=
  exists tail, tail <> [] /\ id = p ++ x :: tail.

Definition markedb (p : Identifier) (x : Tuple) (id : Identifier) : bool :=
  (Identifier.length p + 1 <? Identifier.length id)
  && Identifier.isPrefix p id
  && match Identifier.tupleAt id (Identifier.length p) with
     | Some y => bool_decide (y = x)
     | None => false
     end.

(** The identifier with the same base and the offset just below. *)
Definition closestPredecessor (id : Identifier) : Identifier :=
  Identifier.fromBase id (Identifier.lastOffset id - 1).

(** The identifier with the same base and the offset just above. *)
Definition closestSuccessor (id : Identifier) : Identifier :=
  Identifier.fromBase id (Identifier.lastOffset id + 1).

(** The bounds [minFirstId] and [maxLastId] of [reverseRenameId]. *)
Definition minFirstId (firstId newFirstId : Identifier) : Identifier :=
  if bool_decide (Identifier.compareTo firstId (closestPredecessor newFirstId) = Less)
  then firstId else closestPredecessor newFirstId.

Definition maxLastId (lastId newLastId : Identifier) : Identifier :=
  if bool_decide (Identifier.compareTo lastId newLastId = Greater)
  then lastId else closestSuccessor newLastId.

(** The identifiers between [newLastId] and its closest successor, for a
    map with [lastId < newLastId], that [reverseRenameId] returns unchanged:
    their tail is neither below [lastId] nor between [lastId] and
    [newLastId]. *)
Definition keptAboveLast (lastId newLastId id : Identifier) : Prop :=
  Identifier.compareTo lastId newLastId = Less
  /\ Identifier.compareTo newLastId id = Less
  /\ Identifier.compareTo id (closestSuccessor newLastId) = Less
  /\ Identifier.compareTo (Identifier.getTail id 1) lastId <> Less
  /\ ~ (Identifier.compareTo lastId (Identifier.getTail id 1) = Less
        /\ Identifier.compareTo (Identifier.getTail id 1) newLastId = Less).

(** The two shapes that [renameIdFromPredecessorId] treats apart, for an
    identifier between the renamed identifiers [predecessorId] and
    [successorId]. *)
Definition minForm (predecessorId id : Identifier) : Prop :=
  marked predecessorId IdFactory.MIN_TUPLE id
  /\ Identifier.compareTo
       (Identifier.getTail id (Identifier.length predecessorId + 1))
       predecessorId = Less.

Definition maxForm (successorId id : Identifier) : Prop :=
  marked (closestPredecessor successorId) IdFactory.MAX_TUPLE id
  /\ Identifier.compareTo successorId
       (Identifier.getTail id (Identifier.length successorId + 1)) = Less.

(** The key under which [ExtendedRenamingMap] files an identifier: the
    [replicaNumber], [clock] and [offset] of its last tuple. *)
Definition keyOf (id : Identifier) : Z * Z * Z :=
  (Identifier.replicaNumber id, Identifier.clock id, Identifier.lastOffset id).

(** The position, counted from [n], of the last identifier of the list
    filed under a key. *)
Fixpoint findLast (key : Z * Z * Z) (ids : list Identifier) (n : Z) : option Z :=
  match ids with
  | [] => None
  | id :: ids' =>
      match findLast key ids' (n + 1) with
      | Some j => Some j
      | None => if bool_decide (keyOf id = key) then Some n else None
      end
  end.

(** The identifiers on which the renaming is shown to preserve the order:
    no tuple is one of the sentinels [MIN_TUPLE] and [MAX_TUPLE], which the
    renaming inserts as markers, and the first tuple was not made by the
    renaming itself (its base is not [(newRandom, replicaNumber, clock)]). *)
Definition plain (id : Identifier) : bool :=
  forallb (fun x => negb (bool_decide (x = IdFactory.MIN_TUPLE))
                    && negb (bool_decide (x = IdFactory.MAX_TUPLE))) id.

Definition fresh (newRandom replicaNumber clock : Z) (id : Identifier) : bool :=
  match id with
  | [] => false
  | x :: _ =>
      negb ((IdentifierTuple.random x =? newRandom)
            && (IdentifierTuple.replicaNumber x =? replicaNumber)
            && (IdentifierTuple.clock x =? clock))
  end.

(** The five ways in which a plain and fresh identifier [a] is renamed to
    [ra] by the map with renamed identifiers [R]: unchanged below the new
    space; prefixed with the predecessor of [newFirstId]; prefixed with the
    renaming of its predecessor (or that renaming itself, when [a] is
    renamed); prefixed with [newLastId]; unchanged above the new space. *)
Definition renamedAs (R : list Identifier) (first last : Identifier)
    (nr replicaNumber clock maxOffset : Z) (a ra : Identifier) : Prop :=
  let N o := IdentifierTuple.mk nr replicaNumber clock o in
  (Identifier.compareTo a first = Less /\ ra = a
   /\ forall o Y, Identifier.compareTo a (N o :: Y) = Less)
  \/ (Identifier.compareTo a first = Less
      /\ Identifier.compareTo a [N 0] <> Less /\ ra = N (-1) :: a)
  \/ (exists k pa,
        arrayAt R k = Some pa
        /\ Identifier.compareTo a first <> Less
        /\ Identifier.compareTo last a <> Less
        /\ Identifier.compareTo a pa <> Less
        /\ (forall sa, arrayAt R (k + 1) = Some sa -> Identifier.compareTo a sa = Less)
        /\ ra = N k :: (if bool_decide (a = pa) then [] else a))
  \/ (Identifier.compareTo last a = Less
      /\ Identifier.compareTo [N maxOffset] a <> Less /\ ra = N maxOffset :: a)
  \/ (Identifier.compareTo last a = Less /\ ra = a
      /\ forall o Y, Identifier.compareTo (N o :: Y) a = Less).

(** The lookup through the three nested maps of [ExtendedRenamingMap]. *)
Definition lookup3 (m : gmap Z (gmap Z (gmap Z Z))) (key : Z * Z * Z) : option Z :=
  let '(r, c, o) := key in
  clockMap ← m !! r; offsetMap ← (clockMap : gmap Z (gmap Z Z)) !! c;
  (offsetMap : gmap Z Z) !! o.

(** The example used to instantiate the statements: two intervals, of three
    and two identifiers, renamed by replica 1 at clock 1. *)
Definition exampleIntervals : list Interval :=
  [IdentifierInterval.mk [IdentifierTuple.mk 5 3 0 0] 0 2;
   IdentifierInterval.mk [IdentifierTuple.mk 8 3 1 0] 0 1].

End RenamingSpec.

(** ** Vocabulary of the searches and of the batches *)

Module SearchSpec.

(** [k] is the index, among the renamed identifiers [R], of the last one
    that is not above [id]; it is [-1] when they all are. *)
Definition predecessorIndex (R : list Identifier) (id : Identifier) (k : Z) : Prop :=
  -1 <= k <= arrayLength R - 1
  /\ (forall i a, 0 <= i <= k -> arrayAt R i = Some a ->
        Identifier.compareTo id a <> Less)
  /\ (forall i b, k < i -> arrayAt R i = Some b ->
        Identifier.compareTo id b = Less).

(** A batch of identifiers in the order of the sequence: no identifier is
    below the one before it. *)
Fixpoint nondecreasing (ids : list Identifier) : bool :=
  match ids with
  | [] => true
  | a :: ids' =>
      match ids' with
      | [] => true
      | b :: _ =>
          negb (bool_decide (Identifier.compareTo b a = Less)) && nondecreasing ids'
      end
  end.

End SearchSpec.

(** ** Vocabulary of the factory and of the blocks *)

Module TupleSpec.

(** The four fields of the tuple are int32, as the constructors of
    [IdentifierTuple] assert. *)
Definition int32Tuple (x : Tuple) : bool :=
  Int32.isInt32 (IdentifierTuple.random x)
  && Int32.isInt32 (IdentifierTuple.replicaNumber x)
  && Int32.isInt32 (IdentifierTuple.clock x)
  && Int32.isInt32 (IdentifierTuple.offset x).

End TupleSpec.

Module BlockSpec.

(** The number of elements that a run of calls adds to a block, the
    removed ones counted negatively. *)
Fixpoint net (cs : list LogootSBlock.call) : Z :=
  match cs with
  | [] => 0
  | LogootSBlock.AddBlock _ length :: cs' => length + net cs'
  | LogootSBlock.DelBlock nbElt :: cs' => net cs' - nbElt
  end.

End BlockSpec.

(** * Properties *)

(** ** The order on tuples and identifiers *)

Section OrderFacts.

Import IdentifierTuple.

Lemma compareZ_Less a b : Ord.compareZ a b = Less <-> a < b.
Proof.
  unfold Ord.compareZ.
  destruct (Z.ltb_spec a b); [tauto|].
  destruct (Z.ltb_spec b a); split; (discriminate || lia).
Qed.

Lemma compareZ_Equal a b : Ord.compareZ a b = Equal <-> a = b.
Proof.
  unfold Ord.compareZ.
  destruct (Z.ltb_spec a b); [split; (discriminate || lia)|].
  destruct (Z.ltb_spec b a); split; (discriminate || lia || trivial).
Qed.

Lemma compareZ_Greater a b : Ord.compareZ a b = Greater <-> b < a.
Proof.
  unfold Ord.compareZ.
  destruct (Z.ltb_spec a b); [split; (discriminate || lia)|].
  destruct (Z.ltb_spec b a); split; (discriminate || lia || trivial).
Qed.

Lemma tuple_compareTo_cases a b :
  (compareTo a b = Less /\ tuple_lt a b) \/
  (compareTo a b = Equal /\ a = b) \/
  (compareTo a b = Greater /\ tuple_lt b a).
Proof.
  destruct a as [r1 p1 c1 o1], b as [r2 p2 c2 o2].
  unfold compareTo, tuple_lt; simpl.
  destruct (Ord.compareZ r1 r2) eqn:Hr;
    [apply compareZ_Less in Hr; left; split; [reflexivity|lia]
    |apply compareZ_Equal in Hr
    |apply compareZ_Greater in Hr; right; right; split; [reflexivity|lia]].
  destruct (Ord.compareZ p1 p2) eqn:Hp;
    [apply compareZ_Less in Hp; left; split; [reflexivity|lia]
    |apply compareZ_Equal in Hp
    |apply compareZ_Greater in Hp; right; right; split; [reflexivity|lia]].
  destruct (Ord.compareZ c1 c2) eqn:Hc;
    [apply compareZ_Less in Hc; left; split; [reflexivity|lia]
    |apply compareZ_Equal in Hc
    |apply compareZ_Greater in Hc; right; right; split; [reflexivity|lia]].
  destruct (Ord.compareZ o1 o2) eqn:Ho;
    [apply compareZ_Less in Ho; left; split; [reflexivity|lia]
    |apply compareZ_Equal in Ho; right; left; split; [reflexivity|congruence]
    |apply compareZ_Greater in Ho; right; right; split; [reflexivity|lia]].
Qed.

Lemma tuple_lt_irrefl a : ~ tuple_lt a a.
Proof. destruct a. unfold tuple_lt. lia. Qed.

Lemma tuple_lt_trans a b c : tuple_lt a b -> tuple_lt b c -> tuple_lt a c.
Proof. destruct a, b, c. unfold tuple_lt. lia. Qed.

Lemma tuple_lt_asym a b : tuple_lt a b -> ~ tuple_lt b a.
Proof. destruct a, b. unfold tuple_lt. lia. Qed.

Lemma tuple_lt_random a b : random a < random b -> tuple_lt a b.
Proof. destruct a, b. unfold tuple_lt. simpl. lia. Qed.

Lemma tuple_lt_random_le a b : tuple_lt a b -> random a <= random b.
Proof. destruct a, b. unfold tuple_lt. simpl. lia. Qed.

Lemma tuple_Less a b : compareTo a b = Less <-> tuple_lt a b.
Proof.
  destruct (tuple_compareTo_cases a b) as [[H L]|[[H L]|[H L]]];
    rewrite H; split; trivial; try discriminate; intros L'.
  - subst. destruct (tuple_lt_irrefl _ L').
  - destruct (tuple_lt_asym _ _ L L').
Qed.

Lemma tuple_Equal a b : compareTo a b = Equal <-> a = b.
Proof.
  destruct (tuple_compareTo_cases a b) as [[H L]|[[H L]|[H L]]];
    rewrite H; split; trivial; try discriminate; intros ->;
    destruct (tuple_lt_irrefl _ L).
Qed.

Lemma tuple_Greater a b : compareTo a b = Greater <-> tuple_lt b a.
Proof.
  destruct (tuple_compareTo_cases a b) as [[H L]|[[H L]|[H L]]];
    rewrite H; split; trivial; try discriminate; intros L'.
  - destruct (tuple_lt_asym _ _ L L').
  - subst. destruct (tuple_lt_irrefl _ L').
Qed.

Lemma tuple_compareTo_refl a : compareTo a a = Equal.
Proof. now apply tuple_Equal. Qed.

(** *** Identifiers *)

Lemma id_compareTo_refl a : Identifier.compareTo a a = Equal.
Proof.
  induction a as [|x a IH]; simpl; [reflexivity|].
  now rewrite tuple_compareTo_refl.
Qed.

Lemma id_Equal a b : Identifier.compareTo a b = Equal <-> a = b.
Proof.
  split; [|intros ->; apply id_compareTo_refl].
  revert b; induction a as [|x a IH]; intros [|y b]; simpl; try discriminate; trivial.
  destruct (compareTo x y) eqn:E; try discriminate.
  apply tuple_Equal in E. intros H. f_equal; auto.
Qed.

Lemma id_Greater a b :
  Identifier.compareTo a b = Greater <-> Identifier.compareTo b a = Less.
Proof.
  revert b; induction a as [|x a IH]; intros [|y b]; simpl;
    try (split; intros E; solve [discriminate E | reflexivity]).
  destruct (tuple_compareTo_cases x y) as [[H L]|[[H L]|[H L]]]; rewrite H.
  - apply tuple_Greater in L. rewrite L. split; intros E; discriminate E.
  - subst. rewrite tuple_compareTo_refl. apply IH.
  - apply tuple_Less in L. rewrite L. tauto.
Qed.

Lemma id_lt_irrefl a : Identifier.compareTo a a <> Less.
Proof. rewrite id_compareTo_refl. discriminate. Qed.

Lemma id_lt_trans a b c :
  Identifier.compareTo a b = Less -> Identifier.compareTo b c = Less ->
  Identifier.compareTo a c = Less.
Proof.
  revert b c; induction a as [|x a IH]; intros [|y b] [|z c]; simpl;
    try discriminate; trivial.
  destruct (tuple_compareTo_cases x y) as [[H L]|[[H L]|[H L]]]; rewrite H;
    try discriminate;
    destruct (tuple_compareTo_cases y z) as [[H' L']|[[H' L']|[H' L']]]; rewrite H';
    try discriminate; intros A B.
  - pose proof (tuple_lt_trans _ _ _ L L') as T. apply tuple_Less in T. now rewrite T.
  - subst. now rewrite H.
  - subst. now rewrite H'.
  - subst. rewrite tuple_compareTo_refl. eauto.
Qed.

Lemma id_lt_asym a b :
  Identifier.compareTo a b = Less -> Identifier.compareTo b a <> Less.
Proof.
  intros H H'. apply (id_lt_irrefl a). eapply id_lt_trans; eauto.
Qed.

Lemma id_total a b :
  Identifier.compareTo a b = Less \/ a = b \/ Identifier.compareTo b a = Less.
Proof.
  destruct (Identifier.compareTo a b) eqn:E; auto.
  - apply id_Equal in E. auto.
  - apply id_Greater in E. auto.
Qed.

Lemma id_not_Less a b :
  Identifier.compareTo a b <> Less <->
  (a = b \/ Identifier.compareTo b a = Less).
Proof.
  split.
  - destruct (id_total a b) as [H|H]; tauto.
  - intros [->|H]; [apply id_lt_irrefl|now apply id_lt_asym].
Qed.

Lemma geEqual_spec a b :
  Ord.geEqual (Identifier.compareTo a b) = true <->
  Identifier.compareTo a b <> Less.
Proof.
  destruct (Identifier.compareTo a b); unfold Ord.geEqual; simpl;
    split; trivial; try discriminate; congruence.
Qed.

Lemma id_compareTo_app p a b :
  Identifier.compareTo (p ++ a) (p ++ b) = Identifier.compareTo a b.
Proof.
  induction p as [|x p IH]; simpl; trivial.
  now rewrite tuple_compareTo_refl.
Qed.

Lemma id_lt_app_r a b : b <> [] -> Identifier.compareTo a (a ++ b) = Less.
Proof.
  intros Hb. rewrite <- (app_nil_r a) at 1. rewrite id_compareTo_app.
  destruct b; [congruence|reflexivity].
Qed.

Lemma id_lt_cons x y a b :
  tuple_lt x y -> Identifier.compareTo (x :: a) (y :: b) = Less.
Proof. intros L. apply tuple_Less in L. simpl. now rewrite L. Qed.

Lemma isPrefix_spec a b :
  Identifier.isPrefix a b = true <-> exists c, b = a ++ c.
Proof.
  revert b; induction a as [|x a IH]; intros b; simpl.
  - split; eauto.
  - destruct b as [|y b].
    + split; [discriminate|]. intros [c Hc]. discriminate.
    + rewrite andb_true_iff, bool_decide_eq_true, IH. split.
      * intros [-> [c ->]]. eauto.
      * intros [c Hc]. injection Hc as -> ->. eauto.
Qed.

(** An identifier that is below another without being a prefix of it
    stays below whatever is appended to either. *)
Lemma id_lt_app_not_prefix a b u v :
  Identifier.compareTo a b = Less -> Identifier.isPrefix a b = false ->
  Identifier.compareTo (a ++ u) (b ++ v) = Less.
Proof.
  revert b; induction a as [|x a IH]; intros [|y b]; simpl; try discriminate.
  destruct (tuple_compareTo_cases x y) as [[H L]|[[H L]|[H L]]]; rewrite H;
    try discriminate; trivial.
  subst. rewrite bool_decide_eq_true_2 by reflexivity. simpl. apply IH.
Qed.

End OrderFacts.

(** ** The identifier factory *)

Section FactoryFacts.

Import IdFactory FactorySpec.

Variable randomInt32 : Z -> Z -> Z.
Hypothesis randomInt32_range : forall l u, l < u -> l <= randomInt32 l u < u.

Variables replicaNumber clock : Z.

Lemma draw_range r l u : l < u -> l <= draw r l u < u.
Proof.
  intros H. unfold draw.
  destruct (Z.leb_spec l r), (Z.ltb_spec r u); simpl; lia.
Qed.

Lemma padded_S l d i : padded l d (S i) = padded (tl l) d i.
Proof. unfold padded. destruct l; simpl; trivial. now destruct i. Qed.

Lemma padded_0 l d : padded l d 0 = hd d l.
Proof. now destruct l. Qed.

Lemma loop_unfold fuel t1 t2 s1 s2 acc :
  loop randomInt32 (S fuel) replicaNumber clock t1 t2 s1 s2 acc =
  if IdentifierTuple.random t2 - IdentifierTuple.random t1 <? 2 then
    loop randomInt32 fuel replicaNumber clock
         (hd MIN_TUPLE s1) (hd MAX_TUPLE s2) (tl s1) (tl s2) (acc ++ [t1])
  else
    Some (acc ++ [IdentifierTuple.mk
                    (randomInt32 (IdentifierTuple.random t1 + 1)
                                 (IdentifierTuple.random t2))
                    replicaNumber clock 0]).
Proof. simpl. destruct s1, s2; reflexivity. Qed.

Lemma id_compareTo_cons x y a b :
  Identifier.compareTo (x :: a) (y :: b) =
  match IdentifierTuple.compareTo x y with
  | Equal => Identifier.compareTo a b
  | o => o
  end.
Proof. reflexivity. Qed.

Lemma not_Less_nil a : Identifier.compareTo a [] <> Less.
Proof. destruct a; discriminate. Qed.

(** The loop, started at depth 0 of the sequences [l1] and [l2], appends
    to [tuples] the tuples of [l1] (padded) up to a depth [k] and a fresh
    tuple; what is appended is above [l1], and below [l2] exactly when
    there is room above [l1] in [l2]. *)
Lemma loop_spec fuel : forall l1 l2 acc,
  (Nat.max (List.length l1) (List.length l2) < fuel)%nat ->
  exists k random,
    let mid := List.map (padded l1 MIN_TUPLE) (seq 0 k)
               ++ [IdentifierTuple.mk random replicaNumber clock 0] in
    loop randomInt32 fuel replicaNumber clock
         (hd MIN_TUPLE l1) (hd MAX_TUPLE l2) (tl l1) (tl l2) acc
    = Some (acc ++ mid)
    /\ (forall i, (i < k)%nat ->
          IdentifierTuple.random (padded l2 MAX_TUPLE i)
          - IdentifierTuple.random (padded l1 MIN_TUPLE i) < 2)
    /\ IdentifierTuple.random (padded l1 MIN_TUPLE k) < random
       < IdentifierTuple.random (padded l2 MAX_TUPLE k)
    /\ Identifier.compareTo l1 mid = Less
    /\ (Identifier.compareTo l1 l2 = Less ->
        (Identifier.compareTo mid l2 = Less <-> roomAboveTuples l1 l2 = true)).
Proof.
  induction fuel as [|fuel IH]; intros l1 l2 acc Hfuel; [lia|].
  rewrite loop_unfold.
  destruct (Z.ltb_spec
              (IdentifierTuple.random (hd MAX_TUPLE l2)
               - IdentifierTuple.random (hd MIN_TUPLE l1)) 2) as [Hgap|Hgap].
  - (* the tuple of [l1] is inherited *)
    assert (Hlen : (Nat.max (List.length (tl l1)) (List.length (tl l2)) < fuel)%nat).
    { destruct l1, l2; simpl in *; try lia.
      exfalso. unfold Int32.INT32_TOP, Int32.INT32_BOTTOM in Hgap. lia. }
    destruct (IH (tl l1) (tl l2) (acc ++ [hd MIN_TUPLE l1]) Hlen)
      as (k & random & Hrun & Hgaps & Hrnd & Hlow & Hup).
    exists (S k), random. cbn zeta in *.
    assert (Hmid : List.map (padded l1 MIN_TUPLE) (seq 0 (S k))
                   = hd MIN_TUPLE l1 :: List.map (padded (tl l1) MIN_TUPLE) (seq 0 k)).
    { simpl. rewrite padded_0. f_equal. rewrite <- seq_shift, List.map_map.
      apply List.map_ext. intros i. apply padded_S. }
    rewrite Hmid, <- app_comm_cons.
    split; [|split; [|split; [|split]]].
    + rewrite Hrun. rewrite <- app_assoc. reflexivity.
    + intros [|i] Hi; [now rewrite !padded_0|].
      rewrite !padded_S. apply Hgaps. lia.
    + rewrite !padded_S. apply Hrnd.
    + destruct l1 as [|x l1]; [reflexivity|].
      simpl hd. simpl tl in Hlow.
      now rewrite id_compareTo_cons, tuple_compareTo_refl.
    + intros Hlt.
      destruct l2 as [|y l2]; [destruct (not_Less_nil _ Hlt)|].
      destruct l1 as [|x l1]; simpl hd in *; simpl tl in *.
      * (* padding: [MIN_TUPLE] against [y] *)
        simpl roomAboveTuples.
        rewrite id_compareTo_cons.
        destruct (tuple_compareTo_cases MIN_TUPLE y) as [[H L]|[[H L]|[H L]]];
          rewrite H.
        -- rewrite bool_decide_eq_false_2
             by (intros ->; destruct (tuple_lt_irrefl _ L)).
           rewrite bool_decide_eq_true_2 by reflexivity. tauto.
        -- subst y. rewrite bool_decide_eq_true_2 by reflexivity.
           destruct l2 as [|z l2].
           ++ simpl. split; [|discriminate]. intros E.
              destruct (not_Less_nil _ E).
           ++ apply Hup. reflexivity.
        -- rewrite bool_decide_eq_false_2
             by (intros ->; destruct (tuple_lt_irrefl _ L)).
           rewrite bool_decide_eq_false_2 by discriminate.
           split; intros E; discriminate E.
      * simpl roomAboveTuples. simpl in Hlt.
        rewrite id_compareTo_cons.
        destruct (tuple_compareTo_cases x y) as [[H L]|[[H L]|[H L]]];
          rewrite H in *; try discriminate.
        -- rewrite bool_decide_eq_false_2
             by (intros ->; destruct (tuple_lt_irrefl _ L)).
           tauto.
        -- subst y. rewrite bool_decide_eq_true_2 by reflexivity.
           apply Hup, Hlt.
  - (* a fresh tuple fits *)
    pose proof (randomInt32_range
                  (IdentifierTuple.random (hd MIN_TUPLE l1) + 1)
                  (IdentifierTuple.random (hd MAX_TUPLE l2)) ltac:(lia)) as Hr.
    exists 0%nat, (randomInt32 (IdentifierTuple.random (hd MIN_TUPLE l1) + 1)
                              (IdentifierTuple.random (hd MAX_TUPLE l2))).
    cbn zeta. simpl List.map. rewrite !padded_0. simpl app.
    split; [reflexivity|]. split; [intros i Hi; lia|]. split; [lia|].
    split.
    + destruct l1 as [|x l1]; [reflexivity|]. simpl hd in *.
      apply id_lt_cons, tuple_lt_random. simpl. lia.
    + intros Hlt.
      destruct l2 as [|y l2]; [destruct (not_Less_nil _ Hlt)|].
      simpl hd in *.
      split; intros _.
      * destruct l1 as [|x l1]; simpl in *.
        -- rewrite bool_decide_eq_false_2 by (intros ->; simpl in Hgap; lia).
           rewrite bool_decide_eq_true_2; trivial.
           apply tuple_Less, tuple_lt_random. simpl. lia.
        -- rewrite bool_decide_eq_false_2; trivial. intros ->. lia.
      * apply id_lt_cons, tuple_lt_random. simpl. lia.
Qed.

Lemma createBetweenPosition_loop id1 id2 :
  createBetweenPosition randomInt32 id1 id2 replicaNumber clock =
  loop randomInt32
       (S (Nat.max (List.length (tuplesOf id1)) (List.length (tuplesOf id2))))
       replicaNumber clock
       (hd MIN_TUPLE (tuplesOf id1)) (hd MAX_TUPLE (tuplesOf id2))
       (tl (tuplesOf id1)) (tl (tuplesOf id2)) [].
Proof.
  unfold createBetweenPosition.
  destruct (tuplesOf id1), (tuplesOf id2); reflexivity.
Qed.

(** C6.  [createBetweenPosition] returns, for some depth [k],
    the tuples of [id1] (padded with [MIN_TUPLE]) at the depths below [k],
    followed by exactly one tuple [(random, replicaNumber, clock, 0)]; at
    every depth below [k] the tuples of [id1] and [id2] (padded with
    [MAX_TUPLE]) satisfy [t2.random - t1.random < 2], and at depth [k] the
    drawn [random] lies strictly between [t1.random] and [t2.random].  The
    final tuple is the only one carrying the caller's
    [(replicaNumber, clock)] provided that no tuple of [id1] carries that
    pair and that the pair is not [MIN_TUPLE]'s. *)
Theorem createBetweenPosition_shape (id1 id2 : option Identifier) :
  exists k random,
    createBetweenPosition randomInt32 id1 id2 replicaNumber clock
    = Some (List.map (padded (tuplesOf id1) MIN_TUPLE) (seq 0 k)
            ++ [IdentifierTuple.mk random replicaNumber clock 0])
    /\ (forall i, (i < k)%nat ->
          IdentifierTuple.random (padded (tuplesOf id2) MAX_TUPLE i)
          - IdentifierTuple.random (padded (tuplesOf id1) MIN_TUPLE i) < 2)
    /\ IdentifierTuple.random (padded (tuplesOf id1) MIN_TUPLE k) < random
       < IdentifierTuple.random (padded (tuplesOf id2) MAX_TUPLE k)
    /\ ((forall x, In x (tuplesOf id1) -> ~ carries replicaNumber clock x) ->
        ~ carries replicaNumber clock MIN_TUPLE ->
        forall i, (i < k)%nat ->
          ~ carries replicaNumber clock (padded (tuplesOf id1) MIN_TUPLE i)).
Proof.
  destruct (loop_spec
              (S (Nat.max (List.length (tuplesOf id1)) (List.length (tuplesOf id2))))
              (tuplesOf id1) (tuplesOf id2) [] ltac:(lia))
    as (k & random & Hrun & Hgaps & Hrnd & _ & _).
  exists k, random. rewrite createBetweenPosition_loop.
  split; [exact Hrun|]. split; [exact Hgaps|]. split; [exact Hrnd|].
  intros Hid1 Hmin i _. unfold padded.
  destruct (nth_in_or_default i (tuplesOf id1) MIN_TUPLE) as [Hin| ->]; auto.
Qed.


Lemma aboveMin_head x l :
  IdentifierTuple.compareTo MIN_TUPLE x = Less -> aboveMin (x :: l) = true.
Proof.
  intros H. simpl. rewrite bool_decide_eq_false_2.
  - now apply bool_decide_eq_true_2.
  - intros ->. rewrite tuple_compareTo_refl in H. discriminate.
Qed.

(** In particular the result is below [id2] when every tuple of [id2] is
    greater than [MIN_TUPLE], as the tuples drawn by the factory are. *)
Lemma roomAbove_tuples_above_MIN l1 l2 :
  Identifier.compareTo l1 l2 = Less ->
  (forall x, In x l2 -> IdentifierTuple.compareTo MIN_TUPLE x = Less) ->
  roomAboveTuples l1 l2 = true.
Proof.
  revert l2; induction l1 as [|x l1 IH]; intros [|y l2] Hlt Hall;
    try discriminate; simpl.
  - rewrite bool_decide_eq_false_2.
    + apply bool_decide_eq_true_2, Hall. now left.
    + intros ->. specialize (Hall MIN_TUPLE (or_introl eq_refl)).
      rewrite tuple_compareTo_refl in Hall. discriminate.
  - destruct (bool_decide (x = y)) eqn:E; trivial.
    apply bool_decide_eq_true in E. subst y.
    simpl in Hlt. rewrite tuple_compareTo_refl in Hlt.
    apply IH; trivial. intros z Hz. apply Hall. now right.
Qed.

Lemma wellFormed_spec id :
  wellFormed id = true <->
  id <> []
  /\ (forall x, In x id -> IdentifierTuple.compareTo MIN_TUPLE x <> Greater)
  /\ Identifier.lastTuple id <> MIN_TUPLE.
Proof.
  unfold wellFormed.
  rewrite !andb_true_iff, !negb_true_iff, !bool_decide_eq_false, List.forallb_forall.
  split.
  - intros [[Hne Hall] Hlast]. split; [exact Hne|]. split; [|exact Hlast].
    intros x Hx. specialize (Hall x Hx). simpl in Hall.
    now apply negb_true_iff, bool_decide_eq_false in Hall.
  - intros (Hne & Hall & Hlast). split; [split|]; trivial.
    intros x Hx. apply negb_true_iff, bool_decide_eq_false. auto.
Qed.



(** The factory keeps the identifiers well formed: the identifier built
    above a well-formed [id1] (or above [null]) is well formed, its last
    tuple being drawn above [INT32_BOTTOM]. *)
Lemma createBetweenPosition_wellFormed (id1 id2 : option Identifier) id :
  wellFormedBound id1 ->
  createBetweenPosition randomInt32 id1 id2 replicaNumber clock = Some id ->
  wellFormed id = true /\ Int32.INT32_BOTTOM < IdentifierTuple.random (Identifier.lastTuple id).
Proof.
  intros Hwf Hid.
  destruct (loop_spec
              (S (Nat.max (List.length (tuplesOf id1)) (List.length (tuplesOf id2))))
              (tuplesOf id1) (tuplesOf id2) [] ltac:(lia))
    as (k & random & Hrun & _ & Hrnd & _ & _).
  cbn zeta in *. rewrite createBetweenPosition_loop, Hrun in Hid.
  simpl app in Hid. injection Hid as <-.
  assert (Hpad : forall i, IdentifierTuple.compareTo MIN_TUPLE
                             (padded (tuplesOf id1) MIN_TUPLE i) <> Greater).
  { intros i. unfold padded.
    destruct (nth_in_or_default i (tuplesOf id1) MIN_TUPLE) as [Hin|E].
    - destruct id1 as [a|]; [|destruct Hin]. simpl in Hwf, Hin.
      apply wellFormed_spec in Hwf. now apply Hwf.
    - rewrite E, tuple_compareTo_refl. discriminate. }
  assert (Hbot : Int32.INT32_BOTTOM < random).
  { specialize (Hpad k).
    destruct (tuple_compareTo_cases MIN_TUPLE (padded (tuplesOf id1) MIN_TUPLE k))
      as [[_ L]|[[_ L]|[H _]]]; [| |contradiction].
    - apply tuple_lt_random_le in L. simpl in L. lia.
    - rewrite <- L in Hrnd. simpl in Hrnd. lia. }
  assert (Hlast : Identifier.lastTuple
                    (List.map (padded (tuplesOf id1) MIN_TUPLE) (seq 0 k)
                     ++ [IdentifierTuple.mk random replicaNumber clock 0])
                  = IdentifierTuple.mk random replicaNumber clock 0).
  { unfold Identifier.lastTuple. apply List.last_last. }
  rewrite Hlast. split; [|exact Hbot].
  apply wellFormed_spec. rewrite Hlast. split; [|split].
  - intros E. apply app_eq_nil in E. destruct E; discriminate.
  - intros x Hx. apply in_app_or in Hx. destruct Hx as [Hx|[<-|[]]].
    + apply List.in_map_iff in Hx. destruct Hx as (i & <- & _). apply Hpad.
    + intros G. apply tuple_Greater, tuple_lt_random_le in G. simpl in G. lia.
  - intros E. injection E as E _ _. lia.
Qed.


End FactoryFacts.

Lemma createBetweenPosition_shape_witness :
  exists k random,
    IdFactory.createBetweenPosition (fun l _ => l)
      (Some [IdentifierTuple.mk 5 1 0 0]) (Some [IdentifierTuple.mk 6 2 0 0]) 7 3
    = Some (List.map (FactorySpec.padded [IdentifierTuple.mk 5 1 0 0] IdFactory.MIN_TUPLE)
                     (seq 0 k)
            ++ [IdentifierTuple.mk random 7 3 0])
    /\ (forall i, (i < k)%nat ->
          IdentifierTuple.random
            (FactorySpec.padded [IdentifierTuple.mk 6 2 0 0] IdFactory.MAX_TUPLE i)
          - IdentifierTuple.random
              (FactorySpec.padded [IdentifierTuple.mk 5 1 0 0] IdFactory.MIN_TUPLE i) < 2)
    /\ IdentifierTuple.random
         (FactorySpec.padded [IdentifierTuple.mk 5 1 0 0] IdFactory.MIN_TUPLE k) < random
       < IdentifierTuple.random
           (FactorySpec.padded [IdentifierTuple.mk 6 2 0 0] IdFactory.MAX_TUPLE k)
    /\ ((forall x, In x [IdentifierTuple.mk 5 1 0 0] -> ~ FactorySpec.carries 7 3 x) ->
        ~ FactorySpec.carries 7 3 IdFactory.MIN_TUPLE ->
        forall i, (i < k)%nat ->
          ~ FactorySpec.carries 7 3
              (FactorySpec.padded [IdentifierTuple.mk 5 1 0 0] IdFactory.MIN_TUPLE i)).
Proof.
  apply (createBetweenPosition_shape (fun l _ => l)
           (fun (l u : Z) (H : l < u) => conj (Z.le_refl l) H) 7 3
           (Some [IdentifierTuple.mk 5 1 0 0]) (Some [IdentifierTuple.mk 6 2 0 0])).
Defined.

(** The final tuple need not be the only one with the caller's
    [(replicaNumber, clock)]: replica 7 at clock 0 inherits a tuple that
    carries [(7, 0)] already. *)
Lemma createBetweenPosition_inherits_caller_pair :
  (forall l u : Z, l < u -> l <= (fun l _ : Z => l) l u < u)
  /\ FactorySpec.precedes (Some [IdentifierTuple.mk 5 7 0 0])
                          (Some [IdentifierTuple.mk 6 1 0 0])
  /\ IdFactory.createBetweenPosition (fun l _ => l)
       (Some [IdentifierTuple.mk 5 7 0 0]) (Some [IdentifierTuple.mk 6 1 0 0]) 7 0
     = Some [IdentifierTuple.mk 5 7 0 0;
             IdentifierTuple.mk (Int32.INT32_BOTTOM + 1) 7 0 0]
  /\ FactorySpec.carries 7 0 (IdentifierTuple.mk 5 7 0 0).
Proof.
  split; [intros; lia|]. split; [reflexivity|]. split; [reflexivity|].
  split; reflexivity.
Qed.


(** ** Blocks *)

Section BlockFacts.

Import LogootSBlock.

Lemma run_nonneg cs : forall b,
  0 <= nbElement b -> respects b cs -> 0 <= nbElement (run b cs).
Proof.
  induction cs as [|c cs IH]; intros b Hb Hcs; simpl in *; trivial.
  destruct Hcs as [Hc Hcs]. apply IH; trivial.
  destruct c as [pos length|nbElt]; simpl in *; lia.
Qed.

(** C9.  The element count of a block built by the constructor (under its
    asserted precondition) is a non-negative int32, and it is non-negative
    after every run of [addBlock] and [delBlock] calls that respect their
    preconditions. *)
Theorem nbElement_nonnegative idInterval nbElt cs :
  pre_new nbElt ->
  respects (new idInterval nbElt) cs ->
  Int32.isInt32 (nbElement (new idInterval nbElt)) = true
  /\ 0 <= nbElement (new idInterval nbElt)
  /\ 0 <= nbElement (run (new idInterval nbElt) cs).
Proof.
  intros [Hint Hpos] Hcs. split; [exact Hint|]. split; [exact Hpos|].
  now apply run_nonneg.
Qed.

End BlockFacts.

Lemma nbElement_nonnegative_witness :
  Int32.isInt32
    (LogootSBlock.nbElement
       (LogootSBlock.new (IdentifierInterval.mk [IdentifierTuple.mk 5 1 0 0] 0 1) 2)) = true
  /\ 0 <= LogootSBlock.nbElement
            (LogootSBlock.new (IdentifierInterval.mk [IdentifierTuple.mk 5 1 0 0] 0 1) 2)
  /\ 0 <= LogootSBlock.nbElement
            (LogootSBlock.run
               (LogootSBlock.new (IdentifierInterval.mk [IdentifierTuple.mk 5 1 0 0] 0 1) 2)
               [LogootSBlock.AddBlock 2 3; LogootSBlock.DelBlock 5]).
Proof.
  apply (nbElement_nonnegative
           (IdentifierInterval.mk [IdentifierTuple.mk 5 1 0 0] 0 1) 2
           [LogootSBlock.AddBlock 2 3; LogootSBlock.DelBlock 5]).
  - split; [reflexivity|lia].
  - simpl. repeat split; lia.
Defined.

(** ** Deserialization *)

Section FromPlainFacts.

Lemma omap_length_le {A B} (f : A -> option B) l :
  (List.length (omap f l) <= List.length l)%nat.
Proof.
  unfold omap. induction l as [|x l IH]; simpl; [lia|].
  destruct (f x); simpl; lia.
Qed.

Lemma omap_all_Some {A B} (f : A -> option B) l :
  List.length (omap f l) = List.length l ->
  Forall2 (fun x y => f x = Some y) l (omap f l).
Proof.
  unfold omap. induction l as [|x l IH]; simpl; intros H; [constructor|].
  destruct (f x) eqn:E; simpl in *.
  - constructor; auto.
  - pose proof (omap_length_le f l) as Hle. unfold omap in Hle. lia.
Qed.

Lemma Forall2_omap {A B} (f : A -> option B) l l' :
  Forall2 (fun x y => f x = Some y) l l' -> omap f l = l'.
Proof.
  unfold omap. induction 1 as [|x y l l' Hxy _ IH]; simpl; trivial.
  rewrite Hxy. simpl. now f_equal.
Qed.

(** C8.  [LogootSBlock.fromPlain] and [RenamingMap.fromPlain] are
    functions of the plain value alone (no state is read or written).
    They return an object exactly for a well-formed value, and [null]
    for every other one: the block when [o] is an object whose
    [idInterval] is an object accepted by [IdentifierInterval.fromPlain]
    and whose [nbElement] is a non-negative int32; the renaming map when
    [o] is an object with int32 [replicaNumber] and [clock] and a non-empty
    array [renamedIdIntervals] all of whose elements are accepted by
    [IdentifierInterval.fromPlain]. *)
Theorem fromPlain_accepts_well_formed_only :
  (forall o b,
     LogootSBlock.fromPlain o = Some b <->
     exists id n,
       Js.isObject o = true
       /\ Js.isObject (Js.get o "idInterval") = true
       /\ IdentifierIntervalPlain.fromPlain (Js.get o "idInterval") = Some id
       /\ Js.get o "nbElement" = JsNum (JsInt n)
       /\ Int32.isInt32 n = true /\ 0 <= n
       /\ b = LogootSBlock.new id n)
  /\ (forall o m,
     RenamingMap.fromPlain o = Some m <->
     exists replicaNumber clock plainIntervals intervals,
       Js.isObject o = true
       /\ Js.get o "replicaNumber" = JsNum (JsInt replicaNumber)
       /\ Int32.isInt32 replicaNumber = true
       /\ Js.get o "clock" = JsNum (JsInt clock)
       /\ Int32.isInt32 clock = true
       /\ Js.get o "renamedIdIntervals" = JsArray plainIntervals
       /\ plainIntervals <> []
       /\ Forall2 (fun p i => IdentifierIntervalPlain.fromPlain p = Some i)
                  plainIntervals intervals
       /\ m = RenamingMap.new replicaNumber clock intervals).
Proof.
  assert (Hint : forall v z, Js.asInt32 v = Some z <->
                   v = JsNum (JsInt z) /\ Int32.isInt32 z = true).
  { intros v z. unfold Js.asInt32.
    destruct v as [| | |[z'|]| | |]; try (split; [discriminate|intros [? _]; discriminate]).
    destruct (Int32.isInt32 z') eqn:E.
    - split; [intros [= ->]; auto|intros [[= ->] _]; trivial].
    - split; [discriminate|intros [[= ->] E']; congruence]. }
  split.
  - intros o b. unfold LogootSBlock.fromPlain. split.
    + destruct (Js.isObject o); [|discriminate].
      destruct (Js.isObject (Js.get o "idInterval")); [|discriminate].
      destruct (Js.asInt32 (Js.get o "nbElement")) as [n|] eqn:En; [|discriminate].
      destruct (Z.leb_spec 0 n); [|discriminate].
      destruct (IdentifierIntervalPlain.fromPlain (Js.get o "idInterval")) as [id|];
        [|discriminate].
      intros [= <-]. apply Hint in En as [En En']. exists id, n. auto 10.
    + intros (id & n & -> & -> & -> & Hn & Hn' & Hpos & ->).
      assert (En : Js.asInt32 (Js.get o "nbElement") = Some n) by (apply Hint; auto).
      rewrite En. destruct (Z.leb_spec 0 n); [reflexivity|lia].
  - intros o m. unfold RenamingMap.fromPlain. split.
    + destruct (Js.isObject o); [|discriminate].
      destruct (Js.asInt32 (Js.get o "replicaNumber")) as [r|] eqn:Er; [|discriminate].
      destruct (Js.asInt32 (Js.get o "clock")) as [c|] eqn:Ec; [|discriminate].
      destruct (Js.asArray (Js.get o "renamedIdIntervals")) as [pl|] eqn:Ea; [|discriminate].
      unfold arrayLength.
      destruct (Z.ltb_spec 0 (Z.of_nat (List.length pl))) as [Hlen|]; [|discriminate].
      destruct (Z.eqb_spec (Z.of_nat (List.length pl))
                  (Z.of_nat (List.length (omap IdentifierIntervalPlain.fromPlain pl))))
        as [Heq|]; [|discriminate].
      intros [= <-]. apply Hint in Er as [Er Er'], Ec as [Ec Ec'].
      exists r, c, pl, (omap IdentifierIntervalPlain.fromPlain pl).
      repeat split; trivial.
      * unfold Js.asArray in Ea.
        destruct (Js.get o "renamedIdIntervals"); try discriminate. congruence.
      * intros ->. simpl in Hlen. lia.
      * apply omap_all_Some. lia.
    + intros (r & c & pl & ivs & -> & Hr & Hr' & Hc & Hc' & Ha & Hne & Hall & ->).
      assert (Er : Js.asInt32 (Js.get o "replicaNumber") = Some r) by (apply Hint; auto).
      assert (Ec : Js.asInt32 (Js.get o "clock") = Some c) by (apply Hint; auto).
      rewrite Er, Ec, Ha. simpl Js.asArray. cbv iota.
      rewrite (Forall2_omap _ _ _ Hall).
      apply List.Forall2_length in Hall. unfold arrayLength. rewrite <- Hall.
      destruct (Z.ltb_spec 0 (Z.of_nat (List.length pl))) as [|Hlen].
      * now rewrite Z.eqb_refl.
      * destruct pl; [congruence|simpl in Hlen; lia].
Qed.

End FromPlainFacts.

(** ** Identifiers sharing a base *)

Section FromBaseFacts.

Lemma fromBase_snoc p x o :
  Identifier.fromBase (p ++ [x]) o = p ++ [IdentifierTuple.fromBase x o].
Proof.
  induction p as [|y p IH]; simpl; trivial.
  rewrite IH. destruct (p ++ [x]) eqn:E; trivial.
  destruct p; discriminate.
Qed.

Lemma id_snoc (id : Identifier) :
  id <> [] -> exists p x, id = p ++ [x].
Proof.
  intros H. destruct (exists_last H) as (p & x & ->). eauto.
Qed.

Lemma fromBase_length id o :
  List.length (Identifier.fromBase id o) = List.length id.
Proof.
  destruct id as [|y id]; trivial.
  destruct (id_snoc (y :: id) ltac:(discriminate)) as (p & x & ->).
  rewrite fromBase_snoc, !length_app. reflexivity.
Qed.

Lemma fromBase_nil id o : Identifier.fromBase id o = [] <-> id = [].
Proof.
  split; [|intros ->; reflexivity].
  intros H. apply (f_equal (@List.length _)) in H.
  rewrite fromBase_length in H. now destruct id.
Qed.

Lemma fromBase_fromBase id a b :
  Identifier.fromBase (Identifier.fromBase id a) b = Identifier.fromBase id b.
Proof.
  destruct id as [|y id]; trivial.
  destruct (id_snoc (y :: id) ltac:(discriminate)) as (p & x & ->).
  now rewrite !fromBase_snoc.
Qed.

Lemma lastTuple_snoc p x : Identifier.lastTuple (p ++ [x]) = x.
Proof. unfold Identifier.lastTuple. apply last_last. Qed.

Lemma lastOffset_fromBase id o :
  id <> [] -> Identifier.lastOffset (Identifier.fromBase id o) = o.
Proof.
  intros H. destruct (id_snoc id H) as (p & x & ->).
  unfold Identifier.lastOffset. now rewrite fromBase_snoc, lastTuple_snoc.
Qed.

Lemma fromBase_lastOffset id :
  Identifier.fromBase id (Identifier.lastOffset id) = id.
Proof.
  destruct id as [|y id]; trivial.
  destruct (id_snoc (y :: id) ltac:(discriminate)) as (p & x & ->).
  unfold Identifier.lastOffset. rewrite fromBase_snoc, lastTuple_snoc.
  now destruct x.
Qed.

Lemma compareTo_fromBase id a b :
  id <> [] ->
  Identifier.compareTo (Identifier.fromBase id a) (Identifier.fromBase id b)
  = Ord.compareZ a b.
Proof.
  intros H. destruct (id_snoc id H) as (p & x & ->).
  rewrite !fromBase_snoc, id_compareTo_app. simpl.
  destruct x as [r c k o]; unfold IdentifierTuple.compareTo; simpl.
  assert (E : forall z, Ord.compareZ z z = Equal) by (intros; now apply compareZ_Equal).
  rewrite !E. now destruct (Ord.compareZ a b).
Qed.

Lemma fromBase_lt id a b :
  id <> [] -> a < b ->
  Identifier.compareTo (Identifier.fromBase id a) (Identifier.fromBase id b) = Less.
Proof. intros. rewrite compareTo_fromBase by trivial. now apply compareZ_Less. Qed.

Lemma fromBase_inj id a b :
  id <> [] -> Identifier.fromBase id a = Identifier.fromBase id b -> a = b.
Proof.
  intros H E. apply (f_equal Identifier.lastOffset) in E.
  now rewrite !lastOffset_fromBase in E.
Qed.

End FromBaseFacts.

(** ** Arrays *)

Section ArrayFacts.

Context {A : Type}.

Lemma arrayAt_nat (a : list A) (i : nat) : arrayAt a (Z.of_nat i) = a !! i.
Proof.
  unfold arrayAt. destruct (Z.ltb_spec (Z.of_nat i) 0); [lia|].
  now rewrite Nat2Z.id.
Qed.

Lemma arrayAt_Some (a : list A) i x :
  arrayAt a i = Some x <-> 0 <= i /\ a !! Z.to_nat i = Some x.
Proof.
  unfold arrayAt. destruct (Z.ltb_spec i 0); split; try discriminate; try lia; tauto.
Qed.

Lemma arrayAt_lt (a : list A) i :
  0 <= i < arrayLength a -> exists x, arrayAt a i = Some x.
Proof.
  intros H. unfold arrayAt, arrayLength in *.
  destruct (Z.ltb_spec i 0); [lia|].
  destruct (lookup_lt_is_Some_2 a (Z.to_nat i)) as [x Hx]; [lia|eauto].
Qed.

Lemma arrayAt_bound (a : list A) i x :
  arrayAt a i = Some x -> 0 <= i < arrayLength a.
Proof.
  intros H. apply arrayAt_Some in H as [H0 H]. apply lookup_lt_Some in H.
  unfold arrayLength. lia.
Qed.

End ArrayFacts.

(** ** The identifiers of the intervals *)

Section IntervalFacts.

Import RenamingSpec.

Lemma validInterval_spec i :
  validInterval i = true <->
  IdentifierInterval.base i <> [] /\ 0 < IdentifierInterval.length i.
Proof.
  unfold validInterval, IdentifierInterval.length.
  rewrite andb_true_iff, negb_true_iff, bool_decide_eq_false, Z.leb_le. intuition lia.
Qed.

Lemma toIds_length i :
  List.length (IdentifierInterval.toIds i) = Z.to_nat (IdentifierInterval.length i).
Proof. unfold IdentifierInterval.toIds. now rewrite length_map, length_seq. Qed.

Lemma toIds_lookup i (d : nat) :
  Z.of_nat d < IdentifierInterval.length i ->
  IdentifierInterval.toIds i !! d
  = Some (Identifier.fromBase (IdentifierInterval.base i)
                              (IdentifierInterval.begin i + Z.of_nat d)).
Proof.
  intros H. unfold IdentifierInterval.toIds.
  rewrite list_lookup_fmap, lookup_seq_lt by lia. reflexivity.
Qed.

Lemma sums_length start ivs : List.length (sums start ivs) = List.length ivs.
Proof. revert start; induction ivs; simpl; intros; auto. Qed.

Lemma total_nonneg ivs : forallb validInterval ivs = true -> 0 <= total ivs.
Proof.
  induction ivs as [|i ivs IH]; simpl; [lia|].
  rewrite andb_true_iff, validInterval_spec. intros [[_ H] H']. specialize (IH H'). lia.
Qed.

Lemma flat_length ivs :
  forallb validInterval ivs = true ->
  Z.of_nat (List.length (flat_map IdentifierInterval.toIds ivs)) = total ivs.
Proof.
  induction ivs as [|i ivs IH]; simpl; trivial.
  rewrite andb_true_iff, validInterval_spec. intros [[_ H] H'].
  rewrite length_app, toIds_length, Nat2Z.inj_add, IH by trivial. lia.
Qed.

(** The place of an interval among the sums, and the identifiers it
    contributes. *)
Lemma sums_lookup ivs : forall start (j : nat) i,
  forallb validInterval ivs = true ->
  ivs !! j = Some i ->
  exists s,
    sums start ivs !! j = Some s
    /\ start <= s
    /\ s + IdentifierInterval.length i <= start + total ivs
    /\ forall d : nat, Z.of_nat d < IdentifierInterval.length i ->
         flat_map IdentifierInterval.toIds ivs !! Z.to_nat (s - start + Z.of_nat d)
         = Some (Identifier.fromBase (IdentifierInterval.base i)
                                     (IdentifierInterval.begin i + Z.of_nat d)).
Proof.
  induction ivs as [|i0 ivs IH]; intros start j i Hv Hj; [discriminate|].
  simpl in Hv. apply andb_true_iff in Hv as [Hv0 Hv].
  pose proof (total_nonneg _ Hv) as Ht.
  apply validInterval_spec in Hv0 as [_ Hlen0].
  destruct j as [|j]; simpl in *.
  - injection Hj as ->. exists start. repeat split; try lia.
    intros d Hd. rewrite lookup_app_l by (rewrite toIds_length; lia).
    replace (Z.to_nat (start - start + Z.of_nat d)) with d by lia.
    now apply toIds_lookup.
  - destruct (IH (start + IdentifierInterval.length i0) j i Hv Hj)
      as (s & Hs & Hle & Hup & Hids).
    exists s. repeat split; trivial; try lia.
    intros d Hd. rewrite lookup_app_r by (rewrite toIds_length; lia).
    rewrite toIds_length. rewrite <- (Hids d Hd). f_equal. lia.
Qed.

Lemma sums_mono ivs : forall start (j1 j2 : nat) i1 s1 s2,
  forallb validInterval ivs = true ->
  (j1 < j2)%nat ->
  ivs !! j1 = Some i1 -> sums start ivs !! j1 = Some s1 ->
  sums start ivs !! j2 = Some s2 ->
  s1 + IdentifierInterval.length i1 <= s2.
Proof.
  induction ivs as [|i0 ivs IH]; intros start j1 j2 i1 s1 s2 Hv Hlt H1 Hs1 Hs2;
    [discriminate|].
  simpl in Hv. apply andb_true_iff in Hv as [Hv0 Hv].
  destruct j2 as [|j2]; [lia|]. destruct j1 as [|j1]; simpl in *.
  - injection H1 as <-. injection Hs1 as <-.
    assert (Hj2 : (j2 < List.length ivs)%nat).
    { apply lookup_lt_Some in Hs2. now rewrite sums_length in Hs2. }
    destruct (lookup_lt_is_Some_2 ivs j2 Hj2) as [i2 Hi2].
    destruct (sums_lookup ivs (start + IdentifierInterval.length i0) j2 i2 Hv Hi2)
      as (s & Hs & Hle & _). assert (s = s2) by congruence. lia.
  - apply (IH (start + IdentifierInterval.length i0) j1 j2 i1 s1 s2); trivial. lia.
Qed.

(** Every index below the total falls in one interval. *)
Lemma sums_locate ivs : forall start k,
  forallb validInterval ivs = true ->
  0 <= k < total ivs ->
  exists (j : nat) i s,
    ivs !! j = Some i /\ sums start ivs !! j = Some s
    /\ s <= start + k < s + IdentifierInterval.length i.
Proof.
  induction ivs as [|i0 ivs IH]; intros start k Hv Hk; simpl in *; [lia|].
  apply andb_true_iff in Hv as [Hv0 Hv].
  destruct (Z.lt_ge_cases k (IdentifierInterval.length i0)) as [Hlt|Hge].
  - exists 0%nat, i0, start. simpl. repeat split; lia.
  - destruct (IH (start + IdentifierInterval.length i0)
                 (k - IdentifierInterval.length i0) Hv ltac:(lia))
      as (j & i & s & Hj & Hs & Hrange).
    exists (S j), i, s. simpl. repeat split; trivial; lia.
Qed.

End IntervalFacts.

(** ** The renaming map built by the constructor *)

Section RenamingMapFacts.

Import RenamingSpec.

#[local] Arguments Identifier.compareTo : simpl never.
#[local] Arguments Identifier.fromBase : simpl never.
#[local] Arguments Identifier.isPrefix : simpl never.
#[local] Arguments Identifier.equalsBase : simpl never.

Lemma new_fold ivs : forall acc index,
  fold_left
    (fun '(indexes, index) idInterval =>
       (indexes ++ [index], index + IdentifierInterval.length idInterval))
    ivs (acc, index)
  = (acc ++ sums index ivs, index + total ivs).
Proof.
  induction ivs as [|i ivs IH]; intros acc index; simpl.
  - now rewrite app_nil_r, Z.add_0_r.
  - rewrite IH, <- app_assoc. simpl. f_equal. lia.
Qed.

Lemma new_eq replicaNumber clock ivs :
  RenamingMap.new replicaNumber clock ivs
  = RenamingMap.mk replicaNumber clock ivs (sums 0 ivs) (total ivs - 1).
Proof. unfold RenamingMap.new. now rewrite new_fold. Qed.

Lemma increasing_lookup ids : increasing ids = true ->
  forall (i j : nat) a b, (i < j)%nat -> ids !! i = Some a -> ids !! j = Some b ->
    Identifier.compareTo a b = Less.
Proof.
  induction ids as [|x ids IH]; intros Hinc i j a b Hlt Hi Hj; [discriminate|].
  assert (Hinc' : increasing ids = true).
  { simpl in Hinc. destruct ids; trivial. now apply andb_true_iff in Hinc. }
  destruct j as [|j]; [lia|]. destruct i as [|i]; simpl in *.
  - injection Hi as <-. clear Hlt. revert b Hj.
    induction j as [|j IHj]; intros b Hj.
    + destruct ids as [|y ids]; [discriminate|]. injection Hj as <-.
      apply andb_true_iff in Hinc as [H _]. now apply bool_decide_eq_true in H.
    + assert (Hj' : (j < List.length ids)%nat).
      { apply lookup_lt_Some in Hj. lia. }
      destruct (lookup_lt_is_Some_2 ids j Hj') as [c Hc].
      eapply id_lt_trans; [apply IHj, Hc|].
      apply (IH Hinc' j (S j) c b); trivial. lia.
  - apply (IH Hinc' i j a b); trivial. lia.
Qed.

(** The map [this] is built by the constructor from a non-empty list of
    valid intervals; the statements that follow a walk or a search through
    the renamed identifiers [R] also take them in increasing order. *)
Variables (replicaNumber clock : Z) (ivs : list Interval).
Hypothesis Hvalid : validIntervals ivs = true.

Let this := RenamingMap.new replicaNumber clock ivs.
Let R := RenamingMap.renamedIds this.

Hypothesis Hincreasing : increasing R = true.

Lemma wf_nonempty : ivs <> [].
Proof.
  unfold validIntervals in Hvalid. apply andb_true_iff in Hvalid as [H _].
  now apply negb_true_iff, bool_decide_eq_false in H.
Qed.

Lemma wf_valid : forallb validInterval ivs = true.
Proof.
  unfold validIntervals in Hvalid. now apply andb_true_iff in Hvalid as [_ H].
Qed.

Lemma this_intervals : RenamingMap.renamedIdIntervals this = ivs.
Proof. unfold this. now rewrite new_eq. Qed.

Lemma this_indexes : RenamingMap.indexes this = sums 0 ivs.
Proof. unfold this. now rewrite new_eq. Qed.

Lemma this_maxOffset : RenamingMap.maxOffset this = total ivs - 1.
Proof. unfold this. now rewrite new_eq. Qed.

Lemma this_replicaNumber : RenamingMap.replicaNumber this = replicaNumber.
Proof. unfold this. now rewrite new_eq. Qed.

Lemma this_clock : RenamingMap.clock this = clock.
Proof. unfold this. now rewrite new_eq. Qed.

Lemma R_eq : R = flat_map IdentifierInterval.toIds ivs.
Proof. unfold R, RenamingMap.renamedIds. now rewrite this_intervals. Qed.

Lemma wf_increasing : increasing R = true.
Proof. exact Hincreasing. Qed.

Lemma R_length : arrayLength R = total ivs.
Proof. unfold arrayLength. rewrite R_eq. apply flat_length, wf_valid. Qed.

Lemma R_length_max : arrayLength R = RenamingMap.maxOffset this + 1.
Proof. rewrite R_length, this_maxOffset. lia. Qed.

Lemma total_pos : 0 < total ivs.
Proof.
  pose proof wf_nonempty as Hne. pose proof wf_valid as Hv. clear Hincreasing Hvalid.
  destruct ivs as [|i l]; [congruence|]. simpl in *.
  apply andb_true_iff in Hv as [Hi Hl]. apply validInterval_spec in Hi.
  pose proof (total_nonneg _ Hl). lia.
Qed.

Lemma R_sorted (i j : Z) a b :
  i < j -> arrayAt R i = Some a -> arrayAt R j = Some b ->
  Identifier.compareTo a b = Less.
Proof.
  intros Hlt Hi Hj. apply arrayAt_Some in Hi as [Hi0 Hi], Hj as [Hj0 Hj].
  apply (increasing_lookup R wf_increasing (Z.to_nat i) (Z.to_nat j)); trivial. lia.
Qed.

Lemma R_sorted_le (i j : Z) a b :
  i <= j -> arrayAt R i = Some a -> arrayAt R j = Some b ->
  Identifier.compareTo b a <> Less.
Proof.
  intros Hle Hi Hj. destruct (Z.eq_dec i j) as [->|Hne].
  - assert (a = b) by congruence. subst. apply id_lt_irrefl.
  - apply id_lt_asym. apply (R_sorted i j); trivial. lia.
Qed.

Lemma R_inj (i j : Z) a :
  arrayAt R i = Some a -> arrayAt R j = Some a -> i = j.
Proof.
  intros Hi Hj. destruct (Z.lt_total i j) as [H|[H|H]]; trivial; exfalso.
  - apply (id_lt_irrefl a), (R_sorted i j); trivial.
  - apply (id_lt_irrefl a), (R_sorted j i); trivial.
Qed.

(** Where the identifier of new offset [k] comes from. *)
Lemma R_locate k :
  0 <= k < total ivs ->
  exists (j : nat) i s,
    ivs !! j = Some i /\ sums 0 ivs !! j = Some s
    /\ s <= k < s + IdentifierInterval.length i
    /\ IdentifierInterval.base i <> []
    /\ arrayAt R k
       = Some (Identifier.fromBase (IdentifierInterval.base i)
                                   (IdentifierInterval.begin i + (k - s))).
Proof.
  intros Hk.
  destruct (sums_locate ivs 0 k wf_valid Hk) as (j & i & s & Hj & Hs & Hr).
  exists j, i, s. repeat split; trivial; try lia.
  - pose proof wf_valid as Hv. rewrite forallb_forall in Hv.
    specialize (Hv i). apply validInterval_spec in Hv; [tauto|].
    apply list_elem_of_In. eapply list_elem_of_lookup_2; eauto.
  - destruct (sums_lookup ivs 0 j i wf_valid Hj) as (s' & Hs' & _ & _ & Hids).
    assert (s' = s) by congruence. subst s'.
    specialize (Hids (Z.to_nat (k - s)) ltac:(lia)).
    apply arrayAt_Some. split; [lia|]. rewrite R_eq.
    replace (Z.of_nat (Z.to_nat (k - s))) with (k - s) in Hids by lia.
    replace (s - 0 + (k - s)) with k in Hids by lia. exact Hids.
Qed.

Lemma R_nonempty k a : arrayAt R k = Some a -> a <> [].
Proof.
  intros Ha. pose proof (arrayAt_bound _ _ _ Ha) as Hb. rewrite R_length in Hb.
  destruct (R_locate k Hb) as (j & i & s & _ & _ & _ & Hne & Hk).
  assert (a = Identifier.fromBase (IdentifierInterval.base i)
                 (IdentifierInterval.begin i + (k - s))) as -> by congruence.
  now rewrite fromBase_nil.
Qed.

(** *** The binary search of [findPositionFromIndex] *)

Lemma findPositionLoop_found (j : nat) i s index : forall fuel l r,
  ivs !! j = Some i -> sums 0 ivs !! j = Some s ->
  s <= index < s + IdentifierInterval.length i ->
  0 <= l <= Z.of_nat j -> Z.of_nat j < r <= arrayLength ivs ->
  (Z.to_nat (r - l) < fuel)%nat ->
  RenamingMap.findPositionLoop this fuel l r index
  = Some (Z.of_nat j, index - s + IdentifierInterval.begin i).
Proof.
  intros fuel. induction fuel as [|fuel IH]; intros l r Hj Hs Hidx Hl Hr Hfuel; [lia|].
  simpl. destruct (Z.leb_spec l r); [|lia].
  assert (Hm : l <= (l + r) / 2 < r).
  { split; [apply Z.div_le_lower_bound|apply Z.div_lt_upper_bound]; lia. }
  set (m := (l + r) / 2) in *.
  rewrite this_indexes, this_intervals.
  assert (Hmn : (Z.to_nat m < List.length ivs)%nat) by (unfold arrayLength in Hr; lia).
  destruct (lookup_lt_is_Some_2 ivs _ Hmn) as [im Him].
  destruct (sums_lookup ivs 0 _ im wf_valid Him) as (sm & Hsm & _ & _ & _).
  assert (Eim : arrayAt ivs m = Some im) by (apply arrayAt_Some; split; [lia|trivial]).
  assert (Esm : arrayAt (sums 0 ivs) m = Some sm) by (apply arrayAt_Some; split; [lia|trivial]).
  rewrite Esm, Eim. simpl.
  pose proof wf_valid as Hv.
  assert (Hlen : 0 < IdentifierInterval.length im).
  { rewrite forallb_forall in Hv. specialize (Hv im).
    apply validInterval_spec in Hv; [tauto|].
    apply list_elem_of_In. eapply list_elem_of_lookup_2; eauto. }
  destruct (Z.lt_total m (Z.of_nat j)) as [Hlt|[Heq|Hgt]].
  - pose proof (sums_mono ivs 0 (Z.to_nat m) j im sm s Hv ltac:(lia) Him Hsm Hs).
    destruct (Z.leb_spec (sm + IdentifierInterval.length im) index); [|lia].
    apply IH; trivial; lia.
  - assert (Z.to_nat m = j) by lia. subst j.
    assert (im = i) by congruence. assert (sm = s) by congruence. subst.
    destruct (Z.leb_spec (s + IdentifierInterval.length i) index); [lia|].
    destruct (Z.ltb_spec index s); [lia|].
    do 2 f_equal. lia.
  - pose proof (sums_mono ivs 0 j (Z.to_nat m) i s sm Hv ltac:(lia) Hj Hs Hsm).
    destruct (Z.leb_spec (sm + IdentifierInterval.length im) index); [lia|].
    destruct (Z.ltb_spec index sm); [|lia].
    apply IH; trivial; lia.
Qed.

Lemma findPositionFromIndex_found k :
  0 <= k < total ivs ->
  exists (j : nat) i s,
    ivs !! j = Some i /\ sums 0 ivs !! j = Some s
    /\ s <= k < s + IdentifierInterval.length i
    /\ IdentifierInterval.base i <> []
    /\ arrayAt R k
       = Some (Identifier.fromBase (IdentifierInterval.base i)
                                   (IdentifierInterval.begin i + (k - s)))
    /\ RenamingMap.findPositionFromIndex this k
       = Some (Z.of_nat j, k - s + IdentifierInterval.begin i).
Proof.
  intros Hk. destruct (R_locate k Hk) as (j & i & s & Hj & Hs & Hr & Hne & Hid).
  exists j, i, s. repeat split; trivial; try lia.
  unfold RenamingMap.findPositionFromIndex. rewrite this_intervals.
  pose proof (lookup_lt_Some _ _ _ Hj).
  apply findPositionLoop_found; trivial; unfold arrayLength; lia.
Qed.

Lemma findIdFromIndex_eq k :
  0 <= k < total ivs -> RenamingMap.findIdFromIndex this k = arrayAt R k.
Proof.
  intros Hk.
  destruct (findPositionFromIndex_found k Hk)
    as (j & i & s & Hj & Hs & Hr & Hne & Hid & Hfind).
  unfold RenamingMap.findIdFromIndex. rewrite Hfind. simpl.
  rewrite this_intervals, arrayAt_nat, Hj. simpl.
  unfold IdentifierInterval.idBegin. rewrite fromBase_fromBase, Hid.
  do 2 f_equal. lia.
Qed.

Lemma findPredecessorAndSuccessorFromIndex_eq k a b :
  arrayAt R k = Some a -> arrayAt R (k + 1) = Some b ->
  RenamingMap.findPredecessorAndSuccessorFromIndex this k = Some (a, b).
Proof.
  intros Ha Hb.
  pose proof (arrayAt_bound _ _ _ Ha) as Hk. pose proof (arrayAt_bound _ _ _ Hb) as Hk1.
  rewrite R_length in Hk, Hk1.
  destruct (findPositionFromIndex_found k Hk)
    as (j & i & s & Hj & Hs & Hr & Hne & Hid & Hfind).
  unfold RenamingMap.findPredecessorAndSuccessorFromIndex. rewrite Hfind. simpl.
  rewrite this_intervals, arrayAt_nat, Hj. simpl.
  unfold IdentifierInterval.idBegin at 1 2. rewrite !fromBase_fromBase.
  assert (Ea : a = Identifier.fromBase (IdentifierInterval.base i)
                     (k - s + IdentifierInterval.begin i)).
  { rewrite Hid in Ha. injection Ha as <-. f_equal. lia. }
  destruct (Z.eqb_spec (k - s + IdentifierInterval.begin i) (IdentifierInterval.end_ i))
    as [Hend|Hend]; simpl.
  - (* the successor begins the next interval *)
    destruct (R_locate (k + 1) Hk1) as (j' & i' & s' & Hj' & Hs' & Hr' & Hne' & Hid').
    unfold IdentifierInterval.length in Hr. 
    assert (Hjj : j' = S j).
    { destruct (Nat.lt_total j' (S j)) as [H|[H|H]]; trivial; exfalso.
      - assert (H' : (j' < j)%nat \/ j' = j) by lia. destruct H' as [H'| ->].
        + pose proof (sums_mono ivs 0 j' j i' s' s wf_valid H' Hj' Hs' Hs). lia.
        + assert (i' = i) by congruence. assert (s' = s) by congruence. subst.
          unfold IdentifierInterval.length in Hr'. lia.
      - destruct (lookup_lt_is_Some_2 ivs (S j)) as [i1 Hi1].
        { apply lookup_lt_Some in Hj'. lia. }
        destruct (sums_lookup ivs 0 (S j) i1 wf_valid Hi1) as (s1 & Hs1 & _ & _ & _).
        pose proof (sums_mono ivs 0 j (S j) i s s1 wf_valid ltac:(lia) Hj Hs Hs1) as M1.
        pose proof (sums_mono ivs 0 (S j) j' i1 s1 s' wf_valid H Hi1 Hs1 Hs') as M2.
        pose proof wf_valid as Hv. rewrite forallb_forall in Hv.
        specialize (Hv i1). rewrite validInterval_spec in Hv.
        destruct Hv as [_ Hv]; [apply list_elem_of_In; eapply list_elem_of_lookup_2; eauto|].
        unfold IdentifierInterval.length in *. lia. }
    subst j'.
    replace (Z.of_nat j + 1) with (Z.of_nat (S j)) by lia.
    rewrite arrayAt_nat, Hj'. simpl.
    pose proof (sums_mono ivs 0 j (S j) i s s' wf_valid ltac:(lia) Hj Hs Hs') as M.
    unfold IdentifierInterval.length in M.
    assert (s' = k + 1) by lia.
    rewrite Hid' in Hb. injection Hb as <-.
    unfold IdentifierInterval.idBegin. rewrite ?fromBase_fromBase, <- Ea.
    do 3 f_equal. lia.
  - (* the successor is in the same interval *)
    destruct (R_locate (k + 1) Hk1) as (j' & i' & s' & Hj' & Hs' & Hr' & Hne' & Hid').
    unfold IdentifierInterval.length in Hr.
    assert (Hjj : j' = j).
    { destruct (Nat.lt_total j' j) as [H|[H|H]]; trivial; exfalso.
      - pose proof (sums_mono ivs 0 j' j i' s' s wf_valid H Hj' Hs' Hs). lia.
      - pose proof (sums_mono ivs 0 j j' i s s' wf_valid H Hj Hs Hs') as M.
        unfold IdentifierInterval.length in M. lia. }
    subst j'. assert (i' = i) by congruence. assert (s' = s) by congruence. subst.
    rewrite Hid' in Hb. injection Hb as <-.
    unfold IdentifierInterval.idBegin. rewrite ?fromBase_fromBase.
    do 3 f_equal. lia.
Qed.

(** *** The getters *)

Lemma R_first : exists a, arrayAt R 0 = Some a /\ RenamingMap.firstId this = Some a.
Proof.
  pose proof total_pos as Ht.
  destruct (R_locate 0 ltac:(lia)) as (j & i & s & Hj & Hs & Hr & Hne & Hid).
  assert (j = 0%nat).
  { destruct j as [|j]; trivial. exfalso.
    destruct (lookup_lt_is_Some_2 ivs 0) as [i0 Hi0].
    { apply lookup_lt_Some in Hj. lia. }
    destruct (sums_lookup ivs 0 0 i0 wf_valid Hi0) as (s0 & Hs0 & Hle & _ & _).
    pose proof (sums_mono ivs 0 0 (S j) i0 s0 s wf_valid ltac:(lia) Hi0 Hs0 Hs).
    pose proof wf_valid as Hv. rewrite forallb_forall in Hv.
    specialize (Hv i0). rewrite validInterval_spec in Hv.
    destruct Hv as [_ Hv]; [apply list_elem_of_In; eapply list_elem_of_lookup_2; eauto|].
    lia. }
  subst j. eexists. split; [exact Hid|].
  unfold RenamingMap.firstId. rewrite this_intervals.
  change 0 with (Z.of_nat 0). rewrite arrayAt_nat, Hj. simpl.
  unfold IdentifierInterval.idBegin. do 2 f_equal. clear -Hs.
  destruct ivs; [discriminate|]. simpl in *. injection Hs as <-. lia.
Qed.

Lemma R_last :
  exists a, arrayAt R (arrayLength R - 1) = Some a /\ RenamingMap.lastId this = Some a.
Proof.
  pose proof total_pos as Ht. rewrite R_length.
  destruct (R_locate (total ivs - 1) ltac:(lia)) as (j & i & s & Hj & Hs & Hr & Hne & Hid).
  destruct (sums_lookup ivs 0 j i wf_valid Hj) as (s' & Hs' & _ & Hup & _).
  assert (s' = s) by congruence. subst s'.
  assert (S j = List.length ivs).
  { pose proof (lookup_lt_Some _ _ _ Hj) as Hlt.
    destruct (Nat.eq_dec (S j) (List.length ivs)) as [|Hne']; trivial. exfalso.
    destruct (lookup_lt_is_Some_2 ivs (S j)) as [i1 Hi1]; [lia|].
    destruct (sums_lookup ivs 0 (S j) i1 wf_valid Hi1) as (s1 & Hs1 & _ & Hup1 & _).
    pose proof (sums_mono ivs 0 j (S j) i s s1 wf_valid ltac:(lia) Hj Hs Hs1).
    pose proof wf_valid as Hv. rewrite forallb_forall in Hv.
    specialize (Hv i1). rewrite validInterval_spec in Hv.
    destruct Hv as [_ Hv]; [apply list_elem_of_In; eapply list_elem_of_lookup_2; eauto|].
    lia. }
  eexists. split; [exact Hid|].
  unfold RenamingMap.lastId. rewrite this_intervals. unfold arrayLength.
  replace (Z.of_nat (List.length ivs) - 1) with (Z.of_nat j) by lia.
  rewrite arrayAt_nat, Hj. simpl.
  unfold IdentifierInterval.idEnd. do 2 f_equal.
  unfold IdentifierInterval.length in *. lia.
Qed.

Lemma this_newRandom :
  exists a x, arrayAt R 0 = Some a /\ Identifier.tupleAt a 0 = Some x
    /\ RenamingMap.newRandom this = Some (IdentifierTuple.random x).
Proof.
  destruct R_first as (a & Ha & Hfirst).
  pose proof (R_nonempty 0 a Ha) as Hne.
  destruct a as [|x a]; [congruence|].
  exists (x :: a), x. repeat split; trivial.
  unfold RenamingMap.newRandom. rewrite Hfirst. reflexivity.
Qed.

(** *** The scan of [renameIds] *)

Lemma advance_spec id : forall fuel ci,
  -1 <= ci <= arrayLength R - 1 ->
  (Z.to_nat (arrayLength R - 1 - ci) < fuel)%nat ->
  exists k,
    RenamingMap.advance this fuel id ci = Some k
    /\ ci <= k <= arrayLength R - 1
    /\ (forall i a, ci < i <= k -> arrayAt R i = Some a ->
          Identifier.compareTo id a <> Less)
    /\ (k < arrayLength R - 1 ->
        exists b, arrayAt R (k + 1) = Some b /\ Identifier.compareTo id b = Less).
Proof.
  intros fuel. induction fuel as [|fuel IH]; intros ci Hci Hfuel; [lia|].
  simpl. fold this. fold R.
  destruct (Z.ltb_spec ci (arrayLength R - 1)) as [Hlt|Hge].
  - destruct (arrayAt_lt R (ci + 1) ltac:(lia)) as [other Hother].
    rewrite Hother. simpl.
    destruct (Ord.geEqual (Identifier.compareTo id other)) eqn:Hcmp.
    + apply geEqual_spec in Hcmp.
      destruct (IH (ci + 1) ltac:(lia) ltac:(lia)) as (k & Hk & Hr & Hbelow & Habove).
      exists k. split; [exact Hk|]. split; [lia|]. split; [|exact Habove].
      intros i a Hi Ha. destruct (Z.eq_dec i (ci + 1)) as [->|Hne].
      * congruence.
      * apply (Hbelow i); trivial. lia.
    + exists ci. split; [reflexivity|]. split; [lia|]. split.
      * intros i a Hi. lia.
      * intros _. exists other. split; trivial.
        destruct (Identifier.compareTo id other); trivial; discriminate.
  - exists ci. split; [reflexivity|]. split; [lia|]. split.
    + intros i a Hi. lia.
    + intros Hlt. lia.
Qed.

Lemma renameId_unfold id :
  RenamingMap.renameId this id
  = (k ← RenamingMap.advance this (S (List.length R)) id (-1);
     RenamingMap.renameAt this id k).
Proof.
  change (RenamingMap.renameId this id)
    with (ids ← (k ← RenamingMap.advance this (S (List.length R)) id (-1);
                 renamed ← RenamingMap.renameAt this id k;
                 rest ← Some [];
                 Some (renamed :: rest));
          arrayAt ids 0).
  destruct (RenamingMap.advance this (S (List.length R)) id (-1)) as [k|];
    [|reflexivity].
  change (Some k ≫= ?f) with (f k). cbv beta.
  destruct (RenamingMap.renameAt this id k); reflexivity.
Qed.

(** The index the scan stops at, started from [-1]. *)
Lemma advance_start id :
  exists k,
    RenamingMap.advance this (S (List.length R)) id (-1) = Some k
    /\ -1 <= k <= arrayLength R - 1
    /\ (forall i a, 0 <= i <= k -> arrayAt R i = Some a ->
          Identifier.compareTo id a <> Less)
    /\ (k < arrayLength R - 1 ->
        exists b, arrayAt R (k + 1) = Some b /\ Identifier.compareTo id b = Less).
Proof.
  pose proof total_pos as Ht. pose proof R_length as Hn.
  destruct (advance_spec id (S (List.length R)) (-1))
    as (k & Hk & Hr & Hbelow & Habove).
  - lia.
  - unfold arrayLength. lia.
  - exists k. split; [exact Hk|]. split; [lia|]. split; [|exact Habove].
    intros i a Hi. apply Hbelow. lia.
Qed.

Lemma advance_renamed k id :
  arrayAt R k = Some id ->
  RenamingMap.advance this (S (List.length R)) id (-1) = Some k.
Proof.
  intros Hid. pose proof (arrayAt_bound _ _ _ Hid) as Hk.
  destruct (advance_start id) as (k' & Hadv & Hr & Hbelow & Habove).
  rewrite Hadv. f_equal.
  destruct (Z.lt_total k' k) as [Hlt|[Heq|Hgt]]; trivial; exfalso.
  - destruct (Habove ltac:(lia)) as (b & Hb & Hcmp).
    apply (R_sorted_le (k' + 1) k b id ltac:(lia) Hb Hid Hcmp).
  - destruct (arrayAt_lt R k' ltac:(lia)) as [a Ha].
    apply (Hbelow k' a ltac:(lia) Ha). apply (R_sorted k k'); trivial.
Qed.

Lemma advance_below_first id first :
  arrayAt R 0 = Some first -> Identifier.compareTo id first = Less ->
  RenamingMap.advance this (S (List.length R)) id (-1) = Some (-1).
Proof.
  intros Hfirst Hlt.
  destruct (advance_start id) as (k & Hadv & Hr & Hbelow & _).
  rewrite Hadv. f_equal.
  destruct (Z.eq_dec k (-1)) as [|Hne]; trivial. exfalso.
  apply (Hbelow 0 first ltac:(lia) Hfirst Hlt).
Qed.

Lemma advance_above_last id last :
  arrayAt R (arrayLength R - 1) = Some last ->
  Identifier.compareTo last id = Less ->
  RenamingMap.advance this (S (List.length R)) id (-1) = Some (arrayLength R - 1).
Proof.
  intros Hlast Hlt.
  destruct (advance_start id) as (k & Hadv & Hr & _ & Habove).
  rewrite Hadv. f_equal.
  destruct (Z.eq_dec k (arrayLength R - 1)) as [|Hne]; trivial. exfalso.
  destruct (Habove ltac:(lia)) as (b & Hb & Hcmp).
  apply (R_sorted_le (k + 1) (arrayLength R - 1) b last ltac:(lia) Hb Hlast).
  eapply id_lt_trans; eauto.
Qed.

(** An identifier of the renamed range that is not renamed lies between two
    successive renamed identifiers. *)
Lemma advance_between id first last :
  arrayAt R 0 = Some first -> arrayAt R (arrayLength R - 1) = Some last ->
  Identifier.compareTo id first <> Less -> Identifier.compareTo last id <> Less ->
  (forall k, arrayAt R k <> Some id) ->
  exists k pred succ,
    RenamingMap.advance this (S (List.length R)) id (-1) = Some k
    /\ 0 <= k < arrayLength R - 1
    /\ arrayAt R k = Some pred /\ arrayAt R (k + 1) = Some succ
    /\ Identifier.compareTo pred id = Less /\ Identifier.compareTo id succ = Less.
Proof.
  intros Hfirst Hlast Hge Hle Hnot.
  destruct (advance_start id) as (k & Hadv & Hr & Hbelow & Habove).
  assert (H0 : 0 <= k).
  { destruct (Z.eq_dec k (-1)) as [->|]; [|lia]. exfalso.
    pose proof total_pos. pose proof R_length.
    destruct (Habove ltac:(lia)) as (b & Hb & Hcmp).
    change (-1 + 1) with 0 in Hb. assert (b = first) by congruence.
    subst. contradiction. }
  destruct (arrayAt_lt R k ltac:(lia)) as [pred Hpred].
  assert (Hpl : Identifier.compareTo pred id = Less).
  { destruct (id_total pred id) as [H|[H|H]]; trivial.
    - subst. destruct (Hnot k Hpred).
    - destruct (Hbelow k pred ltac:(lia) Hpred H). }
  assert (Hk : k < arrayLength R - 1).
  { destruct (Z.eq_dec k (arrayLength R - 1)) as [->|]; [|lia]. exfalso.
    assert (pred = last) by congruence. subst. contradiction. }
  destruct (Habove Hk) as (succ & Hsucc & Hsl).
  exists k, pred, succ. repeat split; trivial; lia.
Qed.

(** *** Renamed identifiers *)

Lemma renameAt_renamed k id :
  arrayAt R k = Some id ->
  exists first x,
    arrayAt R 0 = Some first /\ Identifier.tupleAt first 0 = Some x
    /\ RenamingMap.renameAt this id k
       = Some [IdentifierTuple.mk (IdentifierTuple.random x) replicaNumber clock k].
Proof.
  intros Hid. pose proof (arrayAt_bound _ _ _ Hid) as Hk.
  destruct this_newRandom as (first & x & Hfirst & Hx & Hnr).
  exists first, x. repeat split; trivial.
  unfold RenamingMap.renameAt. fold this. fold R.
  destruct (Z.eqb_spec k (-1)); [lia|].
  destruct (Z.ltb_spec k (arrayLength R)); [|lia].
  rewrite Hid. simpl. rewrite id_compareTo_refl, bool_decide_eq_true_2 by reflexivity.
  unfold RenamingMap.renameIdFromIndex. rewrite Hnr. simpl.
  now rewrite this_replicaNumber, this_clock.
Qed.

Lemma renameId_renamed_eq k id nr :
  RenamingMap.newRandom this = Some nr ->
  arrayAt R k = Some id ->
  RenamingMap.renameId this id
  = Some [IdentifierTuple.mk nr replicaNumber clock k].
Proof.
  intros Hnr Hid. rewrite renameId_unfold, (advance_renamed k id Hid). simpl.
  destruct (renameAt_renamed k id Hid) as (first & x & Hfirst & Hx & Hren).
  destruct this_newRandom as (first' & x' & Hfirst' & Hx' & Hnr').
  assert (first' = first) by congruence. subst.
  assert (x' = x) by congruence. subst.
  rewrite Hren. congruence.
Qed.

Lemma R_dense k : 0 <= k <= RenamingMap.maxOffset this <-> is_Some (arrayAt R k).
Proof.
  rewrite this_maxOffset, <- R_length. split.
  - intros Hk. destruct (arrayAt_lt R k ltac:(lia)) as [a Ha]. now exists a.
  - intros [a Ha]. apply arrayAt_bound in Ha. lia.
Qed.

Lemma renameIdFromIndex_eq k nr :
  RenamingMap.newRandom this = Some nr ->
  RenamingMap.renameIdFromIndex this k
  = Some [IdentifierTuple.mk nr replicaNumber clock k].
Proof.
  intros Hnr. unfold RenamingMap.renameIdFromIndex. rewrite Hnr. simpl.
  now rewrite this_replicaNumber, this_clock.
Qed.

(** *** Identifiers of the new space *)

Lemma marked_inv p x id tail :
  tail <> [] -> id = p ++ x :: tail ->
  (Identifier.length p + 1 <? Identifier.length id) = true
  /\ Identifier.isPrefix p id = true
  /\ Identifier.tupleAt id (Identifier.length p) = Some x
  /\ Identifier.getTail id (Identifier.length p + 1) = tail.
Proof.
  intros Hne ->. unfold Identifier.length, Identifier.tupleAt, Identifier.getTail, arrayLength.
  split; [|split; [|split]].
  - apply Z.ltb_lt. rewrite length_app. simpl. destruct tail; [congruence|]. simpl. lia.
  - apply isPrefix_spec. eauto.
  - rewrite arrayAt_nat. rewrite lookup_app_r by lia.
    now replace (List.length p - List.length p)%nat with 0%nat by lia.
  - replace (Z.to_nat (Z.of_nat (List.length p) + 1)) with (List.length p + 1)%nat by lia.
    rewrite drop_app_add'; trivial.
Qed.

Lemma marked_intro p x y id :
  (Identifier.length p + 1 <? Identifier.length id) = true ->
  Identifier.isPrefix p id = true ->
  Identifier.tupleAt id (Identifier.length p) = Some y ->
  IdentifierTuple.compareTo y x = Equal ->
  marked p x id.
Proof.
  intros Hlen Hpre Hy Hx. apply tuple_Equal in Hx. subst y.
  apply isPrefix_spec in Hpre as [c ->].
  unfold Identifier.length, Identifier.tupleAt, arrayLength in *.
  apply Z.ltb_lt in Hlen. rewrite length_app in Hlen.
  rewrite arrayAt_nat in Hy. rewrite lookup_app_r in Hy by lia.
  replace (List.length p - List.length p)%nat with 0%nat in Hy by lia.
  destruct c as [|y c]; [discriminate|]. injection Hy as ->.
  exists c. split; trivial. intros ->. simpl in Hlen. lia.
Qed.

Lemma marked_tail p x id tail :
  tail <> [] -> id = p ++ x :: tail ->
  Identifier.getTail id (Identifier.length p + 1) = tail.
Proof. intros H1 H2. now destruct (marked_inv p x id tail H1 H2) as (_ & _ & _ & ?). Qed.

Lemma markedb_spec p x id : markedb p x id = true <-> marked p x id.
Proof.
  unfold markedb. split.
  - rewrite !andb_true_iff. intros [[Hlen Hpre] Hx].
    destruct (Identifier.tupleAt id (Identifier.length p)) as [y|] eqn:Hy; [|discriminate].
    apply bool_decide_eq_true in Hx. subst y.
    eapply marked_intro; eauto. apply tuple_compareTo_refl.
  - intros (tail & Hne & Hid).
    destruct (marked_inv _ _ _ _ Hne Hid) as (-> & -> & -> & _).
    simpl. now apply bool_decide_eq_true_2.
Qed.

(** The guard shared by the special cases of the renaming. *)
Lemma marked_guard p x id :
  (if (Identifier.length p + 1 <? Identifier.length id) && Identifier.isPrefix p id
   then tuple ← Identifier.tupleAt id (Identifier.length p);
        Some (bool_decide (IdentifierTuple.compareTo tuple x = Equal))
   else Some false)
  = Some (markedb p x id).
Proof.
  unfold markedb.
  destruct (Identifier.length p + 1 <? Identifier.length id) eqn:Hlen; simpl; trivial.
  destruct (Identifier.isPrefix p id) eqn:Hpre; trivial.
  destruct (Identifier.tupleAt id (Identifier.length p)) as [y|] eqn:Hy.
  - simpl. f_equal. apply bool_decide_ext. apply tuple_Equal.
  - exfalso. apply isPrefix_spec in Hpre as [c ->].
    unfold Identifier.length, Identifier.tupleAt, arrayLength in *.
    apply Z.ltb_lt in Hlen. rewrite length_app in Hlen.
    rewrite arrayAt_nat in Hy. apply lookup_ge_None in Hy.
    rewrite length_app in Hy. lia.
Qed.

Lemma marked_guard2 p x id (c : bool) n :
  n = Identifier.length p ->
  (if n + 1 <? Identifier.length id
   then if Identifier.isPrefix p id
        then tuple ← Identifier.tupleAt id n;
             Some (bool_decide (IdentifierTuple.compareTo tuple x = Equal) && c)
        else Some false
   else Some false)
  = Some (markedb p x id && c).
Proof.
  intros ->. pose proof (marked_guard p x id) as G. unfold markedb in *.
  destruct (Identifier.length p + 1 <? Identifier.length id); simpl in *; trivial.
  destruct (Identifier.isPrefix p id); simpl in *; trivial.
  destruct (Identifier.tupleAt id (Identifier.length p)); simpl in *; [|discriminate].
  injection G as ->. reflexivity.
Qed.

Lemma minForm_spec pred id :
  markedb pred IdFactory.MIN_TUPLE id
  && bool_decide (Identifier.compareTo
                    (Identifier.getTail id (Identifier.length pred + 1)) pred = Less)
  = true <-> minForm pred id.
Proof.
  unfold minForm. now rewrite andb_true_iff, markedb_spec, bool_decide_eq_true.
Qed.

Lemma maxForm_spec succ id :
  markedb (closestPredecessor succ) IdFactory.MAX_TUPLE id
  && bool_decide (Identifier.compareTo succ
                    (Identifier.getTail id (Identifier.length succ + 1)) = Less)
  = true <-> maxForm succ id.
Proof.
  unfold maxForm. now rewrite andb_true_iff, markedb_spec, bool_decide_eq_true.
Qed.

(** The getters of the map. *)
Lemma this_getters :
  exists first last x,
    arrayAt R 0 = Some first
    /\ arrayAt R (arrayLength R - 1) = Some last
    /\ Identifier.tupleAt first 0 = Some x
    /\ RenamingMap.firstId this = Some first
    /\ RenamingMap.lastId this = Some last
    /\ RenamingMap.newRandom this = Some (IdentifierTuple.random x)
    /\ RenamingMap.newFirstId this
       = Some [IdentifierTuple.mk (IdentifierTuple.random x) replicaNumber clock 0]
    /\ RenamingMap.newLastId this
       = Some [IdentifierTuple.mk (IdentifierTuple.random x) replicaNumber clock
                 (RenamingMap.maxOffset this)].
Proof.
  destruct this_newRandom as (first & x & Hfirst & Hx & Hnr).
  destruct R_first as (first' & Hfirst' & Hf).
  destruct R_last as (last & Hlast & Hl).
  assert (first' = first) by congruence. subst first'.
  exists first, last, x. repeat split; trivial.
  - unfold RenamingMap.newFirstId. rewrite Hnr. simpl.
    now rewrite this_replicaNumber, this_clock.
  - unfold RenamingMap.newLastId. rewrite Hnr. simpl.
    now rewrite this_replicaNumber, this_clock.
Qed.

(** *** The three ways an identifier is renamed *)

Lemma renameIdLessThanFirstId_eq id first nr :
  RenamingMap.firstId this = Some first ->
  RenamingMap.newRandom this = Some nr ->
  RenamingMap.renameIdLessThanFirstId this id
  = Some (if markedb (closestPredecessor first) IdFactory.MAX_TUPLE id
          then [IdentifierTuple.mk nr replicaNumber clock (-1)]
               ++ Identifier.getTail id (Identifier.length (closestPredecessor first) + 1)
          else if bool_decide (Identifier.compareTo id
                     [IdentifierTuple.mk nr replicaNumber clock 0] = Less)
          then id
          else [IdentifierTuple.mk nr replicaNumber clock (-1)] ++ id).
Proof.
  intros Hf Hnr. unfold RenamingMap.renameIdLessThanFirstId, RenamingMap.newFirstId.
  rewrite Hf, Hnr. simpl. rewrite this_replicaNumber, this_clock.
  fold (closestPredecessor first). rewrite marked_guard. simpl.
  destruct (markedb (closestPredecessor first) IdFactory.MAX_TUPLE id); trivial.
  repeat case_bool_decide; trivial; contradiction.
Qed.

Lemma renameIdGreaterThanLastId_eq id last nr :
  RenamingMap.lastId this = Some last ->
  RenamingMap.newRandom this = Some nr ->
  RenamingMap.renameIdGreaterThanLastId this id
  = Some (if bool_decide (Identifier.compareTo
                  [IdentifierTuple.mk nr replicaNumber clock (RenamingMap.maxOffset this)]
                  last = Less)
             && markedb last IdFactory.MIN_TUPLE id
          then Identifier.getTail id (Identifier.length last + 1)
          else if bool_decide (Identifier.compareTo
                     [IdentifierTuple.mk nr replicaNumber clock (RenamingMap.maxOffset this)]
                     id = Less)
          then id
          else [IdentifierTuple.mk nr replicaNumber clock (RenamingMap.maxOffset this)]
               ++ id).
Proof.
  intros Hl Hnr. unfold RenamingMap.renameIdGreaterThanLastId, RenamingMap.newLastId.
  rewrite Hl, Hnr. simpl. rewrite this_replicaNumber, this_clock.
  match goal with
  | |- context [bool_decide (Identifier.compareTo ?a last = Less)] =>
      destruct (decide (Identifier.compareTo a last = Less)) as [Hc|Hc]
  end.
  - rewrite !(bool_decide_eq_true_2 _ Hc). simpl. rewrite marked_guard. simpl.
    destruct (markedb last IdFactory.MIN_TUPLE id); trivial.
    repeat case_bool_decide; trivial; contradiction.
  - rewrite !(bool_decide_eq_false_2 _ Hc). simpl.
    repeat case_bool_decide; trivial; contradiction.
Qed.

Lemma renameIdFromPredecessorId_eq id pred succ k nr :
  RenamingMap.newRandom this = Some nr ->
  arrayAt R (k + 1) = Some succ ->
  RenamingMap.renameIdFromPredecessorId this id pred k
  = Some ([IdentifierTuple.mk nr replicaNumber clock k]
          ++ (if markedb pred IdFactory.MIN_TUPLE id
                 && bool_decide (Identifier.compareTo
                      (Identifier.getTail id (Identifier.length pred + 1)) pred = Less)
              then Identifier.getTail id (Identifier.length pred + 1)
              else if markedb (closestPredecessor succ) IdFactory.MAX_TUPLE id
                      && bool_decide (Identifier.compareTo succ
                           (Identifier.getTail id (Identifier.length succ + 1)) = Less)
              then Identifier.getTail id (Identifier.length succ + 1)
              else id)).
Proof.
  intros Hnr Hsucc. pose proof (arrayAt_bound _ _ _ Hsucc) as Hb. rewrite R_length in Hb.
  unfold RenamingMap.renameIdFromPredecessorId. rewrite Hnr. simpl.
  rewrite this_replicaNumber, this_clock.
  rewrite (marked_guard2 pred IdFactory.MIN_TUPLE id _ _ eq_refl). simpl.
  destruct (markedb pred IdFactory.MIN_TUPLE id && _); trivial.
  rewrite (findIdFromIndex_eq (k + 1) Hb). fold R. rewrite Hsucc. simpl.
  fold (closestPredecessor succ).
  rewrite (marked_guard2 (closestPredecessor succ) IdFactory.MAX_TUPLE id).
  - simpl. destruct (markedb _ IdFactory.MAX_TUPLE id && _); reflexivity.
  - unfold closestPredecessor, Identifier.length, arrayLength.
    now rewrite fromBase_length.
Qed.

(** *** Comparisons in the new space *)

Lemma fromBase_single x o :
  Identifier.fromBase [x] o = [IdentifierTuple.fromBase x o].
Proof. reflexivity. Qed.

Lemma new_lt_head nr a b X Y :
  a < b ->
  Identifier.compareTo (IdentifierTuple.mk nr replicaNumber clock a :: X)
                       (IdentifierTuple.mk nr replicaNumber clock b :: Y) = Less.
Proof. intros H. apply id_lt_cons. unfold tuple_lt. lia. Qed.

Lemma new_lt_ext nr a X :
  X <> [] ->
  Identifier.compareTo [IdentifierTuple.mk nr replicaNumber clock a]
                       (IdentifierTuple.mk nr replicaNumber clock a :: X) = Less.
Proof. intros H. apply (id_lt_app_r [_] X H). Qed.

Lemma equalsBase_single id y :
  Identifier.equalsBase id [y] = true ->
  id = [IdentifierTuple.fromBase y (Identifier.lastOffset id)].
Proof.
  destruct id as [|x [|x' id]]; try discriminate.
  unfold Identifier.equalsBase, IdentifierTuple.equalsBase.
  rewrite !andb_true_iff, !Z.eqb_eq.
  intros [[H1 H2] H3]. destruct x, y; simpl in *. subst.
  reflexivity.
Qed.

Lemma equalsBase_long x y X z :
  Identifier.equalsBase (x :: y :: X) [z] = false.
Proof. reflexivity. Qed.

Lemma equalsBase_new nr a b :
  Identifier.equalsBase [IdentifierTuple.mk nr replicaNumber clock a]
                        [IdentifierTuple.mk nr replicaNumber clock b] = true.
Proof.
  unfold Identifier.equalsBase, IdentifierTuple.equalsBase. simpl.
  now rewrite !Z.eqb_refl.
Qed.

(** *** [reverseRenameId] *)

Lemma reverseRenameId_renamed k id nr :
  RenamingMap.newRandom this = Some nr ->
  arrayAt R k = Some id ->
  RenamingMap.reverseRenameId this [IdentifierTuple.mk nr replicaNumber clock k]
  = Some id.
Proof.
  intros Hnr Hid. pose proof (arrayAt_bound _ _ _ Hid) as Hk.
  unfold RenamingMap.reverseRenameId, RenamingMap.hasBeenRenamed, RenamingMap.newFirstId.
  rewrite Hnr. simpl. unfold IdFactory.createAtPosition.
  rewrite this_replicaNumber, this_clock, equalsBase_new.
  unfold Identifier.lastOffset. simpl.
  rewrite R_length_max in Hk.
  destruct (Z.leb_spec 0 k); [|lia].
  destruct (Z.leb_spec k (RenamingMap.maxOffset this)); [|lia]. simpl.
  rewrite findIdFromIndex_eq; [exact Hid|]. rewrite this_maxOffset in *. lia.
Qed.

(** An identifier that extends the renaming of [pred], the renamed
    identifier of new offset [k]. *)
Lemma reverseRenameId_inside k X pred succ nr :
  RenamingMap.newRandom this = Some nr ->
  X <> [] ->
  arrayAt R k = Some pred -> arrayAt R (k + 1) = Some succ ->
  RenamingMap.reverseRenameId this (IdentifierTuple.mk nr replicaNumber clock k :: X)
  = Some (if bool_decide (Identifier.compareTo X pred = Less)
          then pred ++ [IdFactory.MIN_TUPLE] ++ X
          else if bool_decide (Identifier.compareTo succ X = Less)
          then closestPredecessor succ ++ [IdFactory.MAX_TUPLE] ++ X
          else X).
Proof.
  intros Hnr HX Hpred Hsucc.
  pose proof (arrayAt_bound _ _ _ Hpred) as Hk.
  pose proof (arrayAt_bound _ _ _ Hsucc) as Hk1.
  rewrite R_length_max in Hk, Hk1.
  destruct this_getters as (first & last & x & Hfirst & Hlast & Hx & Hf & Hl & Hnr'
                            & Hnf & Hnl).
  assert (nr = IdentifierTuple.random x) by congruence. subst nr.
  set (nr := IdentifierTuple.random x) in *.
  set (r := IdentifierTuple.mk nr replicaNumber clock k :: X).
  unfold RenamingMap.reverseRenameId, RenamingMap.hasBeenRenamed.
  rewrite Hnf, Hf, Hl, Hnl, Hnr. simpl.
  assert (Heb : Identifier.equalsBase r [IdentifierTuple.mk nr replicaNumber clock 0] = false).
  { unfold r. destruct X; [congruence|]. apply equalsBase_long. }
  rewrite Heb. simpl.
  rewrite !fromBase_single. unfold Identifier.lastOffset, IdentifierTuple.fromBase. simpl.
  (* [r] is above the predecessor of the new first identifier *)
  assert (Hlow : Identifier.compareTo
                   [IdentifierTuple.mk nr replicaNumber clock (0 - 1)] r = Less).
  { apply new_lt_head. lia. }
  (* and below the new last identifier *)
  assert (Hup : Identifier.compareTo r
                  [IdentifierTuple.mk nr replicaNumber clock (RenamingMap.maxOffset this)]
                = Less).
  { apply new_lt_head. lia. }
  assert (Hup' : Identifier.compareTo r
                   [IdentifierTuple.mk nr replicaNumber clock (RenamingMap.maxOffset this + 1)]
                 = Less).
  { apply new_lt_head. lia. }
  assert (Hnf' : Identifier.compareTo r [IdentifierTuple.mk nr replicaNumber clock 0] <> Less).
  { destruct (Z.eq_dec k 0) as [->|].
    - apply id_lt_asym. now apply new_lt_ext.
    - apply id_lt_asym. apply new_lt_head. lia. }
  assert (Hmin : forall m, m = first \/ m = [IdentifierTuple.mk nr replicaNumber clock (0 - 1)] ->
            Identifier.compareTo first [IdentifierTuple.mk nr replicaNumber clock (0 - 1)] = Less
            \/ m = [IdentifierTuple.mk nr replicaNumber clock (0 - 1)] ->
            Identifier.compareTo r m <> Less).
  { intros m [->| ->] [H|H]; subst; try (now apply id_lt_asym).
    apply id_lt_asym. eapply id_lt_trans; eauto. }
  assert (E1 : bool_decide (Identifier.compareTo r
                 (if bool_decide (Identifier.compareTo first
                        [IdentifierTuple.mk nr replicaNumber clock (0 - 1)] = Less)
                  then first
                  else [IdentifierTuple.mk nr replicaNumber clock (0 - 1)]) = Less) = false).
  { destruct (decide (Identifier.compareTo first
                 [IdentifierTuple.mk nr replicaNumber clock (0 - 1)] = Less)) as [Hg|Hg].
    - rewrite (bool_decide_eq_true_2 _ Hg). apply bool_decide_eq_false_2.
      apply Hmin; auto.
    - rewrite (bool_decide_eq_false_2 _ Hg). apply bool_decide_eq_false_2.
      apply Hmin; auto. }
  assert (E2 : bool_decide (Identifier.compareTo
                 (if bool_decide (Identifier.compareTo last
                        [IdentifierTuple.mk nr replicaNumber clock (RenamingMap.maxOffset this)]
                      = Greater)
                  then last
                  else [IdentifierTuple.mk nr replicaNumber clock
                          (RenamingMap.maxOffset this + 1)]) r = Less) = false).
  { destruct (decide (Identifier.compareTo last
                 [IdentifierTuple.mk nr replicaNumber clock (RenamingMap.maxOffset this)]
               = Greater)) as [Hg|Hg].
    - rewrite (bool_decide_eq_true_2 _ Hg). apply bool_decide_eq_false_2.
      apply id_Greater in Hg. intros Hlr.
      apply (id_lt_irrefl r). eapply id_lt_trans; [exact Hup|].
      eapply id_lt_trans; eauto.
    - rewrite (bool_decide_eq_false_2 _ Hg). apply bool_decide_eq_false_2.
      now apply id_lt_asym. }
  rewrite E1, E2. simpl.
  rewrite (bool_decide_eq_false_2 _ Hnf').
  assert (E3 : bool_decide (Identifier.compareTo
                  [IdentifierTuple.mk nr replicaNumber clock (RenamingMap.maxOffset this)] r
                = Less) = false).
  { apply bool_decide_eq_false_2. now apply id_lt_asym. }
  rewrite E3, andb_false_r. simpl.
  rewrite (findPredecessorAndSuccessorFromIndex_eq k pred succ Hpred Hsucc). simpl.
  unfold Identifier.getTail. simpl drop.
  fold (closestPredecessor succ).
  repeat case_bool_decide; trivial; contradiction.
Qed.

Lemma renameId_below_first id first :
  arrayAt R 0 = Some first -> Identifier.compareTo id first = Less ->
  RenamingMap.renameId this id = RenamingMap.renameIdLessThanFirstId this id.
Proof.
  intros Hfirst Hlt.
  now rewrite renameId_unfold, (advance_below_first id first Hfirst Hlt).
Qed.

Lemma renameId_above_last id last :
  arrayAt R (arrayLength R - 1) = Some last -> Identifier.compareTo last id = Less ->
  RenamingMap.renameId this id = RenamingMap.renameIdGreaterThanLastId this id.
Proof.
  intros Hlast Hlt.
  rewrite renameId_unfold, (advance_above_last id last Hlast Hlt). simpl.
  pose proof total_pos. pose proof R_length.
  unfold RenamingMap.renameAt. fold this. fold R.
  destruct (Z.eqb_spec (arrayLength R - 1) (-1)); [lia|].
  destruct (Z.ltb_spec (arrayLength R - 1) (arrayLength R)); [|lia].
  rewrite Hlast. simpl.
  rewrite bool_decide_eq_false_2.
  - now rewrite Z.eqb_refl.
  - intros E. apply id_Equal in E. subst. now apply id_lt_irrefl in Hlt.
Qed.

Lemma renameId_between_eq id pred succ k :
  arrayAt R k = Some pred -> arrayAt R (k + 1) = Some succ ->
  Identifier.compareTo pred id = Less -> Identifier.compareTo id succ = Less ->
  RenamingMap.renameId this id = RenamingMap.renameIdFromPredecessorId this id pred k.
Proof.
  intros Hpred Hsucc Hpl Hsl.
  pose proof (arrayAt_bound _ _ _ Hpred) as Hk.
  pose proof (arrayAt_bound _ _ _ Hsucc) as Hk1.
  destruct (advance_start id) as (k' & Hadv & Hr & Hbelow & Habove).
  assert (k' = k).
  { destruct (Z.lt_total k' k) as [Hlt|[Heq|Hgt]]; trivial; exfalso.
    - destruct (Habove ltac:(lia)) as (b & Hb & Hcmp).
      apply (R_sorted_le (k' + 1) k b pred ltac:(lia) Hb Hpred).
      eapply id_lt_trans; eauto.
    - destruct (arrayAt_lt R k' ltac:(lia)) as [a Ha].
      apply (Hbelow k' a ltac:(lia) Ha).
      destruct (Z.eq_dec k' (k + 1)) as [->|].
      + congruence.
      + eapply id_lt_trans; [exact Hsl|]. apply (R_sorted (k + 1) k'); trivial. lia. }
  subst k'. rewrite renameId_unfold, Hadv. simpl.
  unfold RenamingMap.renameAt. fold this. fold R.
  destruct (Z.eqb_spec k (-1)); [lia|].
  destruct (Z.ltb_spec k (arrayLength R)); [|lia].
  rewrite Hpred. simpl.
  rewrite bool_decide_eq_false_2.
  - destruct (Z.eqb_spec k (arrayLength R - 1)); [lia|]. reflexivity.
  - intros E. apply id_Equal in E. subst. now apply id_lt_irrefl in Hpl.
Qed.

(** C5.  In a map built from valid intervals that list the renamed
    identifiers in increasing order, an identifier of the renamed range that
    is not renamed has a predecessor, the greatest renamed identifier below it,
    and a successor, the next renamed identifier.  It is renamed to the
    renaming of the predecessor concatenated with the identifier itself,
    unless it is [predecessorId . MIN_TUPLE . tail] with
    [tail < predecessorId], or
    [closestPredecessor(successorId) . MAX_TUPLE . tail] with
    [successorId < tail]: in these two cases the renaming of the
    predecessor is concatenated with [tail] only. *)
Theorem renameId_concurrent id first last :
  arrayAt R 0 = Some first -> arrayAt R (arrayLength R - 1) = Some last ->
  Identifier.compareTo first id = Less -> Identifier.compareTo id last = Less ->
  id ∉ R ->
  exists k predecessorId successorId newPredecessorId,
    arrayAt R k = Some predecessorId /\ arrayAt R (k + 1) = Some successorId
    /\ Identifier.compareTo predecessorId id = Less
    /\ Identifier.compareTo id successorId = Less
    /\ RenamingMap.renameId this predecessorId = Some newPredecessorId
    /\ (minForm predecessorId id ->
        RenamingMap.renameId this id
        = Some (Identifier.concat newPredecessorId
                  (Identifier.getTail id (Identifier.length predecessorId + 1))))
    /\ (~ minForm predecessorId id -> maxForm successorId id ->
        RenamingMap.renameId this id
        = Some (Identifier.concat newPredecessorId
                  (Identifier.getTail id (Identifier.length successorId + 1))))
    /\ (~ minForm predecessorId id -> ~ maxForm successorId id ->
        RenamingMap.renameId this id = Some (Identifier.concat newPredecessorId id)).
Proof.
  intros Hfirst Hlast Hf Hl Hnin.
  assert (Hnot : forall k, arrayAt R k <> Some id).
  { intros k Hk. apply arrayAt_Some in Hk as [_ Hk]. apply Hnin.
    eapply list_elem_of_lookup_2; eauto. }
  destruct (advance_between id first last Hfirst Hlast
              (id_lt_asym _ _ Hf) (id_lt_asym _ _ Hl) Hnot)
    as (k & pred & succ & _ & Hk & Hpred & Hsucc & Hpl & Hsl).
  destruct this_newRandom as (first' & x & _ & _ & Hnr).
  exists k, pred, succ, [IdentifierTuple.mk (IdentifierTuple.random x) replicaNumber clock k].
  split; [exact Hpred|]. split; [exact Hsucc|]. split; [exact Hpl|]. split; [exact Hsl|].
  split; [exact (renameId_renamed_eq k pred _ Hnr Hpred)|].
  rewrite (renameId_between_eq id pred succ k Hpred Hsucc Hpl Hsl).
  rewrite (renameIdFromPredecessorId_eq id pred succ k _ Hnr Hsucc).
  pose proof (minForm_spec pred id) as Hmin. pose proof (maxForm_spec succ id) as Hmax.
  destruct (markedb pred IdFactory.MIN_TUPLE id && _).
  - split; [reflexivity|]. split; intros H; exfalso; apply H, Hmin; reflexivity.
  - destruct (markedb (closestPredecessor succ) IdFactory.MAX_TUPLE id && _).
    + split; [intros H; apply Hmin in H; discriminate|].
      split; [reflexivity|].
      intros _ H. exfalso. apply H, Hmax. reflexivity.
    + split; [intros H; apply Hmin in H; discriminate|].
      split; [intros _ H; apply Hmax in H; discriminate|]. reflexivity.
Qed.


Lemma closestPredecessor_single r p c o :
  closestPredecessor [IdentifierTuple.mk r p c o] = [IdentifierTuple.mk r p c (o - 1)].
Proof. reflexivity. Qed.

Lemma closestSuccessor_single r p c o :
  closestSuccessor [IdentifierTuple.mk r p c o] = [IdentifierTuple.mk r p c (o + 1)].
Proof. reflexivity. Qed.

Lemma reverseRenameId_outside id first last nr :
  RenamingMap.firstId this = Some first ->
  RenamingMap.lastId this = Some last ->
  RenamingMap.newRandom this = Some nr ->
  let newFirst := [IdentifierTuple.mk nr replicaNumber clock 0] in
  let newLast := [IdentifierTuple.mk nr replicaNumber clock (RenamingMap.maxOffset this)] in
  Identifier.compareTo id (minFirstId first newFirst) = Less
  \/ Identifier.compareTo (maxLastId last newLast) id = Less ->
  RenamingMap.reverseRenameId this id = Some id.
Proof.
  intros Hf Hl Hnr newFirst newLast Hout.
  pose proof total_pos as Ht. pose proof this_maxOffset as Hmax.
  unfold RenamingMap.reverseRenameId, RenamingMap.hasBeenRenamed,
    RenamingMap.newFirstId, RenamingMap.newLastId.
  rewrite Hnr, Hf, Hl. simpl. unfold IdFactory.createAtPosition.
  rewrite this_replicaNumber, this_clock.
  fold newFirst. fold newLast.
  fold (closestPredecessor newFirst). fold (closestSuccessor newLast).
  fold (minFirstId first newFirst). fold (maxLastId last newLast).
  assert (Hnot : Identifier.equalsBase id newFirst
                 && (0 <=? Identifier.lastOffset id)
                 && (Identifier.lastOffset id <=? RenamingMap.maxOffset this) = false).
  { apply not_true_is_false. rewrite !andb_true_iff, !Z.leb_le.
    intros [[Heb H0] Hm]. apply equalsBase_single in Heb.
    unfold IdentifierTuple.fromBase in Heb. simpl in Heb.
    set (o := Identifier.lastOffset id) in *.
    unfold minFirstId, maxLastId, newFirst, newLast in *.
    rewrite ?closestPredecessor_single, ?closestSuccessor_single in *.
    destruct Hout as [Hout|Hout].
    - assert (Hc : Identifier.compareTo
                     [IdentifierTuple.mk nr replicaNumber clock (0 - 1)] id = Less).
      { rewrite Heb. apply new_lt_head. lia. }
      case_bool_decide as Hm'.
      + apply (id_lt_irrefl id). eapply id_lt_trans; [exact Hout|].
        eapply id_lt_trans; eauto.
      + apply (id_lt_asym _ _ Hc Hout).
    - case_bool_decide as Hm'.
      + apply id_Greater in Hm'.
        assert (Hc : Identifier.compareTo
                       [IdentifierTuple.mk nr replicaNumber clock (RenamingMap.maxOffset this)]
                       id <> Less).
        { rewrite Heb. destruct (Z.eq_dec o (RenamingMap.maxOffset this)) as [->|].
          - apply id_lt_irrefl.
          - apply id_lt_asym. apply new_lt_head. lia. }
        apply Hc. eapply id_lt_trans; eauto.
      + assert (Hc : Identifier.compareTo id
                       [IdentifierTuple.mk nr replicaNumber clock
                          (RenamingMap.maxOffset this + 1)] = Less).
        { rewrite Heb. apply new_lt_head. lia. }
        apply (id_lt_asym _ _ Hc Hout). }
  rewrite Hnot.
  destruct Hout as [Hout|Hout].
  - now rewrite (bool_decide_eq_true_2 _ Hout).
  - now rewrite (bool_decide_eq_true_2 _ Hout), orb_true_r.
Qed.

Lemma renameId_below_first_fixed id first nr :
  arrayAt R 0 = Some first ->
  RenamingMap.firstId this = Some first ->
  RenamingMap.newRandom this = Some nr ->
  Identifier.compareTo id first = Less ->
  exists renamed,
    RenamingMap.renameId this id = Some renamed
    /\ (renamed = id <->
        ~ marked (closestPredecessor first) IdFactory.MAX_TUPLE id
        /\ Identifier.compareTo id [IdentifierTuple.mk nr replicaNumber clock 0] = Less).
Proof.
  intros Hfirst Hf Hnr Hlt.
  rewrite (renameId_below_first id first Hfirst Hlt).
  rewrite (renameIdLessThanFirstId_eq id first _ Hf Hnr).
  eexists. split; [reflexivity|].
  pose proof (markedb_spec (closestPredecessor first) IdFactory.MAX_TUPLE id) as Hm.
  destruct (markedb (closestPredecessor first) IdFactory.MAX_TUPLE id).
  - split.
    + intros E. exfalso.
      destruct (proj1 Hm eq_refl) as (tail & Hne & Hid).
      rewrite (marked_tail _ _ _ _ Hne Hid) in E. rewrite Hid in E.
      apply (f_equal (@List.length _)) in E.
      rewrite !length_app in E. simpl in E.
      unfold closestPredecessor in E. rewrite fromBase_length in E.
      pose proof (R_nonempty 0 first Hfirst). destruct first; [congruence|].
      simpl in E. lia.
    + intros [H _]. exfalso. apply H, Hm. reflexivity.
  - case_bool_decide as Hc.
    + split; [|reflexivity]. intros _. split; [|exact Hc].
      intros H. apply Hm in H. discriminate.
    + split; [|tauto]. intros E. exfalso. apply (f_equal (@List.length _)) in E.
      rewrite ?length_app in E. simpl in E. lia.
Qed.

Lemma renameId_above_last_fixed id last nr :
  arrayAt R (arrayLength R - 1) = Some last ->
  RenamingMap.lastId this = Some last ->
  RenamingMap.newRandom this = Some nr ->
  Identifier.compareTo last id = Less ->
  exists renamed,
    RenamingMap.renameId this id = Some renamed
    /\ (renamed = id <->
        ~ (Identifier.compareTo
             [IdentifierTuple.mk nr replicaNumber clock (RenamingMap.maxOffset this)]
             last = Less
           /\ marked last IdFactory.MIN_TUPLE id)
        /\ Identifier.compareTo
             [IdentifierTuple.mk nr replicaNumber clock (RenamingMap.maxOffset this)]
             id = Less).
Proof.
  intros Hlast Hl Hnr Hlt.
  rewrite (renameId_above_last id last Hlast Hlt).
  rewrite (renameIdGreaterThanLastId_eq id last _ Hl Hnr).
  eexists. split; [reflexivity|].
  pose proof (markedb_spec last IdFactory.MIN_TUPLE id) as Hm.
  case_bool_decide as Hnl'; simpl.
  - destruct (markedb last IdFactory.MIN_TUPLE id).
    + split.
      * intros E. exfalso.
        destruct (proj1 Hm eq_refl) as (tail & Hne & Hid).
        rewrite (marked_tail _ _ _ _ Hne Hid) in E. rewrite Hid in E.
        apply (f_equal (@List.length _)) in E.
        rewrite !length_app in E. simpl in E. lia.
      * intros [H _]. exfalso. apply H. split; [exact Hnl'|]. apply Hm. reflexivity.
    + case_bool_decide as Hc.
      * split; [|reflexivity]. intros _. split; [|exact Hc].
        intros [_ H]. apply Hm in H. discriminate.
      * split; [|tauto]. intros E. exfalso. apply (f_equal (@List.length _)) in E.
        rewrite ?length_app in E. simpl in E. lia.
  - case_bool_decide as Hc.
    + split; [|reflexivity]. intros _. split; [|exact Hc]. tauto.
    + split; [|tauto]. intros E. exfalso. apply (f_equal (@List.length _)) in E.
      rewrite ?length_app in E. simpl in E. lia.
Qed.


(** ** The extended renaming map *)

Lemma register_lookup3 st id key :
  lookup3 (ExtendedRenamingMap.b_map (ExtendedRenamingMap.register st id)) key
  = if bool_decide (keyOf id = key) then Some (ExtendedRenamingMap.b_newOffset st)
    else lookup3 (ExtendedRenamingMap.b_map st) key.
Proof.
  destruct key as [[r c] o]. unfold keyOf, ExtendedRenamingMap.register, lookup3.
  set (r0 := Identifier.replicaNumber id). set (c0 := Identifier.clock id).
  set (o0 := Identifier.lastOffset id). set (m := ExtendedRenamingMap.b_map st).
  set (n := ExtendedRenamingMap.b_newOffset st).
  cbn [ExtendedRenamingMap.b_map].
  destruct (m !! r0) as [cm|] eqn:Em.
  - rewrite Em. cbn [default from_option Datatypes.id].
    destruct (cm !! c0) as [om|] eqn:Ec.
    + rewrite Ec. cbn [default from_option Datatypes.id].
      case_bool_decide as Hk.
      * injection Hk as <- <- <-.
        rewrite lookup_insert_eq. cbn. rewrite lookup_insert_eq. cbn.
        now rewrite lookup_insert_eq.
      * destruct (decide (r0 = r)) as [<-|Hr];
          [|now rewrite lookup_insert_ne].
        rewrite lookup_insert_eq, Em. cbn.
        destruct (decide (c0 = c)) as [<-|Hc];
          [|now rewrite lookup_insert_ne].
        rewrite lookup_insert_eq, Ec. cbn.
        rewrite lookup_insert_ne; [reflexivity|congruence].
    + rewrite lookup_insert_eq. cbn [default from_option Datatypes.id].
      case_bool_decide as Hk.
      * injection Hk as <- <- <-.
        rewrite lookup_insert_eq. cbn. rewrite lookup_insert_eq. cbn.
        now rewrite lookup_insert_eq.
      * destruct (decide (r0 = r)) as [<-|Hr];
          [|now rewrite lookup_insert_ne].
        rewrite lookup_insert_eq, Em. cbn.
        destruct (decide (c0 = c)) as [<-|Hc].
        -- rewrite lookup_insert_eq, Ec. cbn.
           rewrite lookup_insert_ne by congruence. apply lookup_empty.
        -- rewrite lookup_insert_ne by trivial. now rewrite lookup_insert_ne.
  - rewrite lookup_insert_eq. cbn [default from_option Datatypes.id]. rewrite lookup_empty, lookup_insert_eq.
    cbn [default from_option Datatypes.id].
    case_bool_decide as Hk.
    + injection Hk as <- <- <-.
        rewrite lookup_insert_eq. cbn. rewrite lookup_insert_eq. cbn.
        now rewrite lookup_insert_eq.
    + destruct (decide (r0 = r)) as [<-|Hr].
      * rewrite lookup_insert_eq, Em. cbn.
        destruct (decide (c0 = c)) as [<-|Hc].
        -- rewrite lookup_insert_eq. cbn.
           rewrite lookup_insert_ne by congruence. apply lookup_empty.
        -- rewrite lookup_insert_ne by trivial. now rewrite lookup_insert_ne.
      * rewrite lookup_insert_ne by trivial. now rewrite lookup_insert_ne.
Qed.

Lemma register_fold l : forall st,
  let st' := fold_left ExtendedRenamingMap.register l st in
  ExtendedRenamingMap.b_renamedIds st' = ExtendedRenamingMap.b_renamedIds st ++ l
  /\ ExtendedRenamingMap.b_newOffset st'
     = ExtendedRenamingMap.b_newOffset st + arrayLength l
  /\ (forall k,
        ExtendedRenamingMap.b_newOffsetToOldIdMap st' !! k
        = if (ExtendedRenamingMap.b_newOffset st <=? k)
             && (k <? ExtendedRenamingMap.b_newOffset st + arrayLength l)
          then arrayAt l (k - ExtendedRenamingMap.b_newOffset st)
          else ExtendedRenamingMap.b_newOffsetToOldIdMap st !! k)
  /\ (forall key,
        lookup3 (ExtendedRenamingMap.b_map st') key
        = match findLast key l (ExtendedRenamingMap.b_newOffset st) with
          | Some j => Some j
          | None => lookup3 (ExtendedRenamingMap.b_map st) key
          end).
Proof.
  unfold arrayLength.
  induction l as [|a l IH]; intros st; cbn zeta; simpl fold_left.
  - rewrite app_nil_r. simpl. split; [reflexivity|]. split; [lia|]. split; [|reflexivity].
    intros k. destruct (Z.leb_spec (ExtendedRenamingMap.b_newOffset st) k);
      destruct (Z.ltb_spec k (ExtendedRenamingMap.b_newOffset st + Z.of_nat 0));
      simpl; trivial; lia.
  - destruct (IH (ExtendedRenamingMap.register st a)) as (Hids & Hoff & Hold & Hmap).
    cbn zeta in *. rewrite Hids, Hoff. clear Hids Hoff.
    set (n := ExtendedRenamingMap.b_newOffset st) in *.
    change (ExtendedRenamingMap.b_newOffset (ExtendedRenamingMap.register st a))
      with (n + 1) in *.
    change (ExtendedRenamingMap.b_renamedIds (ExtendedRenamingMap.register st a))
      with (ExtendedRenamingMap.b_renamedIds st ++ [a]).
    split; [now rewrite <- app_assoc|]. split; [simpl; lia|]. split.
    + intros k. rewrite Hold. clear Hold Hmap.
      change (ExtendedRenamingMap.b_newOffsetToOldIdMap (ExtendedRenamingMap.register st a))
        with (<[n := a]> (ExtendedRenamingMap.b_newOffsetToOldIdMap st)).
      simpl List.length.
      destruct (Z.leb_spec (n + 1) k); destruct (Z.leb_spec n k);
        destruct (Z.ltb_spec k (n + 1 + Z.of_nat (List.length l)));
        destruct (Z.ltb_spec k (n + Z.of_nat (S (List.length l)))); simpl; try lia.
      * unfold arrayAt. destruct (Z.ltb_spec (k - (n + 1)) 0); [lia|].
        destruct (Z.ltb_spec (k - n) 0); [lia|].
        replace (Z.to_nat (k - n)) with (S (Z.to_nat (k - (n + 1)))) by lia. reflexivity.
      * now rewrite lookup_insert_ne by lia.
      * assert (k = n) by lia. subst k. rewrite lookup_insert_eq.
        now rewrite Z.sub_diag.
      * now rewrite lookup_insert_ne by lia.
    + intros key. rewrite Hmap. simpl findLast.
      destruct (findLast key l (n + 1)); trivial.
      rewrite register_lookup3. fold n. now case_bool_decide.
Qed.

Lemma findLast_Some key l : forall n j,
  findLast key l n = Some j ->
  exists a, arrayAt l (j - n) = Some a /\ keyOf a = key.
Proof.
  induction l as [|a l IH]; intros n j; simpl; [discriminate|].
  destruct (findLast key l (n + 1)) as [j'|] eqn:E.
  - intros [= ->]. destruct (IH _ _ E) as (b & Hb & Hk). exists b. split; trivial.
    apply arrayAt_Some in Hb as [H0 Hb]. apply arrayAt_Some. split; [lia|].
    replace (Z.to_nat (j - n)) with (S (Z.to_nat (j - (n + 1)))) by lia. exact Hb.
  - case_bool_decide as Hk; [|discriminate]. intros [= <-].
    exists a. now rewrite Z.sub_diag.
Qed.

Lemma findLast_None key l n :
  findLast key l n = None -> forall a, a ∈ l -> keyOf a <> key.
Proof.
  revert n. induction l as [|b l IH]; intros n; simpl.
  - intros _ a Ha. inversion Ha.
  - destruct (findLast key l (n + 1)) eqn:E; [discriminate|].
    case_bool_decide as Hk; [discriminate|]. intros _ a Ha.
    apply elem_of_cons in Ha as [->|Ha]; eauto.
Qed.

Lemma findLast_NoDup l : forall n (k : nat) a,
  NoDup (keyOf <$> l) -> l !! k = Some a ->
  findLast (keyOf a) l n = Some (n + Z.of_nat k).
Proof.
  induction l as [|b l IH]; intros n k a Hnd Hk; [discriminate|].
  rewrite fmap_cons in Hnd. apply NoDup_cons in Hnd as [Hb Hnd].
  destruct k as [|k]; simpl in *.
  - injection Hk as ->.
    destruct (findLast (keyOf a) l (n + 1)) as [j|] eqn:E.
    + exfalso. destruct (findLast_Some _ _ _ _ E) as (c & Hc & Hkc).
      apply Hb. rewrite <- Hkc. apply list_elem_of_fmap_2.
      apply arrayAt_Some in Hc as [_ Hc]. eapply list_elem_of_lookup_2; eauto.
    + rewrite bool_decide_eq_true_2 by reflexivity. f_equal. lia.
  - rewrite (IH (n + 1) k a Hnd Hk). f_equal. lia.
Qed.

Lemma findLast_absent key l n :
  key ∉ (keyOf <$> l) -> findLast key l n = None.
Proof.
  revert n. induction l as [|a l IH]; intros n Hk; simpl; trivial.
  rewrite fmap_cons in Hk. apply not_elem_of_cons in Hk as [Ha Hl].
  rewrite (IH _ Hl). now rewrite bool_decide_eq_false_2 by congruence.
Qed.

Lemma fold_left_flatten {A} (ls : list (list A)) : forall acc,
  fold_left Helpers.flatten ls acc = acc ++ List.concat ls.
Proof.
  induction ls as [|l ls IH]; intros acc; simpl.
  - now rewrite app_nil_r.
  - rewrite IH. unfold Helpers.flatten. now rewrite app_assoc.
Qed.

(** The extended map built from the same intervals. *)
Lemma extended_new :
  exists e,
    ExtendedRenamingMap.new replicaNumber clock ivs = Some e
    /\ ExtendedRenamingMap.replicaNumber e = replicaNumber
    /\ ExtendedRenamingMap.clock e = clock
    /\ ExtendedRenamingMap.renamedIds e = R
    /\ ExtendedRenamingMap.maxOffset e = RenamingMap.maxOffset this
    /\ (forall k, ExtendedRenamingMap.newOffsetToOldIdMap e !! k = arrayAt R k)
    /\ (forall r c o,
          ExtendedRenamingMap.lookupOffset e r c o = findLast (r, c, o) R 0).
Proof.
  unfold ExtendedRenamingMap.new.
  assert (Hred : Helpers.reduce Helpers.flatten
                   (List.map IdentifierInterval.toIds ivs) = Some R).
  { rewrite R_eq. pose proof wf_nonempty as Hne. clear Hincreasing.
    destruct ivs as [|i l]; [congruence|]. simpl.
    now rewrite fold_left_flatten, flat_map_concat_map. }
  rewrite Hred. simpl.
  destruct (register_fold R (ExtendedRenamingMap.mkBuilding [] ∅ ∅ 0))
    as (Hids & Hoff & Hold & Hmap).
  cbn zeta in *. simpl in Hids, Hoff, Hold, Hmap.
  eexists. split; [reflexivity|]. simpl.
  split; [reflexivity|]. split; [reflexivity|]. split; [exact Hids|].
  split; [rewrite Hoff, R_length_max; lia|]. split.
  - intros k. rewrite Hold. rewrite Z.add_0_l.
    destruct (Z.leb_spec 0 k); destruct (Z.ltb_spec k (arrayLength R)); simpl.
    + now rewrite Z.sub_0_r.
    + rewrite lookup_empty. symmetry. unfold arrayAt.
      destruct (Z.ltb_spec k 0); trivial. apply lookup_ge_None.
      unfold arrayLength in *. lia.
    + rewrite lookup_empty. unfold arrayAt. destruct (Z.ltb_spec k 0); trivial; lia.
    + rewrite lookup_empty. unfold arrayAt. destruct (Z.ltb_spec k 0); trivial; lia.
  - intros r c o. unfold ExtendedRenamingMap.lookupOffset. simpl.
    specialize (Hmap (r, c, o)). unfold lookup3 in Hmap at 1. rewrite Hmap.
    destruct (findLast (r, c, o) R 0); trivial.
Qed.

(** [findPredecessor] on the renamed identifiers. *)
Lemma findPredecessor_fold (l : list Identifier) e : forall best,
  (forall b, best = Some b -> Identifier.compareTo b e = Less) ->
  let res :=
    fold_left
      (fun best other =>
         if bool_decide (Identifier.compareTo other e = Less) then
           match best with
           | Some b =>
               if bool_decide (Identifier.compareTo b other = Less)
               then Some other else best
           | None => Some other
           end
         else best) l best in
  (forall p, res = Some p ->
     Identifier.compareTo p e = Less /\ (best = Some p \/ p ∈ l))
  /\ (forall q, best = Some q \/ q ∈ l -> Identifier.compareTo q e = Less ->
      exists p, res = Some p /\ Identifier.compareTo p q <> Less).
Proof.
  induction l as [|x l IH]; intros best Hbest; cbn zeta; simpl fold_left.
  - split.
    + intros p Hp. split; auto.
    + intros q [Hq|Hq] Hlt; [|inversion Hq]. exists q. split; trivial. apply id_lt_irrefl.
  - match goal with
    | |- context [fold_left _ l ?b] => set (best' := b)
    end.
    assert (Hbest' : forall b, best' = Some b -> Identifier.compareTo b e = Less).
    { unfold best'. intros b. case_bool_decide as Hx; [|auto].
      destruct best as [b0|]; [|intros [= <-]; trivial].
      case_bool_decide; [intros [= <-]; trivial|auto]. }
    destruct (IH best' Hbest') as [IH1 IH2]. cbn zeta in IH1, IH2. split.
    + intros p Hp. destruct (IH1 p Hp) as [Hlt Hin]. split; trivial.
      destruct Hin as [Hin|Hin]; [|right; now right].
      unfold best' in Hin. case_bool_decide as Hx; [|auto].
      destruct best as [b0|]; [|injection Hin as <-; right; now left].
      case_bool_decide; [injection Hin as <-; right; now left|auto].
    + intros q Hq Hlt.
      assert (Hq' : exists q', best' = Some q' /\ Identifier.compareTo q' q <> Less
                               \/ q ∈ l).
      { destruct Hq as [Hq|Hq].
        - exists (match best' with Some b => b | None => q end). left.
          unfold best'. subst best. case_bool_decide as Hx.
          + case_bool_decide as Hqx; split; trivial.
            * now apply id_lt_asym.
            * apply id_lt_irrefl.
          + split; trivial. apply id_lt_irrefl.
        - apply elem_of_cons in Hq as [->|Hq]; [|exists q; now right].
          exists (match best' with Some b => b | None => x end). left.
          unfold best'. rewrite (bool_decide_eq_true_2 _ Hlt).
          destruct best as [b0|]; [|split; trivial; apply id_lt_irrefl].
          case_bool_decide as Hbx; split; trivial.
          apply id_lt_irrefl. }
      destruct Hq' as (q' & [[Hq' Hle]|Hq']).
      * destruct (IH2 q' (or_introl Hq') (Hbest' _ Hq')) as (p & Hp & Hpq).
        exists p. split; trivial. intros Hlt'.
        apply id_not_Less in Hpq, Hle.
        destruct Hle as [->|Hle].
        { destruct Hpq as [->|Hpq];
            [now apply id_lt_irrefl in Hlt'|now apply (id_lt_asym _ _ Hlt')]. }
        destruct Hpq as [->|Hpq].
        -- now apply (id_lt_asym _ _ Hlt').
        -- apply (id_lt_irrefl p). eapply id_lt_trans; [exact Hlt'|].
           eapply id_lt_trans; eauto.
      * exact (IH2 q (or_intror Hq') Hlt).
Qed.

Lemma findPredecessor_between id pred succ k :
  arrayAt R k = Some pred -> arrayAt R (k + 1) = Some succ ->
  Identifier.compareTo pred id = Less -> Identifier.compareTo id succ = Less ->
  Helpers.findPredecessor R id Identifier.compareTo = Some pred.
Proof.
  intros Hpred Hsucc Hpl Hsl. unfold Helpers.findPredecessor.
  destruct (findPredecessor_fold R id None ltac:(discriminate)) as [H1 H2].
  cbn zeta in H1, H2.
  assert (Hin : pred ∈ R).
  { apply arrayAt_Some in Hpred as [_ Hpred]. eapply list_elem_of_lookup_2; eauto. }
  destruct (H2 pred (or_intror Hin) Hpl) as (p & Hp & Hge).
  rewrite Hp. f_equal.
  destruct (H1 p Hp) as [Hlt [Hp'|Hp']]; [discriminate|].
  apply list_elem_of_lookup in Hp' as [j Hj]. rewrite <- arrayAt_nat in Hj.
  destruct (Z.lt_total (Z.of_nat j) k) as [Hjk|[Hjk|Hjk]].
  - exfalso. apply Hge. apply (R_sorted (Z.of_nat j) k); trivial.
  - rewrite Hjk in Hj. congruence.
  - exfalso. apply (R_sorted_le (k + 1) (Z.of_nat j) succ p ltac:(lia) Hsucc Hj).
    eapply id_lt_trans; eauto.
Qed.

Section Extended.

Variable e : ExtendedRenamingMap.t.
Hypothesis He : ExtendedRenamingMap.new replicaNumber clock ivs = Some e.

Lemma ext_facts :
  ExtendedRenamingMap.replicaNumber e = replicaNumber
  /\ ExtendedRenamingMap.clock e = clock
  /\ ExtendedRenamingMap.renamedIds e = R
  /\ ExtendedRenamingMap.maxOffset e = RenamingMap.maxOffset this
  /\ (forall k, ExtendedRenamingMap.newOffsetToOldIdMap e !! k = arrayAt R k)
  /\ (forall r c o,
        ExtendedRenamingMap.lookupOffset e r c o = findLast (r, c, o) R 0).
Proof.
  destruct extended_new as (e' & He' & H). rewrite He in He'.
  injection He' as <-. exact H.
Qed.

Lemma ext_newRandom :
  ExtendedRenamingMap.newRandom e = RenamingMap.newRandom this.
Proof.
  destruct ext_facts as (_ & _ & HR & _).
  destruct this_getters as (first & last & x & Hfirst & _ & Hx & _ & _ & Hnr & _).
  unfold ExtendedRenamingMap.newRandom, ExtendedRenamingMap.firstId.
  rewrite HR, Hfirst, Hnr. simpl. now rewrite Hx.
Qed.

Lemma ext_renameId_outside id first last :
  arrayAt R 0 = Some first -> arrayAt R (arrayLength R - 1) = Some last ->
  Identifier.compareTo id first = Less \/ Identifier.compareTo last id = Less ->
  ExtendedRenamingMap.renameId e id = Some id.
Proof.
  intros Hfirst Hlast Hout. destruct ext_facts as (_ & _ & HR & _).
  unfold ExtendedRenamingMap.renameId. simpl. rewrite HR, Hfirst, Hlast. simpl.
  destruct Hout as [H|H]; rewrite (bool_decide_eq_true_2 _ H); trivial.
  now rewrite orb_true_r.
Qed.

Lemma ext_renameIdRec_renamed fuel k id nr :
  NoDup (keyOf <$> R) ->
  RenamingMap.newRandom this = Some nr ->
  arrayAt R k = Some id ->
  ExtendedRenamingMap.renameIdRec e (S fuel) id
  = Some [IdentifierTuple.mk nr replicaNumber clock k].
Proof.
  intros Hnd Hnr Hid.
  destruct ext_facts as (Hrep & Hclk & HR & _ & _ & Hlook).
  destruct this_getters as (first & last & x & Hfirst & Hlast & _).
  pose proof (arrayAt_bound _ _ _ Hid) as Hk.
  simpl. rewrite HR, Hfirst, Hlast. simpl.
  rewrite !bool_decide_eq_false_2.
  - simpl. rewrite Hlook. fold (keyOf id).
    apply arrayAt_Some in Hid as [H0 Hid].
    rewrite (findLast_NoDup R 0 _ id Hnd Hid).
    rewrite ext_newRandom, Hnr. simpl. unfold IdFactory.createAtPosition.
    rewrite Hrep, Hclk. do 3 f_equal. lia.
  - apply (R_sorted_le k (arrayLength R - 1) id last); trivial. lia.
  - apply (R_sorted_le 0 k first id); trivial. lia.
Qed.

Lemma ext_renameId_between id pred succ k nr :
  NoDup (keyOf <$> R) ->
  RenamingMap.newRandom this = Some nr ->
  arrayAt R k = Some pred -> arrayAt R (k + 1) = Some succ ->
  Identifier.compareTo pred id = Less -> Identifier.compareTo id succ = Less ->
  keyOf id ∉ (keyOf <$> R) ->
  ExtendedRenamingMap.renameId e id
  = Some ([IdentifierTuple.mk nr replicaNumber clock k] ++ id).
Proof.
  intros Hnd Hnr Hpred Hsucc Hpl Hsl Hkey.
  destruct ext_facts as (Hrep & Hclk & HR & _ & _ & Hlook).
  destruct this_getters as (first & last & x & Hfirst & Hlast & _).
  pose proof (arrayAt_bound _ _ _ Hpred) as Hk.
  pose proof (arrayAt_bound _ _ _ Hsucc) as Hk1.
  unfold ExtendedRenamingMap.renameId.
  change (ExtendedRenamingMap.renameIdRec e 2 id)
    with (first ← arrayAt (ExtendedRenamingMap.renamedIds e) 0;
          last ← arrayAt (ExtendedRenamingMap.renamedIds e)
                   (arrayLength (ExtendedRenamingMap.renamedIds e) - 1);
          if bool_decide (Identifier.compareTo id first = Less)
             || bool_decide (Identifier.compareTo last id = Less)
          then Some id
          else match ExtendedRenamingMap.lookupOffset e (Identifier.replicaNumber id)
                       (Identifier.clock id) (Identifier.lastOffset id) with
               | Some newOffset =>
                   random ← ExtendedRenamingMap.newRandom e;
                   Some (IdFactory.createAtPosition (ExtendedRenamingMap.replicaNumber e)
                           (ExtendedRenamingMap.clock e) random newOffset)
               | None =>
                   predecessorId ←
                     Helpers.findPredecessor (ExtendedRenamingMap.renamedIds e) id
                       Identifier.compareTo;
                   newPredecessorId ← ExtendedRenamingMap.renameIdRec e 1 predecessorId;
                   Some (Identifier.concat newPredecessorId id)
               end).
  set (rec1 := ExtendedRenamingMap.renameIdRec e 1).
  rewrite HR, Hfirst, Hlast. simpl.
  rewrite !bool_decide_eq_false_2.
  - simpl. rewrite Hlook. fold (keyOf id). rewrite (findLast_absent _ _ _ Hkey).
    rewrite (findPredecessor_between id pred succ k Hpred Hsucc Hpl Hsl). simpl.
    unfold rec1.
    rewrite (ext_renameIdRec_renamed 0 k pred nr Hnd Hnr Hpred). reflexivity.
  - intros Hlt. apply (R_sorted_le (k + 1) (arrayLength R - 1) succ last); trivial; try lia.
    eapply id_lt_trans; eauto.
  - intros Hlt. apply (R_sorted_le 0 k first pred); trivial; try lia.
    eapply id_lt_trans; eauto.
Qed.

Lemma ext_reverseRenameId_renamed k id nr :
  RenamingMap.newRandom this = Some nr ->
  arrayAt R k = Some id ->
  ExtendedRenamingMap.reverseRenameId e [IdentifierTuple.mk nr replicaNumber clock k]
  = Some id.
Proof.
  intros Hnr Hid. pose proof (arrayAt_bound _ _ _ Hid) as Hk.
  destruct ext_facts as (Hrep & Hclk & HR & Hmax & Hold & _).
  unfold ExtendedRenamingMap.reverseRenameId, ExtendedRenamingMap.hasBeenRenamed,
    ExtendedRenamingMap.newFirstId.
  rewrite ext_newRandom, Hnr. simpl. unfold IdFactory.createAtPosition.
  rewrite Hrep, Hclk, equalsBase_new, Hmax.
  unfold Identifier.lastOffset. simpl.
  rewrite R_length_max in Hk.
  destruct (Z.leb_spec 0 k); [|lia].
  destruct (Z.leb_spec k (RenamingMap.maxOffset this)); [|lia]. simpl.
  now rewrite Hold.
Qed.

Lemma ext_reverseRenameId_inside k X pred succ first last nr :
  RenamingMap.newRandom this = Some nr ->
  X <> [] ->
  arrayAt R 0 = Some first -> arrayAt R (arrayLength R - 1) = Some last ->
  arrayAt R k = Some pred -> arrayAt R (k + 1) = Some succ ->
  Identifier.compareTo (IdentifierTuple.mk nr replicaNumber clock k :: X) first <> Less ->
  Identifier.compareTo last (IdentifierTuple.mk nr replicaNumber clock k :: X) <> Less ->
  ExtendedRenamingMap.reverseRenameId e (IdentifierTuple.mk nr replicaNumber clock k :: X)
  = Some (if bool_decide (Identifier.compareTo X pred = Less)
          then Identifier.concat pred X
          else if bool_decide (Identifier.compareTo succ X = Less)
          then Identifier.concat (closestPredecessor succ) X
          else X).
Proof.
  intros Hnr HX Hfirst Hlast Hpred Hsucc Hf Hl.
  pose proof (arrayAt_bound _ _ _ Hpred) as Hk.
  pose proof (arrayAt_bound _ _ _ Hsucc) as Hk1.
  rewrite R_length_max in Hk, Hk1.
  destruct ext_facts as (Hrep & Hclk & HR & Hmax & Hold & _).
  unfold ExtendedRenamingMap.reverseRenameId, ExtendedRenamingMap.hasBeenRenamed,
    ExtendedRenamingMap.newFirstId, ExtendedRenamingMap.newLastId,
    ExtendedRenamingMap.firstId, ExtendedRenamingMap.lastId.
  rewrite ext_newRandom, Hnr, HR, Hfirst, Hlast. simpl.
  unfold IdFactory.createAtPosition. rewrite Hrep, Hclk, Hmax.
  destruct X as [|y X]; [congruence|]. rewrite equalsBase_long. simpl.
  rewrite (bool_decide_eq_false_2 _ Hf), (bool_decide_eq_false_2 _ Hl). simpl.
  rewrite (bool_decide_eq_false_2
             (Identifier.compareTo
                [IdentifierTuple.mk nr replicaNumber clock (RenamingMap.maxOffset this)]
                (IdentifierTuple.mk nr replicaNumber clock k :: y :: X) = Less)).
  2:{ apply id_lt_asym. apply new_lt_head. lia. }
  simpl. unfold Identifier.truncate, Identifier.length, arrayLength. simpl.
  unfold Identifier.lastOffset. simpl.
  destruct (Z.ltb_spec (Z.of_nat (S (S (List.length X)))) 1); [lia|]. simpl.
  rewrite !Hold, Hpred, Hsucc. simpl.
  fold (Identifier.lastOffset succ). fold (closestPredecessor succ).
  repeat case_bool_decide; trivial; contradiction.
Qed.

End Extended.


(** ** The renaming and the order *)

Lemma plain_not_markedb p x id :
  plain id = true -> x = IdFactory.MIN_TUPLE \/ x = IdFactory.MAX_TUPLE ->
  markedb p x id = false.
Proof.
  intros Hp Hx. apply not_true_is_false. intros Hm.
  apply markedb_spec in Hm as (tail & _ & ->).
  unfold plain in Hp. rewrite forallb_forall in Hp.
  specialize (Hp x ltac:(apply in_or_app; right; now left)).
  apply andb_true_iff in Hp as [H1 H2].
  apply negb_true_iff, bool_decide_eq_false in H1, H2. tauto.
Qed.

Lemma fresh_base nr a :
  fresh nr replicaNumber clock a = true ->
  exists x a', a = x :: a'
    /\ ~ (IdentifierTuple.random x = nr /\ IdentifierTuple.replicaNumber x = replicaNumber
          /\ IdentifierTuple.clock x = clock).
Proof.
  destruct a as [|x a']; [discriminate|]. simpl. intros H.
  exists x, a'. split; trivial. apply negb_true_iff in H.
  rewrite !andb_false_iff, !Z.eqb_neq in H. tauto.
Qed.

Lemma fresh_below nr a o :
  fresh nr replicaNumber clock a = true ->
  Identifier.compareTo a [IdentifierTuple.mk nr replicaNumber clock o] = Less ->
  forall o' Y,
    Identifier.compareTo a (IdentifierTuple.mk nr replicaNumber clock o' :: Y) = Less.
Proof.
  intros Hf Hlt o' Y. destruct (fresh_base nr a Hf) as (x & a' & -> & Hb).
  rewrite id_compareTo_cons in Hlt.
  destruct (tuple_compareTo_cases x (IdentifierTuple.mk nr replicaNumber clock o))
    as [[H L]|[[H L]|[H L]]]; rewrite H in Hlt; try discriminate.
  - apply id_lt_cons. destruct x. unfold tuple_lt in *. simpl in *. lia.
  - now apply not_Less_nil in Hlt.
Qed.

Lemma fresh_above nr a o :
  fresh nr replicaNumber clock a = true ->
  Identifier.compareTo [IdentifierTuple.mk nr replicaNumber clock o] a = Less ->
  forall o' Y,
    Identifier.compareTo (IdentifierTuple.mk nr replicaNumber clock o' :: Y) a = Less.
Proof.
  intros Hf Hlt o' Y. destruct (fresh_base nr a Hf) as (x & a' & -> & Hb).
  rewrite id_compareTo_cons in Hlt.
  destruct (tuple_compareTo_cases (IdentifierTuple.mk nr replicaNumber clock o) x)
    as [[H L]|[[H L]|[H L]]]; rewrite H in Hlt; try discriminate.
  - apply id_lt_cons. destruct x. unfold tuple_lt in *. simpl in *. lia.
  - subst x. exfalso. apply Hb. simpl. auto.
Qed.

Lemma fresh_not_new nr a o :
  fresh nr replicaNumber clock a = true ->
  a <> [IdentifierTuple.mk nr replicaNumber clock o].
Proof.
  intros Hf ->. destruct (fresh_base _ _ Hf) as (x & a' & [= <- <-] & Hb).
  apply Hb. simpl. auto.
Qed.

(** An identifier between [newFirstId] and [firstId] is renamed to an
    extension of the predecessor of [newFirstId], and found back. *)
Lemma reverseRenameId_before_first a first nr :
  arrayAt R 0 = Some first ->
  RenamingMap.newRandom this = Some nr ->
  Identifier.compareTo a first = Less ->
  Identifier.compareTo a [IdentifierTuple.mk nr replicaNumber clock 0] <> Less ->
  RenamingMap.reverseRenameId this (IdentifierTuple.mk nr replicaNumber clock (-1) :: a)
  = Some a.
Proof.
  intros Hfirst Hnr Hlt Hge.
  destruct this_getters as (first' & last & x & Hfirst' & Hlast & Hx & Hf & Hl & Hnr'
                            & Hnf & Hnl).
  assert (first' = first) by congruence. subst first'.
  assert (nr = IdentifierTuple.random x) by congruence. subst nr.
  set (nr := IdentifierTuple.random x) in *.
  pose proof total_pos as Ht. pose proof this_maxOffset as Hmax.
  (* the first tuple of [a] has the random of the new identifiers *)
  assert (Hrand : exists y a', a = y :: a' /\ IdentifierTuple.random y = nr).
  { destruct a as [|y a']; [exfalso; apply Hge; reflexivity|].
    exists y, a'. split; trivial.
    destruct first as [|z first']; [discriminate|].
    unfold Identifier.tupleAt in Hx. simpl in Hx. injection Hx as ->.
    rewrite id_compareTo_cons in Hlt.
    assert (IdentifierTuple.random y <= IdentifierTuple.random x).
    { destruct (tuple_compareTo_cases y x) as [[H L]|[[H L]|[H L]]];
        rewrite H in Hlt; try discriminate.
      - now apply tuple_lt_random_le.
      - subst. lia. }
    assert (~ IdentifierTuple.random y < nr).
    { intros Hy. apply Hge. apply id_lt_cons, tuple_lt_random. exact Hy. }
    unfold nr in *. lia. }
  destruct Hrand as (y & a' & -> & Hy).
  set (r := IdentifierTuple.mk nr replicaNumber clock (-1) :: y :: a').
  assert (Hnew : Identifier.compareTo [IdentifierTuple.mk nr replicaNumber clock 0] first
                 = Less).
  { destruct (id_total (y :: a') [IdentifierTuple.mk nr replicaNumber clock 0])
      as [H|[H|H]]; [contradiction| |].
    - now rewrite <- H.
    - eapply id_lt_trans; eauto. }
  unfold RenamingMap.reverseRenameId, RenamingMap.hasBeenRenamed.
  rewrite Hnf, Hf, Hl, Hnl, Hnr'. simpl. fold nr.
  rewrite !fromBase_single. unfold Identifier.lastOffset, IdentifierTuple.fromBase. simpl.
  assert (E0 : bool_decide (Identifier.compareTo first
                 [IdentifierTuple.mk nr replicaNumber clock (0 - 1)] = Less) = false).
  { apply bool_decide_eq_false_2. apply id_lt_asym.
    eapply id_lt_trans; [|exact Hnew]. apply new_lt_head. lia. }
  rewrite E0.
  assert (E1 : bool_decide (Identifier.compareTo r
                 [IdentifierTuple.mk nr replicaNumber clock (0 - 1)] = Less) = false).
  { apply bool_decide_eq_false_2. apply id_lt_asym.
    apply (new_lt_ext nr (-1) (y :: a')). discriminate. }
  rewrite E1. simpl.
  assert (Hrl : Identifier.compareTo r
                  [IdentifierTuple.mk nr replicaNumber clock (RenamingMap.maxOffset this)]
                = Less).
  { apply new_lt_head. lia. }
  assert (E2 : bool_decide (Identifier.compareTo
                 (if bool_decide (Identifier.compareTo last
                        [IdentifierTuple.mk nr replicaNumber clock (RenamingMap.maxOffset this)]
                      = Greater)
                  then last
                  else [IdentifierTuple.mk nr replicaNumber clock
                          (RenamingMap.maxOffset this + 1)]) r = Less) = false).
  { destruct (decide (Identifier.compareTo last
                 [IdentifierTuple.mk nr replicaNumber clock (RenamingMap.maxOffset this)]
               = Greater)) as [Hg|Hg].
    - rewrite (bool_decide_eq_true_2 _ Hg). apply bool_decide_eq_false_2.
      apply id_Greater in Hg. apply id_lt_asym. eapply id_lt_trans; eauto.
    - rewrite (bool_decide_eq_false_2 _ Hg). apply bool_decide_eq_false_2.
      apply id_lt_asym. apply new_lt_head. lia. }
  rewrite E2. simpl.
  rewrite bool_decide_eq_true_2 by (apply new_lt_head; lia).
  unfold Identifier.getTail, Identifier.tupleAt. simpl.
  now rewrite Hy, Z.eqb_refl.
Qed.

(** An identifier between [lastId] and [newLastId] is renamed to an
    extension of [newLastId], and found back. *)
Lemma reverseRenameId_after_last a last nr :
  arrayAt R (arrayLength R - 1) = Some last ->
  RenamingMap.newRandom this = Some nr ->
  Identifier.compareTo last a = Less ->
  Identifier.compareTo a
    [IdentifierTuple.mk nr replicaNumber clock (RenamingMap.maxOffset this)] = Less ->
  RenamingMap.reverseRenameId this
    (IdentifierTuple.mk nr replicaNumber clock (RenamingMap.maxOffset this) :: a)
  = Some a.
Proof.
  intros Hlast Hnr Hlt Hle.
  destruct this_getters as (first & last' & x & Hfirst & Hlast' & Hx & Hf & Hl & Hnr'
                            & Hnf & Hnl).
  assert (last' = last) by congruence. subst last'.
  assert (nr = IdentifierTuple.random x) by congruence. subst nr.
  set (nr := IdentifierTuple.random x) in *.
  pose proof total_pos as Ht. pose proof this_maxOffset as Hmax.
  destruct a as [|y a']; [now apply not_Less_nil in Hlt|].
  set (a := y :: a') in *.
  set (r := IdentifierTuple.mk nr replicaNumber clock (RenamingMap.maxOffset this) :: a).
  assert (Hll : Identifier.compareTo last
                  [IdentifierTuple.mk nr replicaNumber clock (RenamingMap.maxOffset this)]
                = Less) by (eapply id_lt_trans; eauto).
  unfold RenamingMap.reverseRenameId, RenamingMap.hasBeenRenamed.
  rewrite Hnf, Hf, Hl, Hnl, Hnr'. simpl. fold nr.
  rewrite !fromBase_single. unfold Identifier.lastOffset, IdentifierTuple.fromBase. simpl.
  assert (Hlow : Identifier.compareTo
                   [IdentifierTuple.mk nr replicaNumber clock (0 - 1)] r = Less).
  { apply new_lt_head. lia. }
  assert (E1 : bool_decide (Identifier.compareTo r
                 (if bool_decide (Identifier.compareTo first
                        [IdentifierTuple.mk nr replicaNumber clock (0 - 1)] = Less)
                  then first
                  else [IdentifierTuple.mk nr replicaNumber clock (0 - 1)]) = Less) = false).
  { destruct (decide (Identifier.compareTo first
                 [IdentifierTuple.mk nr replicaNumber clock (0 - 1)] = Less)) as [Hg|Hg].
    - rewrite (bool_decide_eq_true_2 _ Hg). apply bool_decide_eq_false_2.
      apply id_lt_asym. eapply id_lt_trans; eauto.
    - rewrite (bool_decide_eq_false_2 _ Hg). apply bool_decide_eq_false_2.
      now apply id_lt_asym. }
  rewrite E1.
  rewrite (bool_decide_eq_false_2 (Identifier.compareTo last _ = Greater))
    by (rewrite Hll; discriminate).
  rewrite (bool_decide_eq_false_2
             (Identifier.compareTo
                [IdentifierTuple.mk nr replicaNumber clock (RenamingMap.maxOffset this + 1)]
                r = Less))
    by (apply id_lt_asym; apply new_lt_head; lia).
  simpl.
  rewrite (bool_decide_eq_false_2
             (Identifier.compareTo r [IdentifierTuple.mk nr replicaNumber clock 0] = Less)).
  2:{ destruct (Z.eq_dec (RenamingMap.maxOffset this) 0) as [E|E].
      - unfold r. rewrite E. apply id_lt_asym. apply new_lt_ext. discriminate.
      - apply id_lt_asym. apply new_lt_head. lia. }
  rewrite (bool_decide_eq_true_2 _ Hll).
  rewrite (bool_decide_eq_true_2
             (Identifier.compareTo
                [IdentifierTuple.mk nr replicaNumber clock (RenamingMap.maxOffset this)]
                r = Less))
    by (apply new_lt_ext; discriminate).
  rewrite (bool_decide_eq_true_2
             (Identifier.compareTo r
                [IdentifierTuple.mk nr replicaNumber clock (RenamingMap.maxOffset this + 1)]
              = Less))
    by (apply new_lt_head; lia).
  simpl. unfold Identifier.getTail. simpl drop. fold a.
  rewrite (bool_decide_eq_false_2 (Identifier.compareTo a last = Less))
    by (now apply id_lt_asym).
  rewrite (bool_decide_eq_true_2 _ Hlt), (bool_decide_eq_true_2 _ Hle). reflexivity.
Qed.

Lemma rename_class a nr first last :
  arrayAt R 0 = Some first -> arrayAt R (arrayLength R - 1) = Some last ->
  RenamingMap.newRandom this = Some nr ->
  plain a = true -> fresh nr replicaNumber clock a = true ->
  exists ra,
    RenamingMap.renameId this a = Some ra
    /\ RenamingMap.reverseRenameId this ra = Some a
    /\ renamedAs R first last nr replicaNumber clock (RenamingMap.maxOffset this) a ra.
Proof.
  intros Hfirst Hlast Hnr Hplain Hfresh.
  destruct this_getters as (first' & last' & x & Hfirst' & Hlast' & Hx & Hf & Hl & Hnr'
                            & Hnf & Hnl).
  assert (first' = first) by congruence. subst first'.
  assert (last' = last) by congruence. subst last'.
  assert (nr = IdentifierTuple.random x) by congruence. subst nr.
  set (nr := IdentifierTuple.random x) in *.
  pose proof total_pos as Ht. pose proof this_maxOffset as Hmax.
  unfold renamedAs. cbn zeta.
  destruct (decide (Identifier.compareTo a first = Less)) as [Hlt|Hge].
  - (* below the renamed range *)
    rewrite (renameId_below_first a first Hfirst Hlt).
    rewrite (renameIdLessThanFirstId_eq a first _ Hf Hnr).
    rewrite plain_not_markedb by auto.
    case_bool_decide as Hnew.
    + eexists. split; [reflexivity|].
      pose proof (fresh_below nr a 0 Hfresh Hnew) as Hbelow. split.
      * apply (reverseRenameId_outside a first last nr Hf Hl Hnr). left.
        unfold minFirstId. case_bool_decide; trivial.
        rewrite closestPredecessor_single. apply Hbelow.
      * left. auto.
    + eexists. split; [reflexivity|]. cbn [app]. split.
      * now apply (reverseRenameId_before_first a first nr).
      * right; left. auto.
  - destruct (decide (Identifier.compareTo last a = Less)) as [Hgt|Hle].
    + (* above the renamed range *)
      rewrite (renameId_above_last a last Hlast Hgt).
      rewrite (renameIdGreaterThanLastId_eq a last _ Hl Hnr).
      rewrite (plain_not_markedb last IdFactory.MIN_TUPLE a) by auto.
      rewrite andb_false_r.
      case_bool_decide as Hnew.
      * eexists. split; [reflexivity|].
        pose proof (fresh_above nr a _ Hfresh Hnew) as Habove. split.
        -- apply (reverseRenameId_outside a first last nr Hf Hl Hnr). right.
           unfold maxLastId. case_bool_decide; trivial.
           rewrite closestSuccessor_single. apply Habove.
        -- do 4 right. auto.
      * eexists. split; [reflexivity|]. cbn [app]. split.
        -- apply (reverseRenameId_after_last a last nr); trivial.
           destruct (id_total a [IdentifierTuple.mk nr replicaNumber clock
                                   (RenamingMap.maxOffset this)]) as [H|[H|H]];
             trivial; [|contradiction].
           now apply fresh_not_new in H.
        -- do 3 right; left. auto.
    + (* in the renamed range *)
      destruct (decide (a ∈ R)) as [Hin|Hnin].
      * apply list_elem_of_lookup in Hin as [k Hk]. rewrite <- arrayAt_nat in Hk.
        rewrite (renameId_renamed_eq _ a _ Hnr Hk).
        eexists. split; [reflexivity|]. split.
        -- exact (reverseRenameId_renamed _ a _ Hnr Hk).
        -- do 2 right; left. exists (Z.of_nat k), a.
           split; [exact Hk|]. split; [exact Hge|]. split; [exact Hle|].
           split; [apply id_lt_irrefl|]. split.
           ++ intros sa Hsa. apply (R_sorted (Z.of_nat k) (Z.of_nat k + 1)); trivial. lia.
           ++ now rewrite bool_decide_eq_true_2.
      * assert (Hnot : forall k, arrayAt R k <> Some a).
        { intros k Hk. apply arrayAt_Some in Hk as [_ Hk]. apply Hnin.
          eapply list_elem_of_lookup_2; eauto. }
        destruct (advance_between a first last Hfirst Hlast Hge Hle Hnot)
          as (k & pred & succ & _ & Hk & Hpred & Hsucc & Hpl & Hsl).
        rewrite (renameId_between_eq a pred succ k Hpred Hsucc Hpl Hsl).
        rewrite (renameIdFromPredecessorId_eq a pred succ k _ Hnr Hsucc).
        rewrite (plain_not_markedb pred IdFactory.MIN_TUPLE a) by auto.
        rewrite (plain_not_markedb (closestPredecessor succ) IdFactory.MAX_TUPLE a) by auto.
        cbn [andb app].
        assert (Hne : a <> []) by (intros ->; now apply not_Less_nil in Hpl).
        eexists. split; [reflexivity|]. split.
        -- rewrite (reverseRenameId_inside k a pred succ _ Hnr Hne Hpred Hsucc).
           rewrite !bool_decide_eq_false_2; trivial; now apply id_lt_asym.
        -- do 2 right; left. exists k, pred.
           split; [exact Hpred|]. split; [exact Hge|]. split; [exact Hle|].
           split; [now apply id_lt_asym|]. split.
           ++ intros sa Hsa. congruence.
           ++ rewrite bool_decide_eq_false_2; trivial.
              intros ->. now apply id_lt_irrefl in Hpl.
Qed.

Lemma renamedAs_mono a b ra rb nr first last :
  arrayAt R 0 = Some first -> arrayAt R (arrayLength R - 1) = Some last ->
  renamedAs R first last nr replicaNumber clock (RenamingMap.maxOffset this) a ra ->
  renamedAs R first last nr replicaNumber clock (RenamingMap.maxOffset this) b rb ->
  Identifier.compareTo a b = Less ->
  Identifier.compareTo ra rb = Less.
Proof.
  intros Hfirst Hlast Ha Hb Hab.
  pose proof total_pos as Ht. pose proof this_maxOffset as Hmax.
  pose proof R_length_max as Hn.
  assert (Hfl : Identifier.compareTo last first <> Less).
  { apply (R_sorted_le 0 (arrayLength R - 1) first last); trivial. lia. }
  (* nothing lies above [last] and below [first] *)
  assert (Hout : forall u v, Identifier.compareTo last u = Less ->
            Identifier.compareTo u v = Less -> Identifier.compareTo v first = Less -> False).
  { intros u v H1 H2 H3. apply Hfl.
    eapply id_lt_trans; [exact H1|]. eapply id_lt_trans; eauto. }
  assert (Hcons : forall o u v, Identifier.compareTo u v = Less ->
            Identifier.compareTo (IdentifierTuple.mk nr replicaNumber clock o :: u)
                                 (IdentifierTuple.mk nr replicaNumber clock o :: v) = Less).
  { intros o u v H. now rewrite id_compareTo_cons, tuple_compareTo_refl. }
  unfold renamedAs in Ha, Hb. cbn zeta in Ha, Hb.
  destruct Ha as [(Ha1 & -> & Ha2)|[(Ha1 & Ha2 & ->)|[(k & pa & Hpa & Ha1 & Ha2 & Ha3 & Ha4 & ->)
                 |[(Ha1 & Ha2 & ->)|(Ha1 & -> & Ha2)]]]];
  destruct Hb as [(Hb1 & -> & Hb2)|[(Hb1 & Hb2 & ->)|[(k' & pb & Hpb & Hb1 & Hb2 & Hb3 & Hb4 & ->)
                 |[(Hb1 & Hb2 & ->)|(Hb1 & -> & Hb2)]]]];
  try (pose proof (arrayAt_bound _ _ _ Hpa) as Hk);
  try (pose proof (arrayAt_bound _ _ _ Hpb) as Hk');
  try exact Hab; try apply Ha2; try apply Hb2; try (apply new_lt_head; lia);
  try (now apply Hcons).
  - (* B, A *) exfalso. apply Ha2. eapply id_lt_trans; [exact Hab|]. apply Hb2.
  - (* C, A *) exfalso. apply Ha1. eapply id_lt_trans; eauto.
  - (* C, B *) exfalso. apply Ha1. eapply id_lt_trans; eauto.
  - (* C, C *)
    destruct (Z.lt_total k k') as [Hkk|[Hkk|Hkk]].
    + apply new_lt_head. lia.
    + subst k'. assert (pb = pa) by congruence. subst pb.
      repeat case_bool_decide; subst.
      * now apply id_lt_irrefl in Hab.
      * apply new_lt_ext. intros ->. now apply not_Less_nil in Hab.
      * contradiction.
      * now apply Hcons.
    + exfalso. destruct (arrayAt_lt R (k' + 1) ltac:(lia)) as [sb Hsb].
      pose proof (Hb4 sb Hsb) as Hbs.
      pose proof (R_sorted_le (k' + 1) k sb pa ltac:(lia) Hsb Hpa) as Hle.
      assert (Has : Identifier.compareTo a sb = Less) by (eapply id_lt_trans; eauto).
      apply id_not_Less in Hle. destruct Hle as [->|Hle].
      * contradiction.
      * apply Ha3. eapply id_lt_trans; eauto.
  - (* C, D *)
    destruct (Z.eq_dec k (RenamingMap.maxOffset this)) as [->|Hne];
      [|apply new_lt_head; lia].
    assert (pa = last).
    { replace (arrayLength R - 1) with (RenamingMap.maxOffset this) in Hlast by lia.
      congruence. }
    subst pa. apply id_not_Less in Ha3. destruct Ha3 as [->|Ha3]; [|contradiction].
    rewrite bool_decide_eq_true_2 by reflexivity.
    apply new_lt_ext. intros ->. now apply not_Less_nil in Hb1.
  - (* D, A *) exfalso. eapply Hout; eauto.
  - (* D, B *) exfalso. eapply Hout; eauto.
  - (* D, C *) exfalso. apply Hb2. eapply id_lt_trans; eauto.
  - (* E, B *) exfalso. eapply Hout; eauto.
  - (* E, C *) exfalso. apply Hb2. eapply id_lt_trans; eauto.
  - (* E, D *) exfalso. apply Hb2. eapply id_lt_trans; [|exact Hab]. apply Ha2.
Qed.

(** Away from the markers the renaming keeps the order.  In a map built
    from valid intervals that list the renamed identifiers in increasing
    order, for two identifiers [a] and [b] that carry neither [MIN_TUPLE]
    nor [MAX_TUPLE] and do not start with the base of the new space, with
    renamings [ra] and [rb]: [a < b] if and only if [ra < rb], and
    [reverseRenameId] returns [a] and [b].  The identifiers that carry a
    marker are not covered. *)
Lemma renameId_plain_order a b nr :
  RenamingMap.newRandom this = Some nr ->
  plain a = true -> fresh nr replicaNumber clock a = true ->
  plain b = true -> fresh nr replicaNumber clock b = true ->
  exists ra rb,
    RenamingMap.renameId this a = Some ra
    /\ RenamingMap.renameId this b = Some rb
    /\ RenamingMap.reverseRenameId this ra = Some a
    /\ RenamingMap.reverseRenameId this rb = Some b
    /\ (Identifier.compareTo a b = Less <-> Identifier.compareTo ra rb = Less).
Proof.
  intros Hnr Hpa Hfa Hpb Hfb.
  destruct this_getters as (first & last & x & Hfirst & Hlast & _).
  destruct (rename_class a nr first last Hfirst Hlast Hnr Hpa Hfa) as (ra & Hra & Hrev & Hca).
  destruct (rename_class b nr first last Hfirst Hlast Hnr Hpb Hfb) as (rb & Hrb & Hrev' & Hcb).
  exists ra, rb. repeat split; trivial.
  - intros Hab. exact (renamedAs_mono a b ra rb nr first last Hfirst Hlast Hca Hcb Hab).
  - intros Hrab. destruct (id_total a b) as [H|[H|H]]; trivial; exfalso.
    + subst b. assert (ra = rb) by congruence. subst. now apply id_lt_irrefl in Hrab.
    + apply (id_lt_asym _ _ Hrab).
      exact (renamedAs_mono b a rb ra nr first last Hfirst Hlast Hcb Hca H).
Qed.

(** ** The searches of the renaming map *)

(** *** [findPositionFromIndex] outside [0..maxOffset] *)

Lemma interval_at (m : Z) :
  0 <= m < arrayLength ivs ->
  exists im sm,
    arrayAt ivs m = Some im /\ arrayAt (sums 0 ivs) m = Some sm
    /\ ivs !! Z.to_nat m = Some im /\ sums 0 ivs !! Z.to_nat m = Some sm
    /\ 0 <= sm /\ sm + IdentifierInterval.length im <= total ivs
    /\ 0 < IdentifierInterval.length im
    /\ IdentifierInterval.base im <> [].
Proof.
  intros Hm.
  assert (Hmn : (Z.to_nat m < List.length ivs)%nat) by (unfold arrayLength in Hm; lia).
  destruct (lookup_lt_is_Some_2 ivs _ Hmn) as [im Him].
  destruct (sums_lookup ivs 0 _ im wf_valid Him) as (sm & Hsm & Hlo & Hup & _).
  exists im, sm.
  assert (Hv : validInterval im = true).
  { pose proof wf_valid as Hv. rewrite forallb_forall in Hv. apply Hv.
    apply list_elem_of_In. eapply list_elem_of_lookup_2; eauto. }
  apply validInterval_spec in Hv as [Hb Hl].
  repeat split; trivial; try lia; apply arrayAt_Some; split; trivial; lia.
Qed.

Lemma findPositionLoop_above index :
  total ivs <= index ->
  forall fuel l r, 0 <= l <= r -> r = arrayLength ivs ->
    RenamingMap.findPositionLoop this fuel l r index = None.
Proof.
  intros Hidx fuel. induction fuel as [|fuel IH]; intros l r Hl Hr; [reflexivity|].
  simpl. destruct (Z.leb_spec l r); [|lia].
  assert (Hm : l <= (l + r) / 2 <= r).
  { split; [apply Z.div_le_lower_bound|apply Z.div_le_upper_bound]; lia. }
  set (m := (l + r) / 2) in *.
  rewrite this_indexes, this_intervals.
  destruct (Z.eq_dec m r) as [Hmr|Hmr].
  - assert (E : arrayAt (sums 0 ivs) m = None).
    { destruct (arrayAt (sums 0 ivs) m) eqn:E; trivial.
      apply arrayAt_bound in E. unfold arrayLength in *.
      rewrite sums_length in E. lia. }
    now rewrite E.
  - destruct (interval_at m ltac:(lia)) as (im & sm & Eim & Esm & _ & _ & _ & Hup & _).
    rewrite Esm, Eim. simpl.
    destruct (Z.leb_spec (sm + IdentifierInterval.length im) index); [|lia].
    apply IH; lia.
Qed.

Lemma findPositionLoop_below index :
  index < 0 ->
  forall fuel r, 0 <= r <= arrayLength ivs ->
    RenamingMap.findPositionLoop this fuel 0 r index = None.
Proof.
  intros Hidx fuel. induction fuel as [|fuel IH]; intros r Hr; [reflexivity|].
  simpl. destruct (Z.leb_spec 0 r); [|lia]. rewrite Z.add_0_l.
  assert (Hn : 0 < arrayLength ivs).
  { pose proof wf_nonempty as Hne. unfold arrayLength. clear -Hne.
    destruct ivs; [congruence|simpl; lia]. }
  assert (Hm : 0 <= r / 2 < arrayLength ivs).
  { split; [apply Z.div_pos; lia|apply Z.div_lt_upper_bound; lia]. }
  assert (Hmr : r / 2 <= r) by (apply Z.div_le_upper_bound; lia).
  rewrite this_indexes, this_intervals.
  destruct (interval_at (r / 2) Hm) as (im & sm & Eim & Esm & _ & _ & Hlo & _ & Hlen & _).
  rewrite Esm, Eim. simpl.
  destruct (Z.leb_spec (sm + IdentifierInterval.length im) index); [lia|].
  destruct (Z.ltb_spec index sm); [|lia].
  apply IH; lia.
Qed.

(** X1.  In a map built from a non-empty list of valid intervals,
    [findPositionFromIndex] returns for exactly the indexes [0..maxOffset]:
    there it gives the interval [m] and the offset of the identifier of new
    offset [index], which lies in the interval and [index - indexes[m]]
    above its [begin]; for every other index the search never returns (it
    throws on an index above [maxOffset] and loops below [0]), whatever the
    number of iterations it is given. *)
Theorem findPositionFromIndex_domain index :
  (0 <= index <= RenamingMap.maxOffset this ->
   exists m offset idInterval otherIndex,
     RenamingMap.findPositionFromIndex this index = Some (m, offset)
     /\ arrayAt (RenamingMap.renamedIdIntervals this) m = Some idInterval
     /\ arrayAt (RenamingMap.indexes this) m = Some otherIndex
     /\ IdentifierInterval.begin idInterval <= offset <= IdentifierInterval.end_ idInterval
     /\ index = otherIndex + (offset - IdentifierInterval.begin idInterval)
     /\ arrayAt R index
        = Some (Identifier.fromBase (IdentifierInterval.base idInterval) offset))
  /\ (~ 0 <= index <= RenamingMap.maxOffset this ->
      forall fuel,
        RenamingMap.findPositionLoop this fuel 0
          (arrayLength (RenamingMap.renamedIdIntervals this)) index = None).
Proof.
  rewrite this_maxOffset. split.
  - intros Hk.
    destruct (findPositionFromIndex_found index ltac:(lia))
      as (j & i & s & Hj & Hs & Hr & Hne & Hid & Hfind).
    exists (Z.of_nat j), (index - s + IdentifierInterval.begin i), i, s.
    rewrite this_intervals, this_indexes, !arrayAt_nat.
    unfold IdentifierInterval.length in Hr.
    split; [exact Hfind|]. split; [exact Hj|]. split; [exact Hs|].
    split; [lia|]. split; [lia|].
    rewrite Hid. do 2 f_equal. lia.
  - intros Hk fuel. rewrite this_intervals.
    destruct (Z.lt_ge_cases index 0) as [Hneg|Hpos].
    + apply findPositionLoop_below; trivial. unfold arrayLength. lia.
    + apply findPositionLoop_above; trivial; try lia. unfold arrayLength. lia.
Qed.

(** *** The identifiers found from an index *)

Lemma locate_last :
  exists (j : nat) i s,
    ivs !! j = Some i /\ sums 0 ivs !! j = Some s
    /\ S j = List.length ivs /\ s + IdentifierInterval.length i = total ivs.
Proof.
  pose proof total_pos as Ht.
  destruct (R_locate (total ivs - 1) ltac:(lia)) as (j & i & s & Hj & Hs & Hr & _ & _).
  destruct (sums_lookup ivs 0 j i wf_valid Hj) as (s' & Hs' & _ & Hup & _).
  assert (s' = s) by congruence. subst s'.
  exists j, i, s. split; [exact Hj|]. split; [exact Hs|]. split; [|lia].
  pose proof (lookup_lt_Some _ _ _ Hj) as Hlt.
  destruct (Nat.eq_dec (S j) (List.length ivs)) as [|Hne']; trivial. exfalso.
  destruct (lookup_lt_is_Some_2 ivs (S j)) as [i1 Hi1]; [lia|].
  destruct (sums_lookup ivs 0 (S j) i1 wf_valid Hi1) as (s1 & Hs1 & _ & Hup1 & _).
  pose proof (sums_mono ivs 0 j (S j) i s s1 wf_valid ltac:(lia) Hj Hs Hs1).
  destruct (interval_at (Z.of_nat (S j))) as (im & _ & _ & _ & Him & _ & _ & _ & Hlen & _).
  { unfold arrayLength. lia. }
  rewrite Nat2Z.id in Him. assert (im = i1) by congruence. subst im. lia.
Qed.

Lemma findPredecessorAndSuccessorFromIndex_last :
  RenamingMap.findPredecessorAndSuccessorFromIndex this (RenamingMap.maxOffset this) = None.
Proof.
  rewrite this_maxOffset. pose proof total_pos as Ht.
  destruct locate_last as (j & i & s & Hj & Hs & Hlast & Htot).
  pose proof wf_valid as Hv.
  destruct (interval_at (Z.of_nat j)) as (im & _ & _ & _ & Him & _ & _ & _ & Hlen & _).
  { apply lookup_lt_Some in Hj. unfold arrayLength. lia. }
  rewrite Nat2Z.id in Him. assert (im = i) by congruence. subst im.
  unfold RenamingMap.findPredecessorAndSuccessorFromIndex, RenamingMap.findPositionFromIndex.
  rewrite this_intervals.
  rewrite (findPositionLoop_found j i s (total ivs - 1)); trivial;
    try (unfold arrayLength; lia).
  simpl. rewrite arrayAt_nat, Hj. simpl.
  unfold IdentifierInterval.length in Htot.
  replace (total ivs - 1 - s + IdentifierInterval.begin i)
    with (IdentifierInterval.end_ i) by lia.
  rewrite Z.eqb_refl. simpl.
  replace (Z.of_nat j + 1) with (Z.of_nat (S j)) by lia.
  rewrite arrayAt_nat, Hlast, lookup_ge_None_2; [reflexivity|lia].
Qed.

(** X2.  In a map built from a non-empty list of valid intervals,
    [findIdFromIndex(index)] is the renamed identifier of new offset
    [index], for every index in [0..maxOffset];
    [findPredecessorAndSuccessorFromIndex(index)] is that identifier and the
    next renamed one, for every index in [0..maxOffset - 1], and it throws
    at [maxOffset], where it looks for the interval after the last one. *)
Theorem findIdFromIndex_renamedIds :
  (forall index, 0 <= index <= RenamingMap.maxOffset this ->
     exists id,
       RenamingMap.findIdFromIndex this index = Some id
       /\ arrayAt R index = Some id)
  /\ (forall index, 0 <= index < RenamingMap.maxOffset this ->
        exists predecessorId successorId,
          RenamingMap.findPredecessorAndSuccessorFromIndex this index
          = Some (predecessorId, successorId)
          /\ arrayAt R index = Some predecessorId
          /\ arrayAt R (index + 1) = Some successorId)
  /\ RenamingMap.findPredecessorAndSuccessorFromIndex this (RenamingMap.maxOffset this)
     = None.
Proof.
  split; [|split].
  - intros index Hk. rewrite this_maxOffset in Hk.
    rewrite findIdFromIndex_eq by lia.
    destruct (arrayAt_lt R index) as [id Hid]; [rewrite R_length; lia|].
    now exists id.
  - intros index Hk. rewrite this_maxOffset in Hk.
    destruct (arrayAt_lt R index) as [a Ha]; [rewrite R_length; lia|].
    destruct (arrayAt_lt R (index + 1)) as [b Hb]; [rewrite R_length; lia|].
    exists a, b. split; [|split; trivial].
    now apply findPredecessorAndSuccessorFromIndex_eq.
  - apply findPredecessorAndSuccessorFromIndex_last.
Qed.

(** *** The identifiers of one interval *)

Lemma interval_ids (j : nat) i s :
  ivs !! j = Some i -> sums 0 ivs !! j = Some s ->
  forall o, IdentifierInterval.begin i <= o <= IdentifierInterval.end_ i ->
    arrayAt R (s + (o - IdentifierInterval.begin i))
    = Some (Identifier.fromBase (IdentifierInterval.base i) o).
Proof.
  intros Hj Hs o Ho.
  destruct (sums_lookup ivs 0 j i wf_valid Hj) as (s' & Hs' & Hlo & _ & Hids).
  assert (s' = s) by congruence. subst s'.
  specialize (Hids (Z.to_nat (o - IdentifierInterval.begin i))).
  unfold IdentifierInterval.length in Hids.
  rewrite Z2Nat.id in Hids by lia.
  apply arrayAt_Some. split; [lia|]. rewrite R_eq.
  replace (s - 0 + (o - IdentifierInterval.begin i))
    with (s + (o - IdentifierInterval.begin i)) in Hids by lia.
  rewrite Hids by lia. do 2 f_equal. lia.
Qed.

Lemma sums_succ l : forall start (j : nat) i s s',
  l !! j = Some i -> sums start l !! j = Some s -> sums start l !! S j = Some s' ->
  s' = s + IdentifierInterval.length i.
Proof.
  induction l as [|a l IH]; intros start j i s s' Hj Hs Hs'; [discriminate|].
  destruct j as [|j]; simpl in *.
  - injection Hj as <-. injection Hs as <-.
    destruct l; simpl in *; [discriminate|]. now injection Hs' as <-.
  - eapply IH; eauto.
Qed.

(** X3.  The constructor numbers the renamed identifiers interval by
    interval: [indexes] has one entry per interval, [indexes[m]] is the new
    offset of the first identifier of the interval [m], the identifiers of
    the interval take the next new offsets in order, and the next interval
    starts right after its last identifier. *)
Theorem constructor_indexes :
  arrayLength (RenamingMap.indexes this)
  = arrayLength (RenamingMap.renamedIdIntervals this)
  /\ arrayAt (RenamingMap.indexes this) 0 = Some 0
  /\ forall m idInterval,
       arrayAt (RenamingMap.renamedIdIntervals this) m = Some idInterval ->
       exists otherIndex,
         arrayAt (RenamingMap.indexes this) m = Some otherIndex
         /\ (forall o,
               IdentifierInterval.begin idInterval <= o
               <= IdentifierInterval.end_ idInterval ->
               arrayAt R (otherIndex + (o - IdentifierInterval.begin idInterval))
               = Some (Identifier.fromBase (IdentifierInterval.base idInterval) o))
         /\ (m + 1 < arrayLength (RenamingMap.renamedIdIntervals this) ->
             arrayAt (RenamingMap.indexes this) (m + 1)
             = Some (otherIndex + IdentifierInterval.length idInterval))
         /\ (m + 1 = arrayLength (RenamingMap.renamedIdIntervals this) ->
             otherIndex + IdentifierInterval.length idInterval
             = RenamingMap.maxOffset this + 1).
Proof.
  rewrite this_indexes, this_intervals, this_maxOffset.
  split; [unfold arrayLength; now rewrite sums_length|]. split.
  { pose proof wf_nonempty as Hne. clear -Hne. destruct ivs; [congruence|reflexivity]. }
  intros m i Hm. pose proof (arrayAt_bound _ _ _ Hm) as Hb.
  destruct (interval_at m Hb) as (im & sm & Eim & Esm & Him & Hsm & _).
  assert (im = i) by congruence. subst im.
  exists sm. split; [exact Esm|]. split; [|split].
  - intros o Ho. now apply (interval_ids (Z.to_nat m) i sm).
  - intros Hnext.
    destruct (interval_at (m + 1) ltac:(lia)) as (i1 & s1 & _ & Es1 & _ & Hs1 & _).
    rewrite Es1. f_equal.
    replace (Z.to_nat (m + 1)) with (S (Z.to_nat m)) in Hs1 by lia.
    exact (sums_succ ivs 0 (Z.to_nat m) i sm s1 Him Hsm Hs1).
  - intros Hlast.
    destruct locate_last as (j & i' & s' & Hj & Hs & Hl & Htot).
    unfold arrayLength in Hlast.
    assert (Z.to_nat m = j) by lia. subst j.
    assert (i' = i) by congruence. assert (s' = sm) by congruence. subst. lia.
Qed.

(** *** The binary search of [findIndexOfIdOrPredecessor] *)

Lemma id_le_lt_trans a b c :
  Identifier.compareTo b a <> Less -> Identifier.compareTo b c = Less ->
  Identifier.compareTo a c = Less.
Proof.
  intros Hab Hbc. apply id_not_Less in Hab as [->|Hab]; trivial.
  eapply id_lt_trans; eauto.
Qed.

Lemma id_lt_le_trans a b c :
  Identifier.compareTo a b = Less -> Identifier.compareTo c b <> Less ->
  Identifier.compareTo a c = Less.
Proof.
  intros Hab Hbc. apply id_not_Less in Hbc as [->|Hbc]; trivial.
  eapply id_lt_trans; eauto.
Qed.

Lemma id_le_trans a b c :
  Identifier.compareTo b a <> Less -> Identifier.compareTo c b <> Less ->
  Identifier.compareTo c a <> Less.
Proof.
  intros Hab Hbc. apply id_not_Less in Hab as [->|Hab]; trivial.
  apply id_lt_asym. eapply id_lt_le_trans; eauto.
Qed.

(** An identifier between the two ends of an interval continues the
    identifier of the interval that has the offset of its tuple at the depth
    of the base. *)
Lemma within_interval p x b e : forall id,
  b <= e ->
  Identifier.compareTo id (p ++ [IdentifierTuple.fromBase x b]) <> Less ->
  Identifier.compareTo (p ++ [IdentifierTuple.fromBase x e]) id <> Less ->
  exists o tail,
    id = p ++ IdentifierTuple.fromBase x o :: tail
    /\ b <= o <= e /\ (o = e -> tail = []).
Proof.
  induction p as [|z p IH]; intros id Hbe Hlo Hhi.
  - destruct id as [|y tail]; [now destruct Hlo|].
    simpl app in *. rewrite id_compareTo_cons in Hlo, Hhi.
    destruct (tuple_compareTo_cases y (IdentifierTuple.fromBase x b))
      as [[H L]|[[H L]|[H L]]]; rewrite H in Hlo; try (now destruct Hlo);
    destruct (tuple_compareTo_cases (IdentifierTuple.fromBase x e) y)
      as [[H' L']|[[H' L']|[H' L']]]; rewrite H' in Hhi; try (now destruct Hhi).
    + subst y. exists b, tail. repeat split; trivial; try lia.
      intros _. clear -Hhi. now destruct tail.
    + subst y. exists b, tail. repeat split; trivial; try lia.
      intros ->. exfalso. revert L'. clear. destruct x as [xr xp xc xo].
      unfold tuple_lt. simpl. lia.
    + subst y. exists e, tail. repeat split; trivial; try lia.
      intros _. clear -Hhi. now destruct tail.
    + exists (IdentifierTuple.offset y), tail.
      revert L L'. clear. destruct x as [xr xp xc xo], y as [yr yp yc yo].
      unfold tuple_lt. simpl. intros L L'.
      assert (yr = xr /\ yp = xp /\ yc = xc /\ b < yo < e) as (-> & -> & -> & Ho) by lia.
      repeat split; trivial; lia.
  - destruct id as [|y id]; [now destruct Hlo|].
    rewrite <- !app_comm_cons, id_compareTo_cons in Hlo, Hhi.
    destruct (tuple_compareTo_cases y z) as [[H L]|[[H L]|[H L]]];
      rewrite H in Hlo; try (now destruct Hlo).
    + subst y. rewrite tuple_compareTo_refl in Hhi.
      destruct (IH id Hbe Hlo Hhi) as (o & tail & -> & Ho & Ht).
      exists o, tail. repeat split; trivial; lia.
    + apply tuple_Less in L. rewrite L in Hhi. now destruct Hhi.
Qed.

Lemma pos_begin_end m im :
  arrayAt ivs m = Some im ->
  exists s,
    arrayAt (sums 0 ivs) m = Some s
    /\ arrayAt R s = Some (IdentifierInterval.idBegin im)
    /\ arrayAt R (s + IdentifierInterval.length im - 1) = Some (IdentifierInterval.idEnd im)
    /\ 0 <= s /\ 0 < IdentifierInterval.length im
    /\ s + IdentifierInterval.length im <= total ivs.
Proof.
  intros Hm. pose proof (arrayAt_bound _ _ _ Hm) as Hb.
  destruct (interval_at m Hb) as (i & s & Ei & Es & Hi & Hs & Hlo & Hup & Hlen & _).
  assert (i = im) by congruence. subst i.
  exists s. split; [exact Es|].
  unfold IdentifierInterval.length in *.
  pose proof (interval_ids (Z.to_nat m) im s Hi Hs (IdentifierInterval.begin im)
                ltac:(lia)) as Hbeg.
  pose proof (interval_ids (Z.to_nat m) im s Hi Hs (IdentifierInterval.end_ im)
                ltac:(lia)) as Hend.
  replace (s + (IdentifierInterval.begin im - IdentifierInterval.begin im)) with s in Hbeg by lia.
  replace (s + (IdentifierInterval.end_ im - IdentifierInterval.begin im))
    with (s + (IdentifierInterval.end_ im - IdentifierInterval.begin im + 1) - 1)
    in Hend by lia.
  repeat split; trivial.
Qed.

Lemma pos_mono m m' im im' s s' :
  m < m' -> arrayAt ivs m = Some im -> arrayAt ivs m' = Some im' ->
  arrayAt (sums 0 ivs) m = Some s -> arrayAt (sums 0 ivs) m' = Some s' ->
  s + IdentifierInterval.length im <= s'.
Proof.
  intros Hlt Hm Hm' Hs Hs'.
  apply arrayAt_Some in Hm as [Hm0 Hm], Hm' as [Hm0' Hm'], Hs as [_ Hs], Hs' as [_ Hs'].
  apply (sums_mono ivs 0 (Z.to_nat m) (Z.to_nat m') im s s' wf_valid); trivial. lia.
Qed.

Import SearchSpec.

Lemma predecessorIndex_intro id k :
  -1 <= k <= arrayLength R - 1 ->
  (0 <= k -> exists a, arrayAt R k = Some a /\ Identifier.compareTo id a <> Less) ->
  (k < arrayLength R - 1 ->
   exists b, arrayAt R (k + 1) = Some b /\ Identifier.compareTo id b = Less) ->
  predecessorIndex R id k.
Proof.
  intros Hk Hlo Hhi. split; [exact Hk|]. split.
  - intros i a Hi Ha. destruct (Hlo ltac:(lia)) as (a' & Ha' & Hle).
    apply (id_le_trans _ a'); trivial.
    now apply (R_sorted_le i k).
  - intros i b Hi Hb. pose proof (arrayAt_bound _ _ _ Hb) as Hbd.
    destruct (Hhi ltac:(lia)) as (b' & Hb' & Hlt).
    eapply id_lt_le_trans; [exact Hlt|].
    now apply (R_sorted_le (k + 1) i); [lia| |].
Qed.

Lemma predecessorIndex_unique id k k' :
  predecessorIndex R id k -> predecessorIndex R id k' -> k = k'.
Proof.
  assert (H : forall k k', predecessorIndex R id k -> predecessorIndex R id k' -> ~ k < k').
  { clear k k'. intros k k' (Hk & _ & Hhi) (Hk' & Hlo & _) Hlt.
    destruct (arrayAt_lt R k' ltac:(lia)) as [a Ha].
    apply (Hlo k' a ltac:(lia) Ha). now apply (Hhi k'). }
  intros Q Q'. pose proof (H _ _ Q Q'). pose proof (H _ _ Q' Q). lia.
Qed.

Lemma advance_predecessorIndex id ci :
  -1 <= ci <= arrayLength R - 1 ->
  (forall i a, 0 <= i <= ci -> arrayAt R i = Some a ->
     Identifier.compareTo id a <> Less) ->
  exists k,
    RenamingMap.advance this (S (List.length R)) id ci = Some k
    /\ predecessorIndex R id k.
Proof.
  intros Hci Hbelow.
  destruct (advance_spec id (S (List.length R)) ci Hci) as (k & Hrun & Hk & Hlo & Hhi).
  { unfold arrayLength. lia. }
  exists k. split; [exact Hrun|].
  apply predecessorIndex_intro; [lia| |exact Hhi].
  intros Hk0. destruct (arrayAt_lt R k ltac:(lia)) as [a Ha].
  exists a. split; trivial.
  destruct (Z.le_gt_cases k ci); [apply (Hbelow k)|apply (Hlo k)]; trivial; lia.
Qed.

Lemma findIndexLoop_spec id : forall fuel l r,
  0 <= l <= r -> r <= arrayLength ivs ->
  (forall m im, 0 <= m < l -> arrayAt ivs m = Some im ->
     Identifier.compareTo (IdentifierInterval.idEnd im) id = Less) ->
  (forall m im, r <= m -> arrayAt ivs m = Some im ->
     Identifier.compareTo id (IdentifierInterval.idBegin im) = Less) ->
  (Z.to_nat (r - l) < fuel)%nat ->
  (exists k,
     RenamingMap.findIndexLoop this fuel l r id = Some (inl k)
     /\ predecessorIndex R id k)
  \/ (exists l',
        RenamingMap.findIndexLoop this fuel l r id = Some (inr l')
        /\ 0 <= l' <= arrayLength ivs
        /\ (forall m im, 0 <= m < l' -> arrayAt ivs m = Some im ->
              Identifier.compareTo (IdentifierInterval.idEnd im) id = Less)
        /\ (forall m im, l' <= m -> arrayAt ivs m = Some im ->
              Identifier.compareTo id (IdentifierInterval.idBegin im) = Less)).
Proof.
  intros fuel. induction fuel as [|fuel IH]; intros l r Hl Hr Hleft Hright Hfuel; [lia|].
  simpl. destruct (Z.ltb_spec l r) as [Hlr|Hlr].
  2:{ right. exists l. assert (l = r) by lia. subst r.
      split; [reflexivity|]. split; [lia|]. split; trivial. }
  assert (Hm : l <= (l + r) / 2 < r).
  { split; [apply Z.div_le_lower_bound|apply Z.div_lt_upper_bound]; lia. }
  set (m := (l + r) / 2) in *.
  rewrite this_intervals, this_indexes.
  destruct (arrayAt_lt ivs m ltac:(lia)) as [im Him]. rewrite Him. simpl.
  destruct (pos_begin_end m im Him) as (s & Hs & Hbeg & Hend & Hs0 & Hlen & Hup).
  case_bool_decide as Hc1.
  - (* the interval [m] ends below [id] *)
    apply IH; trivial; try lia.
    intros m' im' Hm' Him'.
    destruct (Z.eq_dec m' m) as [->|Hne]; [congruence|].
    destruct (Z.lt_ge_cases m' l) as [Hlt|Hge]; [now apply (Hleft m')|].
    destruct (pos_begin_end m' im' Him') as (s' & Hs' & _ & Hend' & Hs0' & Hlen' & _).
    pose proof (pos_mono m' m im' im s' s ltac:(lia) Him' Him Hs' Hs).
    eapply id_le_lt_trans; [|exact Hc1].
    apply (R_sorted_le (s' + IdentifierInterval.length im' - 1)
                       (s + IdentifierInterval.length im - 1)); trivial. lia.
  - case_bool_decide as Hc2.
    + (* the interval [m] begins above [id] *)
      apply IH; trivial; try lia.
      intros m' im' Hm' Him'.
      destruct (Z.eq_dec m' m) as [->|Hne]; [congruence|].
      destruct (Z.lt_ge_cases m' r) as [Hlt|Hge]; [|now apply (Hright m')].
      destruct (pos_begin_end m' im' Him') as (s' & Hs' & Hbeg' & _ & Hs0' & Hlen' & _).
      pose proof (pos_mono m m' im im' s s' ltac:(lia) Him Him' Hs Hs').
      eapply id_lt_le_trans; [exact Hc2|].
      apply (R_sorted_le s s'); trivial. lia.
    + (* [id] lies in the interval [m] *)
      left.
      pose proof (arrayAt_bound _ _ _ Him) as Hmb.
      destruct (interval_at m Hmb) as (i & s1 & Ei & Es & Hi & Hsn & _ & _ & _ & Hbase).
      assert (i = im) by congruence. assert (s1 = s) by congruence. subst i s1.
      destruct (id_snoc _ Hbase) as (p & x & Hpx).
      unfold IdentifierInterval.idBegin, IdentifierInterval.idEnd in Hc1, Hc2 |- *.
      unfold IdentifierInterval.length in Hlen.
      rewrite Hpx, fromBase_snoc in Hc1, Hc2 |- *.
      destruct (within_interval p x (IdentifierInterval.begin im)
                  (IdentifierInterval.end_ im) id ltac:(lia) Hc2 Hc1)
        as (o & tail & -> & Ho & Htail).
      assert (Et : Identifier.tupleAt (p ++ IdentifierTuple.fromBase x o :: tail)
                     (Identifier.length (p ++ [IdentifierTuple.fromBase x
                                                 (IdentifierInterval.begin im)]) - 1)
                   = Some (IdentifierTuple.fromBase x o)).
      { unfold Identifier.tupleAt, Identifier.length, arrayLength.
        rewrite length_app. simpl.
        replace (Z.of_nat (List.length p + 1) - 1) with (Z.of_nat (List.length p)) by lia.
        rewrite arrayAt_nat. now rewrite list_lookup_middle. }
      rewrite Et, Hs. simpl.
      eexists. split; [reflexivity|].
      pose proof (interval_ids (Z.to_nat m) im s Hi Hsn o Ho) as Hk.
      rewrite Hpx, fromBase_snoc in Hk.
      pose proof (arrayAt_bound _ _ _ Hk) as Hkb.
      apply predecessorIndex_intro; [lia| |].
      * intros _. eexists. split; [exact Hk|].
        rewrite id_compareTo_app, id_compareTo_cons, tuple_compareTo_refl.
        clear. now destruct tail.
      * intros Hnext.
        destruct (arrayAt_lt R (s + (o - IdentifierInterval.begin im) + 1) ltac:(lia))
          as [b Hb].
        exists b. split; [exact Hb|].
        destruct (Z.eq_dec o (IdentifierInterval.end_ im)) as [Hoe|Hoe].
        -- rewrite (Htail Hoe).
           apply (R_sorted (s + (o - IdentifierInterval.begin im))
                           (s + (o - IdentifierInterval.begin im) + 1)); trivial. lia.
        -- pose proof (interval_ids (Z.to_nat m) im s Hi Hsn (o + 1) ltac:(lia)) as Hk1.
           rewrite Hpx, fromBase_snoc in Hk1.
           replace (s + (o + 1 - IdentifierInterval.begin im))
             with (s + (o - IdentifierInterval.begin im) + 1) in Hk1 by lia.
           assert (b = p ++ [IdentifierTuple.fromBase x (o + 1)]) by congruence. subst b.
           rewrite id_compareTo_app. apply id_lt_cons.
           clear. destruct x as [xr xp xc xo]. unfold tuple_lt. simpl. lia.
Qed.

Lemma findIndexOfIdOrPredecessor_predecessorIndex id :
  exists k,
    RenamingMap.findIndexOfIdOrPredecessor this id = Some k
    /\ predecessorIndex R id k.
Proof.
  unfold RenamingMap.findIndexOfIdOrPredecessor. rewrite this_intervals.
  pose proof total_pos as Ht.
  assert (Hn : 0 <= arrayLength ivs) by (unfold arrayLength; lia).
  destruct (findIndexLoop_spec id (S (List.length ivs)) 0 (arrayLength ivs)
              ltac:(lia) ltac:(lia))
    as [(k & Hrun & Hk)|(l' & Hrun & Hl' & Hleft & Hright)].
  { intros; lia. }
  { intros m im Hm Him. apply arrayAt_bound in Him. lia. }
  { unfold arrayLength. lia. }
  - rewrite Hrun. simpl. now exists k.
  - rewrite Hrun. simpl. rewrite this_indexes, this_maxOffset.
    assert (Hlen : arrayLength (sums 0 ivs) = arrayLength ivs).
    { unfold arrayLength. now rewrite sums_length. }
    rewrite Hlen.
    destruct (Z.leb_spec (arrayLength ivs) l') as [Hge|Hlt].
    + (* every interval ends below [id] *)
      eexists. split; [reflexivity|].
      destruct locate_last as (j & i & s & Hj & Hs & Hlast & Htot).
      assert (Hi : arrayAt ivs (Z.of_nat j) = Some i) by now rewrite arrayAt_nat.
      destruct (pos_begin_end _ _ Hi) as (s1 & Hs1 & _ & Hend & _).
      rewrite arrayAt_nat in Hs1. assert (s1 = s) by congruence. subst s1.
      rewrite Htot in Hend.
      apply predecessorIndex_intro; rewrite ?R_length; try lia.
      intros _. eexists. split; [exact Hend|].
      apply id_lt_asym. apply (Hleft (Z.of_nat j)); trivial.
      unfold arrayLength in *. lia.
    + (* the interval [l'] is the first to begin above [id] *)
      destruct (arrayAt_lt ivs l' ltac:(lia)) as [i Hi].
      destruct (pos_begin_end _ _ Hi) as (s & Hs & Hbeg & _ & Hs0 & Hlen' & Hup).
      rewrite Hs. simpl. eexists. split; [reflexivity|].
      apply predecessorIndex_intro; rewrite ?R_length; try lia.
      * intros Hk.
        assert (Hpos : 0 < l').
        { destruct (Z.eq_dec l' 0) as [->|]; [|lia]. exfalso.
          pose proof wf_nonempty as Hne. revert Hs Hk Hne. clear.
          destruct ivs; [congruence|]. intros [= <-]. lia. }
        destruct (arrayAt_lt ivs (l' - 1) ltac:(lia)) as [i0 Hi0].
        destruct (pos_begin_end _ _ Hi0) as (s0 & Hs0' & _ & Hend0 & _).
        assert (s = s0 + IdentifierInterval.length i0).
        { apply arrayAt_Some in Hi0 as [_ Hi0], Hs0' as [_ Hs0'], Hs as [_ Hs].
          replace (Z.to_nat l') with (S (Z.to_nat (l' - 1))) in Hs by lia.
          exact (sums_succ ivs 0 _ i0 s0 s Hi0 Hs0' Hs). }
        subst s. eexists. split; [exact Hend0|].
        apply id_lt_asym. apply (Hleft (l' - 1)); trivial. lia.
      * intros _. exists (IdentifierInterval.idBegin i).
        replace (s - 1 + 1) with s by lia. split; [exact Hbeg|].
        apply (Hright l'); trivial. lia.
Qed.

(** X4.  In a map built from valid intervals that list the renamed
    identifiers in increasing order, [findIndexOfIdOrPredecessor(id)]
    returns, for every identifier, the new offset of the last renamed
    identifier that is not above [id], and [-1] when there is none: the
    offset of [id] itself when it is renamed, [maxOffset] above [lastId].  It
    is the index at which the scan of [renameIds], started at [-1], stops
    for [id]. *)
Theorem findIndexOfIdOrPredecessor_spec id :
  exists k,
    RenamingMap.findIndexOfIdOrPredecessor this id = Some k
    /\ -1 <= k <= RenamingMap.maxOffset this
    /\ (forall i a, 0 <= i <= k -> arrayAt R i = Some a ->
          Identifier.compareTo id a <> Less)
    /\ (forall i b, k < i -> arrayAt R i = Some b ->
          Identifier.compareTo id b = Less)
    /\ (forall i, arrayAt R i = Some id -> k = i)
    /\ RenamingMap.advance this (S (List.length R)) id (-1) = Some k.
Proof.
  destruct (findIndexOfIdOrPredecessor_predecessorIndex id) as (k & Hrun & Hk).
  exists k. split; [exact Hrun|].
  pose proof Hk as (Hrange & Hlo & Hhi).
  split; [rewrite R_length_max in Hrange; lia|]. split; [exact Hlo|]. split; [exact Hhi|].
  split.
  - intros i Hi. pose proof (arrayAt_bound _ _ _ Hi) as Hb.
    destruct (Z.lt_total k i) as [Hlt|[Heq|Hgt]]; trivial; exfalso.
    + apply (id_lt_irrefl id). now apply (Hhi i).
    + destruct (arrayAt_lt R k ltac:(lia)) as [a Ha].
      apply (Hlo k a ltac:(lia) Ha). now apply (R_sorted i k).
  - pose proof total_pos as Ht. pose proof R_length as HR.
    destruct (advance_predecessorIndex id (-1)) as (k' & Hadv & Hk'); [lia|intros; lia|].
    rewrite Hadv. f_equal. exact (predecessorIndex_unique id k' k Hk' Hk).
Qed.

Lemma renameLoop_cons id rest ci :
  RenamingMap.renameLoop this (id :: rest) ci
  = (ci' ← RenamingMap.advance this (S (List.length R)) id ci;
     renamed ← RenamingMap.renameAt this id ci';
     renamedRest ← RenamingMap.renameLoop this rest ci';
     Some (renamed :: renamedRest)).
Proof. reflexivity. Qed.

(** X5.  In a map built from valid intervals that list the renamed
    identifiers in increasing order, [initRenameIds] and [initRenameSeq]
    rename a non-empty list of identifiers to the same list: starting the scan at the index found by
    [findIndexOfIdOrPredecessor] for the first identifier, rather than at
    [-1], does not change any renaming. *)
Theorem initRenameIds_initRenameSeq idsToRename :
  idsToRename <> [] ->
  RenamingMap.initRenameIds this idsToRename = RenamingMap.initRenameSeq this idsToRename.
Proof.
  destruct idsToRename as [|id rest]; [congruence|]. intros _.
  destruct (findIndexOfIdOrPredecessor_predecessorIndex id) as (k & Hrun & Hk).
  assert (Einit : RenamingMap.initRenameIds this (id :: rest)
                  = RenamingMap.renameLoop this (id :: rest) k).
  { unfold RenamingMap.initRenameIds, RenamingMap.renameIds.
    change (arrayAt (id :: rest) 0) with (Some id).
    cbn [mbind option_bind]. now rewrite Hrun. }
  rewrite Einit. unfold RenamingMap.initRenameSeq, RenamingMap.renameIds.
  pose proof total_pos as Ht. pose proof R_length as HR.
  destruct (advance_predecessorIndex id (-1)) as (k1 & Hadv1 & Hk1); [lia|intros; lia|].
  destruct Hk as (Hrange & Hlo & Hhi).
  destruct (advance_predecessorIndex id k Hrange Hlo) as (k2 & Hadv2 & Hk2).
  assert (k1 = k2) by exact (predecessorIndex_unique id k1 k2 Hk1 Hk2). subst k2.
  rewrite !renameLoop_cons. now rewrite Hadv1, Hadv2.
Qed.

(** *** Batches of identifiers *)

Lemma renameAt_total id k :
  -1 <= k <= arrayLength R - 1 ->
  exists renamed, RenamingMap.renameAt this id k = Some renamed.
Proof.
  intros Hk.
  destruct this_getters as (first & last & x & Hfirst & Hlast & Hx & Hf & Hl & Hnr & _).
  unfold RenamingMap.renameAt. fold R.
  destruct (Z.eqb_spec k (-1)) as [->|Hk1].
  - rewrite (renameIdLessThanFirstId_eq id first _ Hf Hnr). eauto.
  - destruct (Z.ltb_spec k (arrayLength R)); [|lia].
    destruct (arrayAt_lt R k ltac:(lia)) as [a Ha]. rewrite Ha. simpl.
    case_bool_decide.
    + rewrite (renameIdFromIndex_eq k _ Hnr). eauto.
    + destruct (Z.eqb_spec k (arrayLength R - 1)) as [Hlastk|Hlastk].
      * rewrite (renameIdGreaterThanLastId_eq id last _ Hl Hnr). eauto.
      * destruct (arrayAt_lt R (k + 1) ltac:(lia)) as [b Hb].
        rewrite (renameIdFromPredecessorId_eq id a b k _ Hnr Hb). eauto.
Qed.

Lemma renameLoop_sorted : forall ids ci,
  -1 <= ci <= arrayLength R - 1 ->
  (forall id0, head ids = Some id0 ->
     forall i a, 0 <= i <= ci -> arrayAt R i = Some a ->
       Identifier.compareTo id0 a <> Less) ->
  nondecreasing ids = true ->
  exists renamed,
    RenamingMap.renameLoop this ids ci = Some renamed
    /\ Forall2 (fun id r => RenamingMap.renameId this id = Some r) ids renamed.
Proof.
  induction ids as [|id rest IH]; intros ci Hci Hbelow Hsorted.
  - exists []. split; [reflexivity|constructor].
  - destruct (advance_predecessorIndex id ci Hci (Hbelow id eq_refl))
      as (k & Hadv & Hk).
    pose proof total_pos as Ht. pose proof R_length as HR.
    destruct (advance_predecessorIndex id (-1)) as (k' & Hadv' & Hk');
      [lia|intros; lia|].
    assert (k' = k) by exact (predecessorIndex_unique id k' k Hk' Hk). subst k'.
    pose proof Hk as (Hrange & Hlo & _).
    destruct (renameAt_total id k Hrange) as (r & Hr).
    destruct (IH k Hrange) as (rs & Hrs & Hall).
    { intros id2 Hhead i a Hi Ha.
      destruct rest as [|b rest']; [discriminate|]. injection Hhead as ->.
      simpl in Hsorted. apply andb_true_iff in Hsorted as [Hle _].
      apply negb_true_iff, bool_decide_eq_false in Hle.
      apply (id_le_trans _ id); [now apply (Hlo i)|exact Hle]. }
    { simpl in Hsorted. destruct rest; trivial.
      now apply andb_true_iff in Hsorted. }
    exists (r :: rs). split.
    + rewrite renameLoop_cons, Hadv. cbn [mbind option_bind].
      rewrite Hr. cbn [mbind option_bind]. now rewrite Hrs.
    + constructor; trivial. rewrite renameId_unfold, Hadv'. exact Hr.
Qed.

(** X6.  In a map built from valid intervals that list the renamed
    identifiers in increasing order, [renameIds] never throws on a batch of
    identifiers listed in the order of the sequence: [initRenameSeq] and [initRenameIds] return one
    renaming per identifier, and each is the renaming the identifier gets
    when it is renamed alone. *)
Theorem renameIds_sorted_batch idsToRename :
  nondecreasing idsToRename = true ->
  exists renamed,
    RenamingMap.initRenameSeq this idsToRename = Some renamed
    /\ (idsToRename <> [] -> RenamingMap.initRenameIds this idsToRename = Some renamed)
    /\ Forall2 (fun id r => RenamingMap.renameId this id = Some r) idsToRename renamed.
Proof.
  intros Hsorted. pose proof total_pos as Ht. pose proof R_length as HR.
  destruct (renameLoop_sorted idsToRename (-1)) as (renamed & Hrun & Hall);
    [lia|intros; lia|exact Hsorted|].
  exists renamed. split; [exact Hrun|]. split; [|exact Hall].
  intros Hne.
  destruct idsToRename as [|id rest]; [congruence|].
  destruct (findIndexOfIdOrPredecessor_predecessorIndex id) as (k & Hfind & Hk).
  unfold RenamingMap.initRenameIds, RenamingMap.renameIds.
  change (arrayAt (id :: rest) 0) with (Some id).
  cbn [mbind option_bind]. rewrite Hfind. cbn [mbind option_bind].
  destruct (advance_predecessorIndex id (-1)) as (k1 & Hadv1 & Hk1); [lia|intros; lia|].
  destruct Hk as (Hrange & Hlo & Hhi).
  destruct (advance_predecessorIndex id k Hrange Hlo) as (k2 & Hadv2 & Hk2).
  assert (k1 = k2) by exact (predecessorIndex_unique id k1 k2 Hk1 Hk2). subst k2.
  unfold RenamingMap.initRenameSeq, RenamingMap.renameIds in Hrun.
  rewrite renameLoop_cons in Hrun |- *. now rewrite Hadv2, <- Hadv1.
Qed.

(** *** The identifiers that have been renamed *)

Lemma hasBeenRenamed_eq id nr :
  RenamingMap.newRandom this = Some nr ->
  RenamingMap.hasBeenRenamed this id
  = Some (Identifier.equalsBase id [IdentifierTuple.mk nr replicaNumber clock 0]
          && (0 <=? Identifier.lastOffset id)
          && (Identifier.lastOffset id <=? RenamingMap.maxOffset this)).
Proof.
  intros Hnr. unfold RenamingMap.hasBeenRenamed, RenamingMap.newFirstId.
  rewrite Hnr. simpl. now rewrite this_replicaNumber, this_clock.
Qed.

Lemma hasBeenRenamed_true id nr :
  RenamingMap.newRandom this = Some nr ->
  (RenamingMap.hasBeenRenamed this id = Some true
   <-> exists k, 0 <= k <= RenamingMap.maxOffset this
                 /\ id = [IdentifierTuple.mk nr replicaNumber clock k]).
Proof.
  intros Hnr. rewrite (hasBeenRenamed_eq id nr Hnr). split.
  - intros [= H]. apply andb_true_iff in H as [H H3]. apply andb_true_iff in H as [H1 H2].
    apply equalsBase_single in H1.
    exists (Identifier.lastOffset id). split; [lia|exact H1].
  - intros (k & Hk & ->). rewrite equalsBase_new.
    unfold Identifier.lastOffset, Identifier.lastTuple. simpl.
    destruct (Z.leb_spec 0 k); [|lia].
    destruct (Z.leb_spec k (RenamingMap.maxOffset this)); [|lia]. reflexivity.
Qed.

(** X7.  [hasBeenRenamed] never throws on a map built from valid intervals
    listing the renamed identifiers in increasing order, and it holds of
    exactly the renamings of the renamed identifiers: the one-tuple
    identifiers [(newRandom, replicaNumber, clock, k)] with
    [0 <= k <= maxOffset]. *)
Theorem hasBeenRenamed_spec id :
  exists b nr,
    RenamingMap.hasBeenRenamed this id = Some b
    /\ RenamingMap.newRandom this = Some nr
    /\ (b = true <->
        exists k, 0 <= k <= RenamingMap.maxOffset this
                  /\ id = [IdentifierTuple.mk nr replicaNumber clock k])
    /\ (b = true <->
        exists k old, arrayAt R k = Some old /\ RenamingMap.renameId this old = Some id).
Proof.
  destruct this_newRandom as (first & x & _ & _ & Hnr).
  pose proof (hasBeenRenamed_true id _ Hnr) as Htrue.
  rewrite (hasBeenRenamed_eq id _ Hnr) in Htrue |- *.
  eexists _, _. split; [reflexivity|]. split; [exact Hnr|].
  assert (Hiff : forall b : bool, Some b = Some true <-> b = true)
    by (intros b; split; congruence).
  rewrite Hiff in Htrue. split; [exact Htrue|]. rewrite Htrue. split.
  - intros (k & Hk & ->). apply R_dense in Hk as [old Hold].
    exists k, old. split; [exact Hold|]. now apply renameId_renamed_eq.
  - intros (k & old & Hold & Hren). exists k.
    rewrite (renameId_renamed_eq k old _ Hnr Hold) in Hren. injection Hren as <-.
    split; trivial. apply R_dense. now exists old.
Qed.

(** X8.  In a map built from valid intervals that list the renamed
    identifiers in increasing order, [renameId] undoes [reverseRenameId] on
    the identifiers that have been renamed: [reverseRenameId] returns the renamed identifier whose new
    offset is the offset of [id], and renaming it gives [id] back. *)
Theorem renameId_reverseRenameId_renamed id :
  RenamingMap.hasBeenRenamed this id = Some true ->
  exists old,
    RenamingMap.reverseRenameId this id = Some old
    /\ arrayAt R (Identifier.lastOffset id) = Some old
    /\ RenamingMap.renameId this old = Some id.
Proof.
  intros Hren. destruct this_newRandom as (first & x & _ & _ & Hnr).
  apply (hasBeenRenamed_true id _ Hnr) in Hren as (k & Hk & ->).
  apply R_dense in Hk as [old Hold]. exists old.
  split; [now apply reverseRenameId_renamed|]. split.
  - unfold Identifier.lastOffset, Identifier.lastTuple. simpl. exact Hold.
  - now apply renameId_renamed_eq.
Qed.

(** *** The size of a renaming *)

Lemma markedb_tail p x id :
  markedb p x id = true -> Identifier.getTail id (Identifier.length p + 1) <> [].
Proof.
  intros H. apply markedb_spec in H as (tail & Hne & Hid).
  now rewrite (marked_tail p x id tail Hne Hid).
Qed.

Lemma getTail_length id n :
  Identifier.length (Identifier.getTail id n) <= Identifier.length id.
Proof.
  unfold Identifier.length, Identifier.getTail, arrayLength. rewrite length_drop. lia.
Qed.

Lemma renameAt_length id k :
  -1 <= k <= arrayLength R - 1 ->
  exists renamed,
    RenamingMap.renameAt this id k = Some renamed
    /\ Identifier.length renamed <= Identifier.length id + 1
    /\ (id <> [] -> renamed <> []).
Proof.
  intros Hk.
  destruct this_getters as (first & last & x & Hfirst & Hlast & Hx & Hf & Hl & Hnr & _).
  assert (Hcons : forall (y : Tuple) (X : Identifier),
            Identifier.length X <= Identifier.length id ->
            Identifier.length ([y] ++ X) <= Identifier.length id + 1
            /\ (id <> [] -> [y] ++ X <> [])).
  { intros y X HX. split; [|discriminate].
    unfold Identifier.length, arrayLength in *. simpl. lia. }
  unfold RenamingMap.renameAt. fold R.
  destruct (Z.eqb_spec k (-1)) as [->|Hk1].
  - rewrite (renameIdLessThanFirstId_eq id first _ Hf Hnr). eexists. split; [reflexivity|].
    destruct (markedb _ _ id); [apply Hcons, getTail_length|].
    case_bool_decide; [split; [lia|trivial]|apply Hcons; lia].
  - destruct (Z.ltb_spec k (arrayLength R)); [|lia].
    destruct (arrayAt_lt R k ltac:(lia)) as [a Ha]. rewrite Ha. simpl.
    case_bool_decide.
    + rewrite (renameIdFromIndex_eq k _ Hnr). eexists. split; [reflexivity|].
      split; [|discriminate]. unfold Identifier.length, arrayLength. simpl. lia.
    + destruct (Z.eqb_spec k (arrayLength R - 1)) as [Hlastk|Hlastk].
      * rewrite (renameIdGreaterThanLastId_eq id last _ Hl Hnr).
        eexists. split; [reflexivity|].
        destruct (bool_decide _ && markedb last IdFactory.MIN_TUPLE id) eqn:E.
        -- apply andb_true_iff in E as [_ E].
           split; [pose proof (getTail_length id (Identifier.length last + 1)); lia|].
           intros _. now apply (markedb_tail last IdFactory.MIN_TUPLE).
        -- clear E. case_bool_decide; [split; [lia|trivial]|apply Hcons; lia].
      * destruct (arrayAt_lt R (k + 1) ltac:(lia)) as [b Hb].
        rewrite (renameIdFromPredecessorId_eq id a b k _ Hnr Hb).
        eexists. split; [reflexivity|]. apply Hcons.
        repeat match goal with
               | |- context [if ?c then _ else _] => destruct c
               end; try apply getTail_length; lia.
Qed.

(** X9.  In a map built from valid intervals that list the renamed
    identifiers in increasing order, renaming never throws, never empties an
    identifier and adds at most one tuple to it: for every identifier, [renameIds] returns an
    identifier with at most one tuple more. *)
Theorem renameId_length id :
  exists renamed,
    RenamingMap.renameId this id = Some renamed
    /\ Identifier.length renamed <= Identifier.length id + 1
    /\ (id <> [] -> renamed <> []).
Proof.
  pose proof total_pos as Ht. pose proof R_length as HR.
  destruct (advance_predecessorIndex id (-1)) as (k & Hadv & Hk & _);
    [lia|intros; lia|].
  destruct (renameAt_length id k Hk) as (renamed & Hr & Hlen).
  exists renamed. split; [|exact Hlen].
  now rewrite renameId_unfold, Hadv.
Qed.

(** ** The extended map built by its constructor *)

Lemma ext_renameIdRec_unfold (e : ExtendedRenamingMap.t) fuel id :
  ExtendedRenamingMap.renameIdRec e (S fuel) id
  = (first ← arrayAt (ExtendedRenamingMap.renamedIds e) 0;
     last ← arrayAt (ExtendedRenamingMap.renamedIds e)
              (arrayLength (ExtendedRenamingMap.renamedIds e) - 1);
     if bool_decide (Identifier.compareTo id first = Less)
        || bool_decide (Identifier.compareTo last id = Less)
     then Some id
     else match ExtendedRenamingMap.lookupOffset e (Identifier.replicaNumber id)
                  (Identifier.clock id) (Identifier.lastOffset id) with
          | Some newOffset =>
              random ← ExtendedRenamingMap.newRandom e;
              Some (IdFactory.createAtPosition (ExtendedRenamingMap.replicaNumber e)
                      (ExtendedRenamingMap.clock e) random newOffset)
          | None =>
              predecessorId ←
                Helpers.findPredecessor (ExtendedRenamingMap.renamedIds e) id
                  Identifier.compareTo;
              newPredecessorId ← ExtendedRenamingMap.renameIdRec e fuel predecessorId;
              Some (Identifier.concat newPredecessorId id)
          end).
Proof. reflexivity. Qed.

Lemma findLast_member key l n a :
  a ∈ l -> keyOf a = key -> is_Some (findLast key l n).
Proof.
  intros Hin Hkey. destruct (findLast key l n) eqn:E; [eauto|].
  now destruct (findLast_None key l n E a Hin).
Qed.

Lemma findLast_last key l : forall n j (k : nat) a,
  findLast key l n = Some j -> l !! k = Some a -> keyOf a = key ->
  n + Z.of_nat k <= j.
Proof.
  induction l as [|x l IH]; intros n j k a Hfind Hk Hkey; [discriminate|].
  simpl in Hfind. destruct (findLast key l (n + 1)) as [j'|] eqn:E.
  - injection Hfind as <-. destruct k as [|k]; simpl in Hk.
    + destruct (findLast_Some key l (n + 1) j' E) as (b & Hb & _).
      apply arrayAt_bound in Hb. lia.
    + pose proof (IH (n + 1) j' k a E Hk Hkey). lia.
  - destruct k as [|k]; simpl in Hk.
    + case_bool_decide; [|discriminate]. injection Hfind as <-. lia.
    + exfalso. apply (findLast_None key l (n + 1) E a); trivial.
      eapply list_elem_of_lookup_2; eauto.
Qed.

#[local] Arguments ExtendedRenamingMap.renameIdRec : simpl never.

Lemma ext_renameIdRec_member e p :
  ExtendedRenamingMap.new replicaNumber clock ivs = Some e ->
  p ∈ R ->
  exists r, forall fuel, ExtendedRenamingMap.renameIdRec e (S fuel) p = Some r.
Proof.
  intros He Hin.
  destruct (ext_facts e He) as (Hrep & Hclk & HR & _ & _ & Hlook).
  destruct this_getters as (first & last & x & Hfirst & Hlast & _ & _ & _ & Hnr & _).
  destruct (findLast_member (keyOf p) R 0 p Hin eq_refl) as [j Hj].
  destruct (bool_decide (Identifier.compareTo p first = Less)
            || bool_decide (Identifier.compareTo last p = Less)) eqn:Hout;
    eexists; intros fuel; rewrite ext_renameIdRec_unfold, HR, Hfirst, Hlast; simpl;
    rewrite Hout; [reflexivity|].
  rewrite Hlook. fold (keyOf p). rewrite Hj, (ext_newRandom e He), Hnr. reflexivity.
Qed.

(** X10.  [ExtendedRenamingMap.renameId] never throws on a map built from a
    non-empty list of valid intervals, and it calls itself at most once: the
    predecessor it renames is a renamed identifier, which is found in the
    map or lies outside the range.  Whatever the depth of calls allowed, from
    two on, the result is the same. *)
Theorem extended_renameId_total :
  exists e,
    ExtendedRenamingMap.new replicaNumber clock ivs = Some e
    /\ forall id,
         exists renamed,
           ExtendedRenamingMap.renameId e id = Some renamed
           /\ forall fuel, (2 <= fuel)%nat ->
                ExtendedRenamingMap.renameIdRec e fuel id = Some renamed.
Proof.
  destruct extended_new as (e & He & Hrep & Hclk & HR & _ & _ & Hlook).
  exists e. split; [exact He|]. intros id.
  destruct this_getters as (first & last & x & Hfirst & Hlast & _ & _ & _ & Hnr & _).
  assert (H : exists r, forall fuel,
                ExtendedRenamingMap.renameIdRec e (S (S fuel)) id = Some r).
  { destruct (bool_decide (Identifier.compareTo id first = Less)
              || bool_decide (Identifier.compareTo last id = Less)) eqn:Hout.
    { exists id. intros fuel. rewrite ext_renameIdRec_unfold, HR, Hfirst, Hlast. simpl.
      now rewrite Hout. }
    destruct (findLast (keyOf id) R 0) as [j|] eqn:Hkey.
    { eexists. intros fuel. rewrite ext_renameIdRec_unfold, HR, Hfirst, Hlast. simpl.
      rewrite Hout, Hlook. fold (keyOf id).
      rewrite Hkey, (ext_newRandom e He), Hnr. reflexivity. }
    pose proof Hout as Hout'.
    apply orb_false_iff in Hout' as [Hf _]. apply bool_decide_eq_false in Hf.
    assert (Hlt : Identifier.compareTo first id = Less).
    { apply id_not_Less in Hf as [->|Hf]; trivial. exfalso.
      apply (findLast_None _ _ _ Hkey first); trivial.
      apply arrayAt_Some in Hfirst as [_ Hfirst]. eapply list_elem_of_lookup_2; eauto. }
    destruct (findPredecessor_fold R id None) as [Hmem Hex]; [discriminate|].
    cbn zeta in Hmem, Hex.
    destruct (Hex first) as (p & Hp & _); trivial.
    { right. apply arrayAt_Some in Hfirst as [_ Hfirst].
      eapply list_elem_of_lookup_2; eauto. }
    destruct (Hmem p Hp) as [_ [Hin|Hin]]; [discriminate|].
    destruct (ext_renameIdRec_member e p He Hin) as (r & Hr).
    exists (Identifier.concat r id). intros fuel.
    rewrite ext_renameIdRec_unfold, HR, Hfirst, Hlast. simpl.
    rewrite Hout, Hlook. fold (keyOf id). rewrite Hkey.
    unfold Helpers.findPredecessor. rewrite Hp. simpl. now rewrite Hr. }
  destruct H as (r & Hr). exists r. split; [exact (Hr 0%nat)|].
  intros fuel Hfuel. destruct fuel as [|[|fuel]]; try lia. apply Hr.
Qed.

(** X11.  [ExtendedRenamingMap.fromRenamingMap] builds, from a map with a
    non-empty list of valid intervals, an extended map with the same bounds:
    the same [firstId], [lastId], [newRandom], [newFirstId], [newLastId] and
    [maxOffset], and the same [hasBeenRenamed]. *)
Theorem fromRenamingMap_getters :
  exists e,
    ExtendedRenamingMap.fromRenamingMap this = Some e
    /\ ExtendedRenamingMap.new replicaNumber clock ivs = Some e
    /\ ExtendedRenamingMap.firstId e = RenamingMap.firstId this
    /\ ExtendedRenamingMap.lastId e = RenamingMap.lastId this
    /\ ExtendedRenamingMap.newRandom e = RenamingMap.newRandom this
    /\ ExtendedRenamingMap.newFirstId e = RenamingMap.newFirstId this
    /\ ExtendedRenamingMap.newLastId e = RenamingMap.newLastId this
    /\ ExtendedRenamingMap.maxOffset e = RenamingMap.maxOffset this
    /\ (forall id,
          ExtendedRenamingMap.hasBeenRenamed e id = RenamingMap.hasBeenRenamed this id).
Proof.
  destruct extended_new as (e & He & Hrep & Hclk & HR & Hmax & _).
  exists e.
  destruct R_first as (first & Hfirst & Hf). destruct R_last as (last & Hlast & Hl).
  pose proof (ext_newRandom e He) as Hnr.
  assert (Hnf : ExtendedRenamingMap.newFirstId e = RenamingMap.newFirstId this).
  { unfold ExtendedRenamingMap.newFirstId, RenamingMap.newFirstId.
    now rewrite Hnr, Hrep, Hclk, this_replicaNumber, this_clock. }
  split; [unfold ExtendedRenamingMap.fromRenamingMap;
          now rewrite this_replicaNumber, this_clock, this_intervals|].
  split; [exact He|].
  split; [unfold ExtendedRenamingMap.firstId; now rewrite HR, Hfirst, Hf|].
  split; [unfold ExtendedRenamingMap.lastId; now rewrite HR, Hlast, Hl|].
  split; [exact Hnr|]. split; [exact Hnf|].
  split; [unfold ExtendedRenamingMap.newLastId, RenamingMap.newLastId;
          now rewrite Hnr, Hrep, Hclk, Hmax, this_replicaNumber, this_clock|].
  split; [exact Hmax|].
  intros id. unfold ExtendedRenamingMap.hasBeenRenamed, RenamingMap.hasBeenRenamed.
  now rewrite Hnf, Hmax.
Qed.

(** X12.  The constructor of [ExtendedRenamingMap] files the renamed
    identifiers of a non-empty list of valid intervals in order:
    [newOffsetToOldIdMap] sends each new offset to its renamed identifier
    and no other number to anything; the nested [map] sends the key
    [(replicaNumber, clock, lastOffset)] of a renamed identifier to the new
    offset of the last renamed identifier filed under that key, which is
    the identifier's own when the keys are pairwise distinct, and it has no
    entry for a key of none of them. *)
Theorem extended_constructor_maps :
  exists e,
    ExtendedRenamingMap.new replicaNumber clock ivs = Some e
    /\ ExtendedRenamingMap.renamedIds e = R
    /\ (forall k, ExtendedRenamingMap.newOffsetToOldIdMap e !! k = arrayAt R k)
    /\ (forall k id, arrayAt R k = Some id ->
          exists j old,
            ExtendedRenamingMap.lookupOffset e (Identifier.replicaNumber id)
              (Identifier.clock id) (Identifier.lastOffset id) = Some j
            /\ k <= j
            /\ ExtendedRenamingMap.newOffsetToOldIdMap e !! j = Some old
            /\ keyOf old = keyOf id
            /\ (NoDup (keyOf <$> R) -> j = k))
    /\ (forall r c o, (r, c, o) ∉ (keyOf <$> R) ->
          ExtendedRenamingMap.lookupOffset e r c o = None).
Proof.
  destruct extended_new as (e & He & _ & _ & HR & _ & Hmap & Hlook).
  exists e. split; [exact He|]. split; [exact HR|]. split; [exact Hmap|]. split.
  - intros k id Hid. apply arrayAt_Some in Hid as [Hk0 Hid].
    assert (Hin : id ∈ R) by (eapply list_elem_of_lookup_2; eauto).
    destruct (findLast_member (keyOf id) R 0 id Hin eq_refl) as [j Hj].
    destruct (findLast_Some _ _ _ _ Hj) as (old & Hold & Hkey).
    rewrite Z.sub_0_r in Hold.
    exists j, old. rewrite Hlook. fold (keyOf id).
    split; [exact Hj|]. split.
    { pose proof (findLast_last _ _ _ _ _ _ Hj Hid eq_refl). lia. }
    split; [now rewrite Hmap|]. split; [exact Hkey|].
    intros Hnd. rewrite (findLast_NoDup R 0 _ id Hnd Hid) in Hj.
    injection Hj as <-. lia.
  - intros r c o Hkey. rewrite Hlook. now apply findLast_absent.
Qed.

(** ** The renamed identifiers in the new space *)

(** X17.  In a map built from valid intervals that list the renamed
    identifiers in increasing order, the renaming sends [firstId] to
    [newFirstId] and [lastId] to [newLastId], and it keeps the renamed
    identifiers in their order: the renamings of two renamed identifiers are
    ordered as the identifiers are, between [newFirstId] and [newLastId]. *)
Theorem renameId_renamed_order :
  exists first last newFirst newLast,
    RenamingMap.firstId this = Some first
    /\ RenamingMap.lastId this = Some last
    /\ RenamingMap.newFirstId this = Some newFirst
    /\ RenamingMap.newLastId this = Some newLast
    /\ RenamingMap.renameId this first = Some newFirst
    /\ RenamingMap.renameId this last = Some newLast
    /\ Identifier.compareTo newLast newFirst <> Less
    /\ forall i j a b,
         i < j -> arrayAt R i = Some a -> arrayAt R j = Some b ->
         exists ra rb,
           RenamingMap.renameId this a = Some ra
           /\ RenamingMap.renameId this b = Some rb
           /\ Identifier.compareTo a b = Less
           /\ Identifier.compareTo ra rb = Less
           /\ Identifier.compareTo ra newFirst <> Less
           /\ Identifier.compareTo newLast rb <> Less.
Proof.
  destruct this_getters as (first & last & x & Hfirst & Hlast & Hx & Hf & Hl & Hnr
                            & Hnf & Hnl).
  pose proof total_pos as Ht. pose proof this_maxOffset as Hmax.
  eexists first, last, _, _.
  split; [exact Hf|]. split; [exact Hl|]. split; [exact Hnf|]. split; [exact Hnl|].
  split; [exact (renameId_renamed_eq 0 first _ Hnr Hfirst)|].
  split.
  { rewrite (renameId_renamed_eq _ last _ Hnr Hlast). do 3 f_equal.
    rewrite R_length. lia. }
  assert (Hle : forall a b, a <= b ->
            Identifier.compareTo [IdentifierTuple.mk (IdentifierTuple.random x)
                                    replicaNumber clock b]
                                 [IdentifierTuple.mk (IdentifierTuple.random x)
                                    replicaNumber clock a] <> Less).
  { intros a b Hab. destruct (Z.eq_dec a b) as [->|Hne]; [apply id_lt_irrefl|].
    apply id_lt_asym, new_lt_head. lia. }
  split; [apply Hle; lia|].
  intros i j a b Hij Ha Hb.
  pose proof (arrayAt_bound _ _ _ Ha) as Hi. pose proof (arrayAt_bound _ _ _ Hb) as Hj.
  rewrite R_length in Hi, Hj.
  eexists _, _.
  split; [exact (renameId_renamed_eq i a _ Hnr Ha)|].
  split; [exact (renameId_renamed_eq j b _ Hnr Hb)|].
  split; [exact (R_sorted i j a b Hij Ha Hb)|].
  split; [apply new_lt_head; lia|].
  split; apply Hle; lia.
Qed.

(** *** Where [reverseRenameId] throws *)

Lemma first_le_last first last :
  arrayAt R 0 = Some first -> arrayAt R (arrayLength R - 1) = Some last ->
  Identifier.compareTo last first <> Less.
Proof.
  intros Hfirst Hlast. pose proof (arrayAt_bound _ _ _ Hlast).
  apply (R_sorted_le 0 (arrayLength R - 1)); trivial. lia.
Qed.

Lemma findPositionFromIndex_above index :
  RenamingMap.maxOffset this < index ->
  RenamingMap.findPositionFromIndex this index = None.
Proof.
  rewrite this_maxOffset. intros Hidx.
  unfold RenamingMap.findPositionFromIndex. rewrite this_intervals.
  apply findPositionLoop_above; trivial; unfold arrayLength; lia.
Qed.

Lemma reverseRenameId_closestPredecessor first nr :
  arrayAt R 0 = Some first ->
  RenamingMap.newRandom this = Some nr ->
  Identifier.compareTo first [IdentifierTuple.mk nr replicaNumber clock (-1)] <> Less ->
  RenamingMap.reverseRenameId this [IdentifierTuple.mk nr replicaNumber clock (-1)] = None.
Proof.
  intros Hfirst Hnr Hge.
  destruct this_getters as (first' & last & x & Hfirst' & Hlast & Hx & Hf & Hl & Hnr'
                            & Hnf & Hnl).
  assert (first' = first) by congruence. subst first'.
  assert (nr = IdentifierTuple.random x) by congruence. subst nr.
  set (nr := IdentifierTuple.random x) in *.
  pose proof total_pos as Ht. pose proof this_maxOffset as Hmax.
  set (r := [IdentifierTuple.mk nr replicaNumber clock (-1)]) in *.
  unfold RenamingMap.reverseRenameId, RenamingMap.hasBeenRenamed.
  rewrite Hnf, Hf, Hl, Hnl, Hnr'. simpl. fold nr.
  rewrite !fromBase_single. unfold Identifier.lastOffset, IdentifierTuple.fromBase. simpl.
  change (0 - 1) with (-1). fold r.
  rewrite (bool_decide_eq_false_2 _ Hge).
  rewrite (bool_decide_eq_false_2 _ (id_lt_irrefl r)). simpl.
  assert (E2 : bool_decide (Identifier.compareTo
                 (if bool_decide (Identifier.compareTo last
                        [IdentifierTuple.mk nr replicaNumber clock (RenamingMap.maxOffset this)]
                      = Greater)
                  then last
                  else [IdentifierTuple.mk nr replicaNumber clock
                          (RenamingMap.maxOffset this + 1)]) r = Less) = false).
  { destruct (bool_decide (Identifier.compareTo last _ = Greater)).
    - apply bool_decide_eq_false_2.
      apply (id_le_trans _ first); [exact Hge|now apply first_le_last].
    - apply bool_decide_eq_false_2. apply id_lt_asym. apply new_lt_head. lia. }
  rewrite E2. simpl.
  rewrite bool_decide_eq_true_2 by (apply new_lt_head; lia).
  unfold r, Identifier.getTail, Identifier.tupleAt.
  rewrite equalsBase_new. reflexivity.
Qed.

Lemma reverseRenameId_closestSuccessor last nr :
  arrayAt R (arrayLength R - 1) = Some last ->
  RenamingMap.newRandom this = Some nr ->
  Identifier.compareTo last
    [IdentifierTuple.mk nr replicaNumber clock (RenamingMap.maxOffset this)] <> Greater ->
  RenamingMap.reverseRenameId this
    [IdentifierTuple.mk nr replicaNumber clock (RenamingMap.maxOffset this + 1)] = None.
Proof.
  intros Hlast Hnr Hle.
  destruct this_getters as (first & last' & x & Hfirst & Hlast' & Hx & Hf & Hl & Hnr'
                            & Hnf & Hnl).
  assert (last' = last) by congruence. subst last'.
  assert (nr = IdentifierTuple.random x) by congruence. subst nr.
  set (nr := IdentifierTuple.random x) in *.
  pose proof total_pos as Ht. pose proof this_maxOffset as Hmax.
  set (m := RenamingMap.maxOffset this) in *.
  set (r := [IdentifierTuple.mk nr replicaNumber clock (m + 1)]) in *.
  set (newLast := [IdentifierTuple.mk nr replicaNumber clock m]) in *.
  assert (Hnr_lt : Identifier.compareTo newLast r = Less) by (apply new_lt_head; lia).
  assert (Hlast_le : Identifier.compareTo r last <> Less).
  { intros Hlt. apply Hle. apply id_Greater. eapply id_lt_trans; eauto. }
  unfold RenamingMap.reverseRenameId, RenamingMap.hasBeenRenamed.
  rewrite Hnf, Hf, Hl, Hnl, Hnr'. fold m. simpl. fold nr.
  rewrite !fromBase_single. unfold Identifier.lastOffset, IdentifierTuple.fromBase. simpl.
  change (0 - 1) with (-1). fold r. fold newLast.
  unfold r at 1. rewrite equalsBase_new.
  destruct (Z.leb_spec 0 (m + 1)); [|lia].
  destruct (Z.leb_spec (m + 1) m); [lia|]. simpl.
  rewrite (bool_decide_eq_false_2 _ Hle).
  rewrite (bool_decide_eq_false_2 _ (id_lt_irrefl r)).
  assert (E1 : bool_decide (Identifier.compareTo r
                 (if bool_decide (Identifier.compareTo first
                        [IdentifierTuple.mk nr replicaNumber clock (-1)] = Less)
                  then first
                  else [IdentifierTuple.mk nr replicaNumber clock (-1)]) = Less) = false).
  { assert (Hlow : Identifier.compareTo [IdentifierTuple.mk nr replicaNumber clock (-1)] r
                   = Less) by (apply new_lt_head; lia).
    destruct (decide (Identifier.compareTo first
                [IdentifierTuple.mk nr replicaNumber clock (-1)] = Less)) as [Hc|Hc];
      [rewrite (bool_decide_eq_true_2 _ Hc)|rewrite (bool_decide_eq_false_2 _ Hc)];
      apply bool_decide_eq_false_2; apply id_lt_asym.
    - eapply id_lt_trans; [exact Hc|exact Hlow].
    - exact Hlow. }
  rewrite E1. simpl.
  rewrite (bool_decide_eq_false_2 (Identifier.compareTo r _ = Less))
    by (apply id_lt_asym, new_lt_head; lia).
  assert (E3 : Identifier.fromBase newLast (m + 1) = r) by reflexivity.
  rewrite E3, (bool_decide_eq_false_2 _ (id_lt_irrefl r)), andb_false_r.
  rewrite (bool_decide_eq_false_2 _ Hlast_le), andb_false_r.
  unfold RenamingMap.findPredecessorAndSuccessorFromIndex.
  rewrite findPositionFromIndex_above by (fold m; lia). reflexivity.
Qed.

(** X18.  In a map built from valid intervals that list the renamed
    identifiers in increasing order, [reverseRenameId] throws on the two
    one-tuple identifiers next to the new range, which no renaming
    produces, when they do not lie outside the old range: on
    [closestPredecessor(newFirstId)] when [firstId] is not below it, where
    it reads the first tuple of an empty tail, and on
    [closestSuccessor(newLastId)] when [lastId] is not above [newLastId],
    where it looks for the renamed identifier of new offset
    [maxOffset + 1]. *)
Theorem reverseRenameId_throws :
  exists first last newFirst newLast,
    RenamingMap.firstId this = Some first
    /\ RenamingMap.lastId this = Some last
    /\ RenamingMap.newFirstId this = Some newFirst
    /\ RenamingMap.newLastId this = Some newLast
    /\ (Identifier.compareTo first (closestPredecessor newFirst) <> Less ->
        RenamingMap.reverseRenameId this (closestPredecessor newFirst) = None)
    /\ (Identifier.compareTo last newLast <> Greater ->
        RenamingMap.reverseRenameId this (closestSuccessor newLast) = None).
Proof.
  destruct this_getters as (first & last & x & Hfirst & Hlast & Hx & Hf & Hl & Hnr
                            & Hnf & Hnl).
  eexists first, last, _, _.
  split; [exact Hf|]. split; [exact Hl|]. split; [exact Hnf|]. split; [exact Hnl|].
  rewrite closestPredecessor_single, closestSuccessor_single. split.
  - intros Hge. now apply (reverseRenameId_closestPredecessor first).
  - intros Hle. now apply (reverseRenameId_closestSuccessor last).
Qed.

(** ** The two searches together *)

(** X19.  In a map built from valid intervals that list the renamed
    identifiers in increasing order, the search by identifier and the search
    by index are inverse of each other on the renamed identifiers:
    [findIndexOfIdOrPredecessor] of the renamed identifier of new offset [k]
    is [k], and [findIdFromIndex(k)] is that identifier. *)
Theorem findIndex_findId_inverse :
  (forall k, 0 <= k <= RenamingMap.maxOffset this ->
     exists id,
       RenamingMap.findIdFromIndex this k = Some id
       /\ RenamingMap.findIndexOfIdOrPredecessor this id = Some k)
  /\ (forall id, id ∈ R ->
        exists k,
          RenamingMap.findIndexOfIdOrPredecessor this id = Some k
          /\ RenamingMap.findIdFromIndex this k = Some id).
Proof.
  assert (H : forall k id, arrayAt R k = Some id ->
            RenamingMap.findIdFromIndex this k = Some id
            /\ RenamingMap.findIndexOfIdOrPredecessor this id = Some k).
  { intros k id Hid. pose proof (arrayAt_bound _ _ _ Hid) as Hk.
    rewrite R_length in Hk. split; [now rewrite findIdFromIndex_eq|].
    destruct (findIndexOfIdOrPredecessor_predecessorIndex id)
      as (k' & Hrun & Hrange & Hlo & Hhi).
    rewrite Hrun. f_equal.
    destruct (Z.lt_total k' k) as [Hlt|[Heq|Hgt]]; trivial; exfalso.
    - apply (id_lt_irrefl id). now apply (Hhi k).
    - destruct (arrayAt_lt R k' ltac:(lia)) as [a Ha].
      apply (Hlo k' a ltac:(lia) Ha). now apply (R_sorted k k'). }
  split.
  - intros k Hk. apply R_dense in Hk as [id Hid]. exists id. now apply H.
  - intros id Hin. apply list_elem_of_lookup in Hin as [k Hk].
    rewrite <- arrayAt_nat in Hk. exists (Z.of_nat k).
    destruct (H _ _ Hk). now split.
Qed.

(** X20.  In a map built from valid intervals that list the renamed
    identifiers in increasing order, [findIndexOfIdOrPredecessor] is
    monotone: an identifier that is not below another one is not given a
    smaller index. *)
Theorem findIndexOfIdOrPredecessor_monotone a b :
  Identifier.compareTo b a <> Less ->
  exists ka kb,
    RenamingMap.findIndexOfIdOrPredecessor this a = Some ka
    /\ RenamingMap.findIndexOfIdOrPredecessor this b = Some kb
    /\ ka <= kb.
Proof.
  intros Hab.
  destruct (findIndexOfIdOrPredecessor_predecessorIndex a)
    as (ka & Hruna & Hrangea & Hloa & Hhia).
  destruct (findIndexOfIdOrPredecessor_predecessorIndex b)
    as (kb & Hrunb & Hrangeb & Hlob & Hhib).
  exists ka, kb. split; [exact Hruna|]. split; [exact Hrunb|].
  destruct (Z.le_gt_cases ka kb) as [|Hgt]; trivial. exfalso.
  destruct (arrayAt_lt R ka ltac:(lia)) as [c Hc].
  apply (id_le_trans c a b); trivial.
  - now apply (Hloa ka c ltac:(lia)).
  - now apply (Hhib ka).
Qed.

(** ** The two [reverseRenameId] compared *)

(** [reverseRenameId] on an identifier that has not been renamed, with the
    getters of the map read. *)
Lemma reverseRenameId_unfold id first last nr :
  RenamingMap.firstId this = Some first ->
  RenamingMap.lastId this = Some last ->
  RenamingMap.newRandom this = Some nr ->
  RenamingMap.hasBeenRenamed this id = Some false ->
  let newFirst := [IdentifierTuple.mk nr replicaNumber clock 0] in
  let newLast := [IdentifierTuple.mk nr replicaNumber clock (RenamingMap.maxOffset this)] in
  RenamingMap.reverseRenameId this id =
  if bool_decide (Identifier.compareTo id (minFirstId first newFirst) = Less)
     || bool_decide (Identifier.compareTo (maxLastId last newLast) id = Less) then
    Some id
  else if bool_decide (Identifier.compareTo id newFirst = Less) then
    tuple ← Identifier.tupleAt (Identifier.getTail id 1) 0;
    if IdentifierTuple.random tuple =? nr then Some (Identifier.getTail id 1)
    else Some (closestPredecessor first ++ [IdFactory.MAX_TUPLE] ++ Identifier.getTail id 1)
  else if bool_decide (Identifier.compareTo last newLast = Less)
          && bool_decide (Identifier.compareTo newLast id = Less)
          && bool_decide (Identifier.compareTo id (closestSuccessor newLast) = Less) then
    if bool_decide (Identifier.compareTo (Identifier.getTail id 1) last = Less) then
      Some (last ++ [IdFactory.MIN_TUPLE] ++ Identifier.getTail id 1)
    else if bool_decide (Identifier.compareTo last (Identifier.getTail id 1) = Less)
            && bool_decide (Identifier.compareTo (Identifier.getTail id 1) newLast = Less) then
      Some (Identifier.getTail id 1)
    else Some id
  else if bool_decide (Identifier.compareTo newLast id = Less)
          && bool_decide (Identifier.compareTo id last = Less) then
    Some (last ++ [IdFactory.MIN_TUPLE] ++ id)
  else
    tuple ← Identifier.tupleAt id 0;
    '(predecessorId, successorId) ←
      RenamingMap.findPredecessorAndSuccessorFromIndex this (IdentifierTuple.offset tuple);
    if bool_decide (Identifier.compareTo (Identifier.getTail id 1) predecessorId = Less) then
      Some (predecessorId ++ [IdFactory.MIN_TUPLE] ++ Identifier.getTail id 1)
    else if bool_decide (Identifier.compareTo successorId (Identifier.getTail id 1) = Less) then
      Some (closestPredecessor successorId ++ [IdFactory.MAX_TUPLE] ++ Identifier.getTail id 1)
    else Some (Identifier.getTail id 1).
Proof.
  intros Hf Hl Hnr Hren newFirst newLast.
  unfold RenamingMap.reverseRenameId, RenamingMap.newFirstId, RenamingMap.newLastId.
  rewrite Hren, Hnr, Hf, Hl. simpl. unfold IdFactory.createAtPosition.
  rewrite this_replicaNumber, this_clock. reflexivity.
Qed.

Lemma findPredecessorAndSuccessorFromIndex_Some o p s :
  RenamingMap.findPredecessorAndSuccessorFromIndex this o = Some (p, s) ->
  arrayAt R o = Some p /\ arrayAt R (o + 1) = Some s.
Proof.
  intros H.
  destruct (Z.lt_ge_cases o 0) as [Hneg|Hpos].
  - exfalso.
    unfold RenamingMap.findPredecessorAndSuccessorFromIndex,
      RenamingMap.findPositionFromIndex in H.
    rewrite (findPositionLoop_below o Hneg) in H; [discriminate|].
    rewrite this_intervals. unfold arrayLength. lia.
  - destruct (Z.lt_total o (RenamingMap.maxOffset this)) as [Hlt|[->|Hgt]].
    + destruct (proj1 (R_dense o) ltac:(lia)) as [a Ha].
      destruct (proj1 (R_dense (o + 1)) ltac:(lia)) as [b Hb].
      rewrite (findPredecessorAndSuccessorFromIndex_eq o a b Ha Hb) in H.
      injection H as <- <-. auto.
    + rewrite findPredecessorAndSuccessorFromIndex_last in H. discriminate.
    + unfold RenamingMap.findPredecessorAndSuccessorFromIndex in H.
      rewrite (findPositionFromIndex_above o Hgt) in H. discriminate.
Qed.

Lemma length_pos {A} (l : list A) : l <> [] -> (0 < List.length l)%nat.
Proof. destruct l; [congruence|simpl; lia]. Qed.

(** An equation between identifiers of different lengths. *)
Ltac by_length H :=
  apply (f_equal (@List.length _)) in H;
  unfold Identifier.getTail, closestPredecessor in H;
  rewrite ?length_app, ?fromBase_length, ?length_drop in H; simpl in H;
  rewrite ?length_drop in H; lia.

Lemma newFirst_le_newLast nr :
  Identifier.compareTo
    [IdentifierTuple.mk nr replicaNumber clock (RenamingMap.maxOffset this)]
    [IdentifierTuple.mk nr replicaNumber clock 0] <> Less.
Proof.
  pose proof total_pos as Ht. pose proof this_maxOffset as Hmax.
  destruct (Z.eq_dec (RenamingMap.maxOffset this) 0) as [->|Hne].
  - apply id_lt_irrefl.
  - apply id_lt_asym, new_lt_head. lia.
Qed.

(** The identifiers, not renamed, that [reverseRenameId] returns
    unchanged. *)
Lemma reverseRenameId_fixed id first last nr :
  arrayAt R 0 = Some first -> arrayAt R (arrayLength R - 1) = Some last ->
  RenamingMap.firstId this = Some first ->
  RenamingMap.lastId this = Some last ->
  RenamingMap.newRandom this = Some nr ->
  RenamingMap.hasBeenRenamed this id = Some false ->
  let newFirst := [IdentifierTuple.mk nr replicaNumber clock 0] in
  let newLast := [IdentifierTuple.mk nr replicaNumber clock (RenamingMap.maxOffset this)] in
  RenamingMap.reverseRenameId this id = Some id
  <-> Identifier.compareTo id (minFirstId first newFirst) = Less
      \/ Identifier.compareTo (maxLastId last newLast) id = Less
      \/ keptAboveLast last newLast id.
Proof.
  intros Hfirst Hlast Hf Hl Hnr Hren newFirst newLast.
  pose proof (length_pos _ (R_nonempty _ _ Hfirst)) as Hfne.
  pose proof (length_pos _ (R_nonempty _ _ Hlast)) as Hlne.
  rewrite (reverseRenameId_unfold id first last nr Hf Hl Hnr Hren).
  cbn zeta. fold newFirst newLast. unfold keptAboveLast.
  destruct (decide (Identifier.compareTo id (minFirstId first newFirst) = Less)) as [A|A];
    [rewrite (bool_decide_eq_true_2 _ A); simpl; tauto|].
  rewrite (bool_decide_eq_false_2 _ A).
  destruct (decide (Identifier.compareTo (maxLastId last newLast) id = Less)) as [B|B];
    [rewrite (bool_decide_eq_true_2 _ B); simpl; tauto|].
  rewrite (bool_decide_eq_false_2 _ B). simpl orb. cbv iota.
  destruct (decide (Identifier.compareTo id newFirst = Less)) as [C|C].
  { rewrite (bool_decide_eq_true_2 _ C). split.
    - intros H. exfalso.
      destruct (Identifier.tupleAt (Identifier.getTail id 1) 0) as [t|] eqn:Ht;
        [|discriminate].
      simpl in H.
      assert (Hid : (0 < List.length id)%nat).
      { destruct id; [discriminate Ht|simpl; lia]. }
      destruct (IdentifierTuple.random t =? nr); injection H as H.
      + by_length H.
      + by_length H.
    - intros [H|[H|(_ & H & _)]]; try contradiction. exfalso.
      apply (newFirst_le_newLast nr). fold newFirst newLast.
      eapply id_lt_trans; eauto. }
  rewrite (bool_decide_eq_false_2 _ C).
  assert (Hid : (0 < List.length id)%nat).
  { destruct id; [|simpl; lia]. exfalso. apply C. reflexivity. }
  assert (Hinside : forall r,
            (tuple ← Identifier.tupleAt id 0;
             '(predecessorId, successorId) ←
               RenamingMap.findPredecessorAndSuccessorFromIndex this
                 (IdentifierTuple.offset tuple);
             if bool_decide (Identifier.compareTo (Identifier.getTail id 1) predecessorId
                             = Less)
             then Some (predecessorId ++ [IdFactory.MIN_TUPLE] ++ Identifier.getTail id 1)
             else if bool_decide (Identifier.compareTo successorId (Identifier.getTail id 1)
                                  = Less)
             then Some (closestPredecessor successorId ++ [IdFactory.MAX_TUPLE]
                        ++ Identifier.getTail id 1)
             else Some (Identifier.getTail id 1)) = r -> r <> Some id).
  { intros r <- H.
    destruct (Identifier.tupleAt id 0) as [t|]; [|discriminate]. simpl in H.
    destruct (RenamingMap.findPredecessorAndSuccessorFromIndex this
                (IdentifierTuple.offset t)) as [[p s]|] eqn:Hps; [|discriminate].
    apply findPredecessorAndSuccessorFromIndex_Some in Hps as [Hp Hs].
    pose proof (length_pos _ (R_nonempty _ _ Hp)) as Hpn.
    pose proof (length_pos _ (R_nonempty _ _ Hs)) as Hsn.
    simpl in H.
    repeat case_bool_decide; injection H as H; by_length H. }
  destruct (decide (Identifier.compareTo newLast id = Less)) as [D2|D2];
    [rewrite (bool_decide_eq_true_2 _ D2)|rewrite (bool_decide_eq_false_2 _ D2)].
  2:{ rewrite !andb_false_r. simpl andb. cbv iota.
      split; [|intros [H|[H|(_ & H & _)]]; contradiction].
      intros H. exfalso. exact (Hinside _ eq_refl H). }
  destruct (decide (Identifier.compareTo last newLast = Less)) as [D1|D1];
    [rewrite (bool_decide_eq_true_2 _ D1)|rewrite (bool_decide_eq_false_2 _ D1)].
  2:{ simpl andb. cbv iota. split; [|intros [H|[H|(H & _)]]; contradiction].
      intros H. exfalso.
      destruct (bool_decide (Identifier.compareTo id last = Less)).
      - injection H as H. by_length H.
      - exact (Hinside _ eq_refl H). }
  destruct (decide (Identifier.compareTo id (closestSuccessor newLast) = Less)) as [D3|D3];
    [rewrite (bool_decide_eq_true_2 _ D3)|rewrite (bool_decide_eq_false_2 _ D3)].
  2:{ simpl andb. cbv iota. split; [|intros [H|[H|(_ & _ & H & _)]]; contradiction].
      intros H. exfalso.
      destruct (bool_decide (Identifier.compareTo id last = Less)).
      - injection H as H. by_length H.
      - exact (Hinside _ eq_refl H). }
  simpl andb. cbv iota.
  destruct (decide (Identifier.compareTo (Identifier.getTail id 1) last = Less)) as [E1|E1];
    [rewrite (bool_decide_eq_true_2 _ E1)|rewrite (bool_decide_eq_false_2 _ E1)].
  { split; [|intros [H|[H|(_ & _ & _ & H & _)]]; contradiction].
    intros H. exfalso. injection H as H. by_length H. }
  destruct (decide (Identifier.compareTo last (Identifier.getTail id 1) = Less
                    /\ Identifier.compareTo (Identifier.getTail id 1) newLast = Less))
    as [[E2 E3]|E2].
  { rewrite (bool_decide_eq_true_2 _ E2), (bool_decide_eq_true_2 _ E3). simpl.
    split; [|intros [H|[H|(_ & _ & _ & _ & H)]]; try contradiction; destruct H; auto].
    intros H. exfalso. injection H as H. by_length H. }
  assert (Eb : bool_decide (Identifier.compareTo last (Identifier.getTail id 1) = Less)
               && bool_decide (Identifier.compareTo (Identifier.getTail id 1) newLast = Less)
               = false).
  { apply not_true_is_false. rewrite andb_true_iff, !bool_decide_eq_true. exact E2. }
  rewrite Eb. split; [|reflexivity]. intros _. right. right. auto 10.
Qed.

(** An identifier above [newLastId] has not been renamed. *)
Lemma hasBeenRenamed_above id nr :
  RenamingMap.newRandom this = Some nr ->
  Identifier.compareTo
    [IdentifierTuple.mk nr replicaNumber clock (RenamingMap.maxOffset this)] id = Less ->
  RenamingMap.hasBeenRenamed this id = Some false.
Proof.
  intros Hnr Hlt.
  destruct (RenamingMap.hasBeenRenamed this id) as [[|]|] eqn:E; trivial.
  - exfalso. apply (hasBeenRenamed_true id nr Hnr) in E as (k & Hk & ->).
    revert Hlt. destruct (Z.eq_dec k (RenamingMap.maxOffset this)) as [->|Hne].
    + apply id_lt_irrefl.
    + apply id_lt_asym, new_lt_head. lia.
  - rewrite (hasBeenRenamed_eq id nr Hnr) in E. discriminate.
Qed.

(** Between [newLastId] and [lastId], [reverseRenameId] prefixes the
    identifier with [lastId] and [MIN_TUPLE]. *)
Lemma reverseRenameId_between_bounds id first last nr :
  arrayAt R 0 = Some first -> arrayAt R (arrayLength R - 1) = Some last ->
  RenamingMap.firstId this = Some first ->
  RenamingMap.lastId this = Some last ->
  RenamingMap.newRandom this = Some nr ->
  let newLast := [IdentifierTuple.mk nr replicaNumber clock (RenamingMap.maxOffset this)] in
  Identifier.compareTo id first <> Less ->
  Identifier.compareTo newLast id = Less ->
  Identifier.compareTo id last = Less ->
  RenamingMap.reverseRenameId this id = Some (last ++ [IdFactory.MIN_TUPLE] ++ id).
Proof.
  intros Hfirst Hlast Hf Hl Hnr newLast Hfi Hnl Hil.
  set (newFirst := [IdentifierTuple.mk nr replicaNumber clock 0]).
  rewrite (reverseRenameId_unfold id first last nr Hf Hl Hnr
             (hasBeenRenamed_above id nr Hnr Hnl)).
  cbn zeta. fold newFirst newLast.
  assert (C : Identifier.compareTo id newFirst <> Less).
  { intros C. apply (newFirst_le_newLast nr). fold newFirst newLast.
    eapply id_lt_trans; eauto. }
  assert (A : Identifier.compareTo id (minFirstId first newFirst) <> Less).
  { unfold minFirstId. case_bool_decide; trivial.
    intros A. apply C. eapply id_lt_trans; [exact A|].
    unfold newFirst. rewrite closestPredecessor_single. apply new_lt_head. lia. }
  assert (G : Identifier.compareTo last newLast = Greater).
  { apply id_Greater. eapply id_lt_trans; eauto. }
  assert (B : Identifier.compareTo (maxLastId last newLast) id <> Less).
  { unfold maxLastId. rewrite (bool_decide_eq_true_2 _ G). now apply id_lt_asym. }
  rewrite (bool_decide_eq_false_2 _ A), (bool_decide_eq_false_2 _ B),
    (bool_decide_eq_false_2 _ C). simpl.
  rewrite (bool_decide_eq_false_2 (Identifier.compareTo last newLast = Less))
    by (rewrite G; discriminate).
  simpl. now rewrite (bool_decide_eq_true_2 _ Hnl), (bool_decide_eq_true_2 _ Hil).
Qed.

Section ExtendedReverse.

Variable e : ExtendedRenamingMap.t.
Hypothesis He : ExtendedRenamingMap.new replicaNumber clock ivs = Some e.

Lemma ext_hasBeenRenamed id :
  ExtendedRenamingMap.hasBeenRenamed e id = RenamingMap.hasBeenRenamed this id.
Proof.
  destruct (ext_facts e He) as (Hrep & Hclk & _ & Hmax & _).
  unfold ExtendedRenamingMap.hasBeenRenamed, RenamingMap.hasBeenRenamed,
    ExtendedRenamingMap.newFirstId, RenamingMap.newFirstId.
  rewrite (ext_newRandom e He), Hrep, Hclk, Hmax, this_replicaNumber, this_clock.
  reflexivity.
Qed.

(** Outside [[firstId, lastId]], [ExtendedRenamingMap.reverseRenameId]
    returns the identifier. *)
Lemma ext_reverseRenameId_outside id first last :
  arrayAt R 0 = Some first -> arrayAt R (arrayLength R - 1) = Some last ->
  RenamingMap.hasBeenRenamed this id = Some false ->
  Identifier.compareTo id first = Less \/ Identifier.compareTo last id = Less ->
  ExtendedRenamingMap.reverseRenameId e id = Some id.
Proof.
  intros Hfirst Hlast Hren Hout.
  destruct (ext_facts e He) as (_ & _ & HR & _).
  unfold ExtendedRenamingMap.reverseRenameId.
  rewrite ext_hasBeenRenamed, Hren. simpl.
  unfold ExtendedRenamingMap.firstId, ExtendedRenamingMap.lastId.
  rewrite HR, Hfirst, Hlast. simpl.
  destruct Hout as [H|H]; rewrite (bool_decide_eq_true_2 _ H); trivial.
  now rewrite orb_true_r.
Qed.

(** Between [newLastId] and [lastId] it prefixes the identifier with
    [lastId], without a marker. *)
Lemma ext_reverseRenameId_between_bounds id first last nr :
  arrayAt R 0 = Some first -> arrayAt R (arrayLength R - 1) = Some last ->
  RenamingMap.newRandom this = Some nr ->
  let newLast := [IdentifierTuple.mk nr replicaNumber clock (RenamingMap.maxOffset this)] in
  Identifier.compareTo id first <> Less ->
  Identifier.compareTo newLast id = Less ->
  Identifier.compareTo id last = Less ->
  ExtendedRenamingMap.reverseRenameId e id = Some (last ++ id).
Proof.
  intros Hfirst Hlast Hnr newLast Hfi Hnl Hil.
  destruct (ext_facts e He) as (Hrep & Hclk & HR & Hmax & _).
  unfold ExtendedRenamingMap.reverseRenameId.
  rewrite ext_hasBeenRenamed, (hasBeenRenamed_above id nr Hnr Hnl). simpl.
  unfold ExtendedRenamingMap.firstId, ExtendedRenamingMap.lastId,
    ExtendedRenamingMap.newLastId.
  rewrite HR, Hfirst, Hlast, (ext_newRandom e He), Hnr. simpl.
  unfold IdFactory.createAtPosition. rewrite Hrep, Hclk, Hmax. fold newLast.
  rewrite (bool_decide_eq_false_2 _ Hfi).
  rewrite (bool_decide_eq_false_2 (Identifier.compareTo last id = Less))
    by (now apply id_lt_asym).
  simpl. now rewrite (bool_decide_eq_true_2 _ Hnl), (bool_decide_eq_true_2 _ Hil).
Qed.

End ExtendedReverse.

(** [maxLastId] is not below [lastId], and [minFirstId] not above
    [firstId]. *)
Lemma maxLastId_ge last nr :
  Identifier.compareTo
    (maxLastId last [IdentifierTuple.mk nr replicaNumber clock (RenamingMap.maxOffset this)])
    last <> Less.
Proof.
  unfold maxLastId. case_bool_decide as G; [apply id_lt_irrefl|].
  rewrite closestSuccessor_single.
  intros H. apply G, id_Greater.
  eapply id_lt_trans; [|exact H]. apply new_lt_head. lia.
Qed.

Lemma minFirstId_le first nr :
  Identifier.compareTo first
    (minFirstId first [IdentifierTuple.mk nr replicaNumber clock 0]) <> Less.
Proof.
  unfold minFirstId. case_bool_decide as G; [apply id_lt_irrefl|exact G].
Qed.

(** C10.  The two implementations are built from the same valid intervals,
    which list the renamed identifiers in increasing order and file them
    under pairwise distinct keys.  [renameId]: they agree on every renamed
    identifier; on an identifier between two successive renamed
    identifiers, filed under none of their keys, they agree exactly when
    the identifier has neither of the two shapes that
    [renameIdFromPredecessorId] treats apart; on an identifier outside the
    renamed range they agree exactly when [RenamingMap] leaves it
    unchanged.  [reverseRenameId]: they agree on every identifier that has
    been renamed; on an identifier [N_k . X] that extends the renaming of
    [R[k]] and lies in [[firstId, lastId]], they agree exactly when
    [R[k] <= X <= R[k+1]], that is when [RenamingMap] inserts no marker
    ([ExtendedRenamingMap] concatenates where [RenamingMap] inserts
    [MIN_TUPLE] or [MAX_TUPLE]); on an identifier, not renamed, below
    [firstId] or above [lastId], they agree exactly when [RenamingMap]
    returns it unchanged (below [minFirstId], above [maxLastId], or kept
    above [newLastId]); between [newLastId] and [lastId] they differ by the
    marker [MIN_TUPLE]. *)
Theorem extended_agrees_with_renamingMap first last x :
  arrayAt R 0 = Some first -> arrayAt R (arrayLength R - 1) = Some last ->
  Identifier.tupleAt first 0 = Some x ->
  NoDup (keyOf <$> R) ->
  let newFirst := [IdentifierTuple.mk (IdentifierTuple.random x) replicaNumber clock 0] in
  let newLast :=
    [IdentifierTuple.mk (IdentifierTuple.random x) replicaNumber clock
       (RenamingMap.maxOffset this)] in
  exists e,
    ExtendedRenamingMap.new replicaNumber clock ivs = Some e
    /\ (forall id, id ∈ R ->
          ExtendedRenamingMap.renameId e id = RenamingMap.renameId this id)
    /\ (forall id k predecessorId successorId,
          arrayAt R k = Some predecessorId -> arrayAt R (k + 1) = Some successorId ->
          Identifier.compareTo predecessorId id = Less ->
          Identifier.compareTo id successorId = Less ->
          keyOf id ∉ (keyOf <$> R) ->
          (ExtendedRenamingMap.renameId e id = RenamingMap.renameId this id
           <-> ~ minForm predecessorId id /\ ~ maxForm successorId id))
    /\ (forall id, Identifier.compareTo id first = Less ->
          (ExtendedRenamingMap.renameId e id = RenamingMap.renameId this id
           <-> ~ marked (closestPredecessor first) IdFactory.MAX_TUPLE id
               /\ Identifier.compareTo id newFirst = Less))
    /\ (forall id, Identifier.compareTo last id = Less ->
          (ExtendedRenamingMap.renameId e id = RenamingMap.renameId this id
           <-> ~ (Identifier.compareTo newLast last = Less
                  /\ marked last IdFactory.MIN_TUPLE id)
               /\ Identifier.compareTo newLast id = Less))
    /\ (forall id, RenamingMap.hasBeenRenamed this id = Some true ->
          ExtendedRenamingMap.reverseRenameId e id
          = RenamingMap.reverseRenameId this id)
    /\ (forall k X predecessorId successorId,
          X <> [] ->
          arrayAt R k = Some predecessorId -> arrayAt R (k + 1) = Some successorId ->
          let id := IdentifierTuple.mk (IdentifierTuple.random x) replicaNumber clock k
                    :: X in
          Identifier.compareTo id first <> Less ->
          Identifier.compareTo last id <> Less ->
          (ExtendedRenamingMap.reverseRenameId e id = RenamingMap.reverseRenameId this id
           <-> Identifier.compareTo X predecessorId <> Less
               /\ Identifier.compareTo successorId X <> Less))
    /\ (forall id, RenamingMap.hasBeenRenamed this id = Some false ->
          Identifier.compareTo id first = Less ->
          (ExtendedRenamingMap.reverseRenameId e id = RenamingMap.reverseRenameId this id
           <-> Identifier.compareTo id (minFirstId first newFirst) = Less))
    /\ (forall id, RenamingMap.hasBeenRenamed this id = Some false ->
          Identifier.compareTo last id = Less ->
          (ExtendedRenamingMap.reverseRenameId e id = RenamingMap.reverseRenameId this id
           <-> Identifier.compareTo (maxLastId last newLast) id = Less
               \/ keptAboveLast last newLast id))
    /\ (forall id,
          Identifier.compareTo id first <> Less ->
          Identifier.compareTo newLast id = Less ->
          Identifier.compareTo id last = Less ->
          ExtendedRenamingMap.reverseRenameId e id = Some (last ++ id)
          /\ RenamingMap.reverseRenameId this id
             = Some (last ++ [IdFactory.MIN_TUPLE] ++ id)).
Proof.
  intros Hfirst Hlast Hx Hnd newFirst newLast. subst newFirst newLast.
  destruct extended_new as (e & He & _). exists e. split; [exact He|].
  destruct this_getters as (first' & last' & x' & Hfirst' & Hlast' & Hx' & Hf & Hl & Hnr
                            & Hnf & Hnl).
  assert (first' = first) by congruence. subst first'.
  assert (last' = last) by congruence. subst last'.
  assert (x' = x) by congruence. subst x'.
  split; [|split; [|split; [|split; [|split; [|split; [|split; [|split]]]]]]].
  - intros id Hin.
    apply list_elem_of_lookup in Hin as [k Hk]. rewrite <- arrayAt_nat in Hk.
    rewrite (renameId_renamed_eq _ id _ Hnr Hk).
    exact (ext_renameIdRec_renamed e He 1 _ id _ Hnd Hnr Hk).
  - intros id k pred succ Hpred Hsucc Hpl Hsl Hkey.
    rewrite (ext_renameId_between e He id pred succ k _ Hnd Hnr Hpred Hsucc Hpl Hsl Hkey).
    rewrite (renameId_between_eq id pred succ k Hpred Hsucc Hpl Hsl).
    rewrite (renameIdFromPredecessorId_eq id pred succ k _ Hnr Hsucc).
    pose proof (minForm_spec pred id) as Hmin. pose proof (maxForm_spec succ id) as Hmax.
    assert (Hshort : forall n, 0 <= n -> id <> [] ->
              [IdentifierTuple.mk (IdentifierTuple.random x) replicaNumber clock k] ++ id
              <> [IdentifierTuple.mk (IdentifierTuple.random x) replicaNumber clock k]
                 ++ Identifier.getTail id (n + 1)).
    { intros n Hn Hne E. apply (f_equal (@List.length _)) in E.
      rewrite !length_app in E. unfold Identifier.getTail in E.
      rewrite length_drop in E. destruct id; [congruence|]. simpl in E. lia. }
    assert (Hne : id <> []) by (intros ->; now apply not_Less_nil in Hpl).
    destruct (markedb pred IdFactory.MIN_TUPLE id && _).
    + split.
      * intros [= E]. exfalso.
        apply (Hshort (Identifier.length pred)); trivial.
        -- unfold Identifier.length, arrayLength. lia.
        -- simpl. now f_equal.
      * intros [H _]. exfalso. apply H, Hmin. reflexivity.
    + destruct (markedb (closestPredecessor succ) IdFactory.MAX_TUPLE id && _).
      * split.
        -- intros [= E]. exfalso.
           apply (Hshort (Identifier.length succ)); trivial.
           ++ unfold Identifier.length, arrayLength. lia.
           ++ simpl. now f_equal.
        -- intros [_ H]. exfalso. apply H, Hmax. reflexivity.
      * split; [|reflexivity]. intros _. split; intros H.
        -- apply Hmin in H. discriminate.
        -- apply Hmax in H. discriminate.
  - intros id Hlt.
    rewrite (ext_renameId_outside e He id first last Hfirst Hlast (or_introl Hlt)).
    destruct (renameId_below_first_fixed id first _ Hfirst Hf Hnr Hlt)
      as (renamed & -> & Hiff).
    rewrite <- Hiff. split; [intros [= ->]; trivial|intros ->; trivial].
  - intros id Hlt.
    rewrite (ext_renameId_outside e He id first last Hfirst Hlast (or_intror Hlt)).
    destruct (renameId_above_last_fixed id last _ Hlast Hl Hnr Hlt)
      as (renamed & -> & Hiff).
    rewrite <- Hiff. split; [intros [= ->]; trivial|intros ->; trivial].
  - intros id Hren.
    unfold RenamingMap.hasBeenRenamed in Hren. rewrite Hnf in Hren. simpl in Hren.
    injection Hren as Hren. rewrite !andb_true_iff, !Z.leb_le in Hren.
    destruct Hren as [[Heb H0] Hm]. apply equalsBase_single in Heb.
    unfold IdentifierTuple.fromBase in Heb. simpl in Heb.
    set (o := Identifier.lastOffset id) in *.
    destruct (arrayAt_lt R o) as [a Ha]; [rewrite R_length_max; lia|].
    rewrite Heb.
    rewrite (ext_reverseRenameId_renamed e He o a _ Hnr Ha).
    now rewrite (reverseRenameId_renamed o a _ Hnr Ha).
  - intros k X pred succ HX Hpred Hsucc id Hfi Hli. subst id.
    rewrite (ext_reverseRenameId_inside e He k X pred succ first last _
               Hnr HX Hfirst Hlast Hpred Hsucc Hfi Hli).
    rewrite (reverseRenameId_inside k X pred succ _ Hnr HX Hpred Hsucc).
    pose proof (length_pos _ (R_nonempty _ _ Hpred)) as Hpn.
    pose proof (length_pos _ (R_nonempty _ _ Hsucc)) as Hsn.
    unfold Identifier.concat.
    destruct (decide (Identifier.compareTo X pred = Less)) as [A|A].
    + rewrite !(bool_decide_eq_true_2 _ A). split; [|tauto].
      intros [= H]. by_length H.
    + rewrite !(bool_decide_eq_false_2 _ A).
      destruct (decide (Identifier.compareTo succ X = Less)) as [B|B].
      * rewrite !(bool_decide_eq_true_2 _ B). split; [|tauto].
        intros [= H]. by_length H.
      * rewrite !(bool_decide_eq_false_2 _ B). tauto.
  - intros id Hren Hlt.
    rewrite (ext_reverseRenameId_outside e He id first last Hfirst Hlast Hren
               (or_introl Hlt)).
    pose proof (reverseRenameId_fixed id first last _ Hfirst Hlast Hf Hl Hnr Hren) as Hfix.
    cbn zeta in Hfix. split.
    + intros H. symmetry in H. apply Hfix in H as [H|[H|(H1 & H2 & _)]]; trivial; exfalso.
      * apply (maxLastId_ge last (IdentifierTuple.random x)).
        eapply id_lt_trans; [exact H|].
        eapply id_lt_le_trans; [exact Hlt|]. now apply first_le_last.
      * apply (first_le_last first last Hfirst Hlast).
        eapply id_lt_trans; [exact H1|]. eapply id_lt_trans; eauto.
    + intros H. symmetry. apply Hfix. auto.
  - intros id Hren Hlt.
    rewrite (ext_reverseRenameId_outside e He id first last Hfirst Hlast Hren
               (or_intror Hlt)).
    pose proof (reverseRenameId_fixed id first last _ Hfirst Hlast Hf Hl Hnr Hren) as Hfix.
    cbn zeta in Hfix. split.
    + intros H. symmetry in H. apply Hfix in H as [H|[H|H]]; auto. exfalso.
      apply (first_le_last first last Hfirst Hlast).
      eapply id_lt_trans; [exact Hlt|].
      eapply id_lt_le_trans; [exact H|]. apply minFirstId_le.
    + intros H. symmetry. apply Hfix. tauto.
  - intros id Hfi Hni Hil. split.
    + exact (ext_reverseRenameId_between_bounds e He id first last _
               Hfirst Hlast Hnr Hfi Hni Hil).
    + exact (reverseRenameId_between_bounds id first last _
               Hfirst Hlast Hf Hl Hnr Hfi Hni Hil).
Qed.


End RenamingMapFacts.

(** C7.  In a renaming map built from a non-empty list of valid intervals,
    [maxOffset + 1] is the sum of the interval lengths, the renamed
    identifiers are numbered by exactly the offsets [0..maxOffset],
    [newRandom] is the random of the first tuple of the first renamed
    identifier, and [renameIdFromIndex] maps [k] to the one-tuple identifier
    [(newRandom, replicaNumber, clock, k)].  When the intervals list the
    renamed identifiers in increasing order, renaming the [k]-th of them
    (0-based, in interval order) returns that identifier. *)
Theorem renameId_renamed (replicaNumber clock : Z) (ivs : list Interval) :
  RenamingSpec.validIntervals ivs = true ->
  let this := RenamingMap.new replicaNumber clock ivs in
  let R := RenamingMap.renamedIds this in
  RenamingMap.maxOffset this + 1 = RenamingSpec.total ivs
  /\ (forall k, 0 <= k <= RenamingMap.maxOffset this <-> is_Some (arrayAt R k))
  /\ exists first x,
       arrayAt R 0 = Some first /\ Identifier.tupleAt first 0 = Some x
       /\ RenamingMap.newRandom this = Some (IdentifierTuple.random x)
       /\ (forall k,
             RenamingMap.renameIdFromIndex this k
             = Some [IdentifierTuple.mk (IdentifierTuple.random x) replicaNumber clock k])
       /\ (RenamingSpec.increasing R = true ->
           forall k id, arrayAt R k = Some id ->
             RenamingMap.renameId this id
             = Some [IdentifierTuple.mk (IdentifierTuple.random x) replicaNumber clock k]).
Proof.
  intros Hvalid this R.
  split; [unfold this; rewrite this_maxOffset; lia|].
  split; [intros k; now apply R_dense|].
  destruct (this_newRandom replicaNumber clock ivs Hvalid) as (a & x & Hfirst & Hx & Hnr).
  exists a, x. split; [exact Hfirst|]. split; [exact Hx|]. split; [exact Hnr|].
  split.
  - intros k. now apply renameIdFromIndex_eq.
  - intros Hinc k id Hid.
    now apply (renameId_renamed_eq replicaNumber clock ivs Hvalid Hinc).
Qed.
(** ** Instances and counterexamples on the example map *)

Lemma renameId_renamed_witness :
  let this := RenamingMap.new 1 1 RenamingSpec.exampleIntervals in
  let R := RenamingMap.renamedIds this in
  RenamingMap.maxOffset this + 1 = RenamingSpec.total RenamingSpec.exampleIntervals
  /\ (forall k, 0 <= k <= RenamingMap.maxOffset this <-> is_Some (arrayAt R k))
  /\ exists first x,
       arrayAt R 0 = Some first /\ Identifier.tupleAt first 0 = Some x
       /\ RenamingMap.newRandom this = Some (IdentifierTuple.random x)
       /\ (forall k,
             RenamingMap.renameIdFromIndex this k
             = Some [IdentifierTuple.mk (IdentifierTuple.random x) 1 1 k])
       /\ (RenamingSpec.increasing R = true ->
           forall k id, arrayAt R k = Some id ->
             RenamingMap.renameId this id
             = Some [IdentifierTuple.mk (IdentifierTuple.random x) 1 1 k]).
Proof.
  apply (renameId_renamed 1 1 RenamingSpec.exampleIntervals). reflexivity.
Defined.

Lemma renameId_concurrent_witness :
  exists k predecessorId successorId newPredecessorId,
    let this := RenamingMap.new 1 1 RenamingSpec.exampleIntervals in
    let id := [IdentifierTuple.mk 5 3 0 1; IdentifierTuple.mk 7 4 0 0] in
    arrayAt (RenamingMap.renamedIds this) k = Some predecessorId
    /\ arrayAt (RenamingMap.renamedIds this) (k + 1) = Some successorId
    /\ Identifier.compareTo predecessorId id = Less
    /\ Identifier.compareTo id successorId = Less
    /\ RenamingMap.renameId this predecessorId = Some newPredecessorId
    /\ (RenamingSpec.minForm predecessorId id ->
        RenamingMap.renameId this id
        = Some (Identifier.concat newPredecessorId
                  (Identifier.getTail id (Identifier.length predecessorId + 1))))
    /\ (~ RenamingSpec.minForm predecessorId id -> RenamingSpec.maxForm successorId id ->
        RenamingMap.renameId this id
        = Some (Identifier.concat newPredecessorId
                  (Identifier.getTail id (Identifier.length successorId + 1))))
    /\ (~ RenamingSpec.minForm predecessorId id -> ~ RenamingSpec.maxForm successorId id ->
        RenamingMap.renameId this id = Some (Identifier.concat newPredecessorId id)).
Proof.
  apply (renameId_concurrent 1 1 RenamingSpec.exampleIntervals eq_refl eq_refl
           [IdentifierTuple.mk 5 3 0 1; IdentifierTuple.mk 7 4 0 0]
           [IdentifierTuple.mk 5 3 0 0] [IdentifierTuple.mk 8 3 1 1]).
  - reflexivity.
  - reflexivity.
  - reflexivity.
  - reflexivity.
  - refine (bool_decide_unpack _ _); vm_compute; exact I.
Defined.

(** An identifier [predecessorId . MIN_TUPLE . tail] with
    [tail < predecessorId] loses its first tuples in the renaming. *)
Lemma renameId_concurrent_min_form :
  let this := RenamingMap.new 1 1 RenamingSpec.exampleIntervals in
  let predecessorId := [IdentifierTuple.mk 5 3 0 0] in
  let id := [IdentifierTuple.mk 5 3 0 0; IdFactory.MIN_TUPLE; IdentifierTuple.mk 4 9 0 0] in
  RenamingSpec.validIntervals RenamingSpec.exampleIntervals = true
  /\ RenamingSpec.increasing (RenamingMap.renamedIds this) = true
  /\ RenamingMap.firstId this = Some [IdentifierTuple.mk 5 3 0 0]
  /\ RenamingMap.lastId this = Some [IdentifierTuple.mk 8 3 1 1]
  /\ Identifier.compareTo [IdentifierTuple.mk 5 3 0 0] id = Less
  /\ Identifier.compareTo id [IdentifierTuple.mk 8 3 1 1] = Less
  /\ (id ∉ RenamingMap.renamedIds this)
  /\ arrayAt (RenamingMap.renamedIds this) 0 = Some predecessorId
  /\ arrayAt (RenamingMap.renamedIds this) 1 = Some [IdentifierTuple.mk 5 3 0 1]
  /\ Identifier.compareTo predecessorId id = Less
  /\ Identifier.compareTo id [IdentifierTuple.mk 5 3 0 1] = Less
  /\ RenamingMap.renameId this predecessorId = Some [IdentifierTuple.mk 5 1 1 0]
  /\ RenamingMap.renameId this id
     = Some [IdentifierTuple.mk 5 1 1 0; IdentifierTuple.mk 4 9 0 0]
  /\ [IdentifierTuple.mk 5 1 1 0; IdentifierTuple.mk 4 9 0 0]
     <> Identifier.concat [IdentifierTuple.mk 5 1 1 0] id.
Proof.
  cbn zeta. repeat (split; [reflexivity|]).
  split; [refine (bool_decide_unpack _ _); vm_compute; exact I|].
  repeat (split; [reflexivity|]). discriminate.
Qed.





Lemma extended_agrees_with_renamingMap_witness :
  let this := RenamingMap.new 1 1 RenamingSpec.exampleIntervals in
  let R := RenamingMap.renamedIds this in
  let first := [IdentifierTuple.mk 5 3 0 0] in
  let last := [IdentifierTuple.mk 8 3 1 1] in
  let newFirst := [IdentifierTuple.mk 5 1 1 0] in
  let newLast := [IdentifierTuple.mk 5 1 1 (RenamingMap.maxOffset this)] in
  exists e,
    ExtendedRenamingMap.new 1 1 RenamingSpec.exampleIntervals = Some e
    /\ (forall id, id ∈ R ->
          ExtendedRenamingMap.renameId e id = RenamingMap.renameId this id)
    /\ (forall id k predecessorId successorId,
          arrayAt R k = Some predecessorId -> arrayAt R (k + 1) = Some successorId ->
          Identifier.compareTo predecessorId id = Less ->
          Identifier.compareTo id successorId = Less ->
          RenamingSpec.keyOf id ∉ (RenamingSpec.keyOf <$> R) ->
          (ExtendedRenamingMap.renameId e id = RenamingMap.renameId this id
           <-> ~ RenamingSpec.minForm predecessorId id
               /\ ~ RenamingSpec.maxForm successorId id))
    /\ (forall id, Identifier.compareTo id first = Less ->
          (ExtendedRenamingMap.renameId e id = RenamingMap.renameId this id
           <-> ~ RenamingSpec.marked (RenamingSpec.closestPredecessor first)
                   IdFactory.MAX_TUPLE id
               /\ Identifier.compareTo id newFirst = Less))
    /\ (forall id, Identifier.compareTo last id = Less ->
          (ExtendedRenamingMap.renameId e id = RenamingMap.renameId this id
           <-> ~ (Identifier.compareTo newLast last = Less
                  /\ RenamingSpec.marked last IdFactory.MIN_TUPLE id)
               /\ Identifier.compareTo newLast id = Less))
    /\ (forall id, RenamingMap.hasBeenRenamed this id = Some true ->
          ExtendedRenamingMap.reverseRenameId e id
          = RenamingMap.reverseRenameId this id)
    /\ (forall k X predecessorId successorId,
          X <> [] ->
          arrayAt R k = Some predecessorId -> arrayAt R (k + 1) = Some successorId ->
          let id := IdentifierTuple.mk 5 1 1 k :: X in
          Identifier.compareTo id first <> Less ->
          Identifier.compareTo last id <> Less ->
          (ExtendedRenamingMap.reverseRenameId e id = RenamingMap.reverseRenameId this id
           <-> Identifier.compareTo X predecessorId <> Less
               /\ Identifier.compareTo successorId X <> Less))
    /\ (forall id, RenamingMap.hasBeenRenamed this id = Some false ->
          Identifier.compareTo id first = Less ->
          (ExtendedRenamingMap.reverseRenameId e id = RenamingMap.reverseRenameId this id
           <-> Identifier.compareTo id (RenamingSpec.minFirstId first newFirst) = Less))
    /\ (forall id, RenamingMap.hasBeenRenamed this id = Some false ->
          Identifier.compareTo last id = Less ->
          (ExtendedRenamingMap.reverseRenameId e id = RenamingMap.reverseRenameId this id
           <-> Identifier.compareTo (RenamingSpec.maxLastId last newLast) id = Less
               \/ RenamingSpec.keptAboveLast last newLast id))
    /\ (forall id,
          Identifier.compareTo id first <> Less ->
          Identifier.compareTo newLast id = Less ->
          Identifier.compareTo id last = Less ->
          ExtendedRenamingMap.reverseRenameId e id = Some (last ++ id)
          /\ RenamingMap.reverseRenameId this id
             = Some (last ++ [IdFactory.MIN_TUPLE] ++ id)).
Proof.
  apply (extended_agrees_with_renamingMap 1 1 RenamingSpec.exampleIntervals eq_refl eq_refl
           [IdentifierTuple.mk 5 3 0 0] [IdentifierTuple.mk 8 3 1 1]
           (IdentifierTuple.mk 5 3 0 0)).
  - reflexivity.
  - reflexivity.
  - reflexivity.
  - refine (bool_decide_unpack _ _); vm_compute; exact I.
Defined.

(** The two implementations differ, on [renameId] and on
    [reverseRenameId].  On the example map: below [firstId], [RenamingMap]
    prefixes the identifier [(5,2,0,0)], which is not below [newFirstId],
    and [ExtendedRenamingMap] returns it unchanged; the renaming
    [(5,1,1,1) . (5,3,0,1) . (7,4,0,0)], below [firstId], is reverted by
    [RenamingMap] and returned unchanged by [ExtendedRenamingMap]; between
    [newLastId] and [lastId], [(6,0,0,0)] is prefixed with
    [lastId . MIN_TUPLE] by the one and with [lastId] by the other.  On the
    map of replica 9, whose new range lies inside the old one,
    [(5,9,1,0) . (4,9,0,0)] is reverted to [(5,3,0,0) . MIN_TUPLE . (4,9,0,0)]
    by [RenamingMap] and to [(5,3,0,0) . (4,9,0,0)] by
    [ExtendedRenamingMap]. *)
Lemma extended_differs :
  let T := IdentifierTuple.mk in
  let this := RenamingMap.new 1 1 RenamingSpec.exampleIntervals in
  let that := RenamingMap.new 9 1 RenamingSpec.exampleIntervals in
  let id := [T 5 2 0 0] in
  let renamed := [T 5 1 1 1; T 5 3 0 1; T 7 4 0 0] in
  let between := [T 6 0 0 0] in
  let inside := [T 5 9 1 0; T 4 9 0 0] in
  RenamingSpec.validIntervals RenamingSpec.exampleIntervals = true
  /\ RenamingSpec.increasing (RenamingMap.renamedIds this) = true
  /\ RenamingMap.renameId this id = Some [T 5 1 1 (-1); T 5 2 0 0]
  /\ RenamingMap.reverseRenameId this renamed = Some [T 5 3 0 1; T 7 4 0 0]
  /\ RenamingMap.reverseRenameId this between
     = Some [T 8 3 1 1; IdFactory.MIN_TUPLE; T 6 0 0 0]
  /\ RenamingMap.reverseRenameId that inside
     = Some [T 5 3 0 0; IdFactory.MIN_TUPLE; T 4 9 0 0]
  /\ (exists e,
        ExtendedRenamingMap.new 1 1 RenamingSpec.exampleIntervals = Some e
        /\ ExtendedRenamingMap.renameId e id = Some id
        /\ ExtendedRenamingMap.renameId e id <> RenamingMap.renameId this id
        /\ ExtendedRenamingMap.reverseRenameId e renamed = Some renamed
        /\ ExtendedRenamingMap.reverseRenameId e renamed
           <> RenamingMap.reverseRenameId this renamed
        /\ ExtendedRenamingMap.reverseRenameId e between = Some [T 8 3 1 1; T 6 0 0 0]
        /\ ExtendedRenamingMap.reverseRenameId e between
           <> RenamingMap.reverseRenameId this between)
  /\ (exists e,
        ExtendedRenamingMap.new 9 1 RenamingSpec.exampleIntervals = Some e
        /\ ExtendedRenamingMap.reverseRenameId e inside = Some [T 5 3 0 0; T 4 9 0 0]
        /\ ExtendedRenamingMap.reverseRenameId e inside
           <> RenamingMap.reverseRenameId that inside).
Proof.
  cbn zeta. do 6 (split; [vm_compute; reflexivity|]).
  split; eexists; (split; [reflexivity|]).
  - split; [vm_compute; reflexivity|]. split; [vm_compute; discriminate|].
    split; [vm_compute; reflexivity|]. split; [vm_compute; discriminate|].
    split; [vm_compute; reflexivity|]. vm_compute; discriminate.
  - split; [vm_compute; reflexivity|]. vm_compute; discriminate.
Qed.


(** C3.  The renaming does not preserve the order above [lastId].  On the
    example map ([lastId = [(8,3,1,1)]], [newLastId = [(5,1,1,4)]]) the
    identifier [x = lastId . MIN_TUPLE . (100,7,0,0)], which
    [createBetweenPosition] builds between [lastId] and
    [z = lastId . (INT32_BOTTOM + 1,3,2,0)] ([z] built between [lastId] and
    [(8,3,1,2)]), lies below [y = [(9,0,0,0)]].  [renameIdGreaterThanLastId]
    strips [lastId . MIN_TUPLE] from [x] without the test [tail < lastId]
    that case 1 of [renameIdFromPredecessorId] makes (after the renamed
    [(5,3,0,1)] the same shape is kept whole): [rename(x) = [(100,7,0,0)]]
    is above [rename(y) = y], and [reverseRenameId] returns [(100,7,0,0)]
    itself, not [x].  [reverseRenameId] does not preserve the order of the
    identifiers of the new space either: on the map that renames
    [a = [(5,3,0,0)]], [q = a . MIN_TUPLE . (2,6,0,0)] and
    [p = a . (INT32_BOTTOM + 1,4,0,0)], each built by the factory, the
    identifier [w = (5,1,1,0) . (3,7,0,0)], built between the renamings
    [(5,1,1,0)] and [(5,1,1,1)] of [a] and [q], is returned as
    [a . MIN_TUPLE . (3,7,0,0)], which is above [q], the identifier
    returned for [(5,1,1,1)]. *)
Theorem renameId_breaks_order :
  let T := IdentifierTuple.mk in
  let MIN := IdFactory.MIN_TUPLE in
  let this := RenamingMap.new 1 1 RenamingSpec.exampleIntervals in
  let lastId := [T 8 3 1 1] in
  let z := [T 8 3 1 1; T (Int32.INT32_BOTTOM + 1) 3 2 0] in
  let x := [T 8 3 1 1; MIN; T 100 7 0 0] in
  let y := [T 9 0 0 0] in
  let a := [T 5 3 0 0] in
  let q := [T 5 3 0 0; MIN; T 2 6 0 0] in
  let p := [T 5 3 0 0; T (Int32.INT32_BOTTOM + 1) 4 0 0] in
  let intervals :=
    [IdentifierInterval.mk a 0 0; IdentifierInterval.mk q 0 0;
     IdentifierInterval.mk p 0 0] in
  let that := RenamingMap.new 1 1 intervals in
  let w := [T 5 1 1 0; T 3 7 0 0] in
  (* the renaming, above [lastId] *)
  (RenamingSpec.validIntervals RenamingSpec.exampleIntervals = true
   /\ RenamingSpec.increasing (RenamingMap.renamedIds this) = true
   /\ RenamingMap.lastId this = Some lastId
   /\ IdFactory.createBetweenPosition (FactorySpec.draw (Int32.INT32_BOTTOM + 1))
        (Some lastId) (Some [T 8 3 1 2]) 3 2 = Some z
   /\ IdFactory.createBetweenPosition (FactorySpec.draw 100) (Some lastId) (Some z) 7 0
      = Some x
   /\ FactorySpec.wellFormed x = true
   /\ Identifier.compareTo x y = Less
   /\ RenamingMap.renameId this x = Some [T 100 7 0 0]
   /\ RenamingMap.renameId this y = Some y
   /\ Identifier.compareTo [T 100 7 0 0] y = Greater
   /\ RenamingMap.reverseRenameId this [T 100 7 0 0] = Some [T 100 7 0 0]
   /\ RenamingMap.renameId this [T 5 3 0 1; MIN; T 100 7 0 0]
      = Some [T 5 1 1 1; T 5 3 0 1; MIN; T 100 7 0 0])
  (* [reverseRenameId], between two renamed identifiers *)
  /\ (RenamingSpec.validIntervals intervals = true
      /\ RenamingSpec.increasing (RenamingMap.renamedIds that) = true
      /\ RenamingMap.renamedIds that = [a; q; p]
      /\ IdFactory.createBetweenPosition (FactorySpec.draw (Int32.INT32_BOTTOM + 1))
           (Some a) (Some [T 5 3 0 1]) 4 0 = Some p
      /\ IdFactory.createBetweenPosition (FactorySpec.draw 2) (Some a) (Some p) 6 0 = Some q
      /\ RenamingMap.renameId that a = Some [T 5 1 1 0]
      /\ RenamingMap.renameId that q = Some [T 5 1 1 1]
      /\ IdFactory.createBetweenPosition (FactorySpec.draw 3)
           (Some [T 5 1 1 0]) (Some [T 5 1 1 1]) 7 0 = Some w
      /\ Identifier.compareTo w [T 5 1 1 1] = Less
      /\ RenamingMap.reverseRenameId that w = Some [T 5 3 0 0; MIN; T 3 7 0 0]
      /\ RenamingMap.reverseRenameId that [T 5 1 1 1] = Some q
      /\ Identifier.compareTo [T 5 3 0 0; MIN; T 3 7 0 0] q = Greater).
Proof. cbn zeta. vm_compute. repeat split. Qed.

(** ** Instances of the searches on the example map *)

Lemma findPositionFromIndex_domain_witness :
  let this := RenamingMap.new 1 1 RenamingSpec.exampleIntervals in
  exists m offset idInterval otherIndex,
    RenamingMap.findPositionFromIndex this 4 = Some (m, offset)
    /\ arrayAt (RenamingMap.renamedIdIntervals this) m = Some idInterval
    /\ arrayAt (RenamingMap.indexes this) m = Some otherIndex
    /\ IdentifierInterval.begin idInterval <= offset <= IdentifierInterval.end_ idInterval
    /\ 4 = otherIndex + (offset - IdentifierInterval.begin idInterval)
    /\ arrayAt (RenamingMap.renamedIds this) 4
       = Some (Identifier.fromBase (IdentifierInterval.base idInterval) offset).
Proof.
  apply (findPositionFromIndex_domain 1 1 RenamingSpec.exampleIntervals eq_refl 4).
  vm_compute. split; discriminate.
Defined.

Lemma findIdFromIndex_renamedIds_witness :
  let this := RenamingMap.new 1 1 RenamingSpec.exampleIntervals in
  let R := RenamingMap.renamedIds this in
  (forall index, 0 <= index <= RenamingMap.maxOffset this ->
     exists id,
       RenamingMap.findIdFromIndex this index = Some id
       /\ arrayAt R index = Some id)
  /\ (forall index, 0 <= index < RenamingMap.maxOffset this ->
        exists predecessorId successorId,
          RenamingMap.findPredecessorAndSuccessorFromIndex this index
          = Some (predecessorId, successorId)
          /\ arrayAt R index = Some predecessorId
          /\ arrayAt R (index + 1) = Some successorId)
  /\ RenamingMap.findPredecessorAndSuccessorFromIndex this (RenamingMap.maxOffset this)
     = None.
Proof.
  exact (findIdFromIndex_renamedIds 1 1 RenamingSpec.exampleIntervals eq_refl).
Defined.

Lemma constructor_indexes_witness :
  let this := RenamingMap.new 1 1 RenamingSpec.exampleIntervals in
  let R := RenamingMap.renamedIds this in
  arrayLength (RenamingMap.indexes this)
  = arrayLength (RenamingMap.renamedIdIntervals this)
  /\ arrayAt (RenamingMap.indexes this) 0 = Some 0
  /\ forall m idInterval,
       arrayAt (RenamingMap.renamedIdIntervals this) m = Some idInterval ->
       exists otherIndex,
         arrayAt (RenamingMap.indexes this) m = Some otherIndex
         /\ (forall o,
               IdentifierInterval.begin idInterval <= o
               <= IdentifierInterval.end_ idInterval ->
               arrayAt R (otherIndex + (o - IdentifierInterval.begin idInterval))
               = Some (Identifier.fromBase (IdentifierInterval.base idInterval) o))
         /\ (m + 1 < arrayLength (RenamingMap.renamedIdIntervals this) ->
             arrayAt (RenamingMap.indexes this) (m + 1)
             = Some (otherIndex + IdentifierInterval.length idInterval))
         /\ (m + 1 = arrayLength (RenamingMap.renamedIdIntervals this) ->
             otherIndex + IdentifierInterval.length idInterval
             = RenamingMap.maxOffset this + 1).
Proof.
  exact (constructor_indexes 1 1 RenamingSpec.exampleIntervals eq_refl).
Defined.

Lemma findIndexOfIdOrPredecessor_spec_witness :
  let this := RenamingMap.new 1 1 RenamingSpec.exampleIntervals in
  let R := RenamingMap.renamedIds this in
  let id := [IdentifierTuple.mk 5 3 0 1; IdentifierTuple.mk 7 4 0 0] in
  exists k,
    RenamingMap.findIndexOfIdOrPredecessor this id = Some k
    /\ -1 <= k <= RenamingMap.maxOffset this
    /\ (forall i a, 0 <= i <= k -> arrayAt R i = Some a ->
          Identifier.compareTo id a <> Less)
    /\ (forall i b, k < i -> arrayAt R i = Some b ->
          Identifier.compareTo id b = Less)
    /\ (forall i, arrayAt R i = Some id -> k = i)
    /\ RenamingMap.advance this (S (List.length R)) id (-1) = Some k.
Proof.
  exact (findIndexOfIdOrPredecessor_spec 1 1 RenamingSpec.exampleIntervals eq_refl eq_refl
           [IdentifierTuple.mk 5 3 0 1; IdentifierTuple.mk 7 4 0 0]).
Defined.

Lemma initRenameIds_initRenameSeq_witness :
  let this := RenamingMap.new 1 1 RenamingSpec.exampleIntervals in
  let idsToRename :=
    [[IdentifierTuple.mk 5 3 0 1; IdentifierTuple.mk 7 4 0 0];
     [IdentifierTuple.mk 8 3 1 1]] in
  RenamingMap.initRenameIds this idsToRename = RenamingMap.initRenameSeq this idsToRename.
Proof.
  apply (initRenameIds_initRenameSeq 1 1 RenamingSpec.exampleIntervals eq_refl eq_refl
           [[IdentifierTuple.mk 5 3 0 1; IdentifierTuple.mk 7 4 0 0];
            [IdentifierTuple.mk 8 3 1 1]]).
  discriminate.
Defined.

Lemma renameIds_sorted_batch_witness :
  let this := RenamingMap.new 1 1 RenamingSpec.exampleIntervals in
  let idsToRename :=
    [[IdentifierTuple.mk 4 2 0 0];
     [IdentifierTuple.mk 5 3 0 1; IdentifierTuple.mk 7 4 0 0];
     [IdentifierTuple.mk 8 3 1 1]] in
  exists renamed,
    RenamingMap.initRenameSeq this idsToRename = Some renamed
    /\ (idsToRename <> [] -> RenamingMap.initRenameIds this idsToRename = Some renamed)
    /\ Forall2 (fun id r => RenamingMap.renameId this id = Some r) idsToRename renamed.
Proof.
  apply (renameIds_sorted_batch 1 1 RenamingSpec.exampleIntervals eq_refl eq_refl
           [[IdentifierTuple.mk 4 2 0 0];
            [IdentifierTuple.mk 5 3 0 1; IdentifierTuple.mk 7 4 0 0];
            [IdentifierTuple.mk 8 3 1 1]]).
  reflexivity.
Defined.

Lemma hasBeenRenamed_spec_witness :
  let this := RenamingMap.new 1 1 RenamingSpec.exampleIntervals in
  let R := RenamingMap.renamedIds this in
  let id := [IdentifierTuple.mk 5 1 1 2] in
  exists b nr,
    RenamingMap.hasBeenRenamed this id = Some b
    /\ RenamingMap.newRandom this = Some nr
    /\ (b = true <->
        exists k, 0 <= k <= RenamingMap.maxOffset this
                  /\ id = [IdentifierTuple.mk nr 1 1 k])
    /\ (b = true <->
        exists k old, arrayAt R k = Some old /\ RenamingMap.renameId this old = Some id).
Proof.
  exact (hasBeenRenamed_spec 1 1 RenamingSpec.exampleIntervals eq_refl eq_refl
           [IdentifierTuple.mk 5 1 1 2]).
Defined.

Lemma renameId_reverseRenameId_renamed_witness :
  let this := RenamingMap.new 1 1 RenamingSpec.exampleIntervals in
  let id := [IdentifierTuple.mk 5 1 1 2] in
  exists old,
    RenamingMap.reverseRenameId this id = Some old
    /\ arrayAt (RenamingMap.renamedIds this) (Identifier.lastOffset id) = Some old
    /\ RenamingMap.renameId this old = Some id.
Proof.
  apply (renameId_reverseRenameId_renamed 1 1 RenamingSpec.exampleIntervals eq_refl eq_refl
           [IdentifierTuple.mk 5 1 1 2]).
  reflexivity.
Defined.

Lemma renameId_length_witness :
  let this := RenamingMap.new 1 1 RenamingSpec.exampleIntervals in
  let id := [IdentifierTuple.mk 5 3 0 1; IdentifierTuple.mk 7 4 0 0] in
  exists renamed,
    RenamingMap.renameId this id = Some renamed
    /\ Identifier.length renamed <= Identifier.length id + 1
    /\ (id <> [] -> renamed <> []).
Proof.
  exact (renameId_length 1 1 RenamingSpec.exampleIntervals eq_refl eq_refl
           [IdentifierTuple.mk 5 3 0 1; IdentifierTuple.mk 7 4 0 0]).
Defined.

Lemma extended_renameId_total_witness :
  exists e,
    ExtendedRenamingMap.new 1 1 RenamingSpec.exampleIntervals = Some e
    /\ forall id,
         exists renamed,
           ExtendedRenamingMap.renameId e id = Some renamed
           /\ forall fuel, (2 <= fuel)%nat ->
                ExtendedRenamingMap.renameIdRec e fuel id = Some renamed.
Proof.
  exact (extended_renameId_total 1 1 RenamingSpec.exampleIntervals eq_refl).
Defined.

Lemma fromRenamingMap_getters_witness :
  let this := RenamingMap.new 1 1 RenamingSpec.exampleIntervals in
  exists e,
    ExtendedRenamingMap.fromRenamingMap this = Some e
    /\ ExtendedRenamingMap.new 1 1 RenamingSpec.exampleIntervals = Some e
    /\ ExtendedRenamingMap.firstId e = RenamingMap.firstId this
    /\ ExtendedRenamingMap.lastId e = RenamingMap.lastId this
    /\ ExtendedRenamingMap.newRandom e = RenamingMap.newRandom this
    /\ ExtendedRenamingMap.newFirstId e = RenamingMap.newFirstId this
    /\ ExtendedRenamingMap.newLastId e = RenamingMap.newLastId this
    /\ ExtendedRenamingMap.maxOffset e = RenamingMap.maxOffset this
    /\ (forall id,
          ExtendedRenamingMap.hasBeenRenamed e id = RenamingMap.hasBeenRenamed this id).
Proof.
  exact (fromRenamingMap_getters 1 1 RenamingSpec.exampleIntervals eq_refl).
Defined.

Lemma extended_constructor_maps_witness :
  let R := RenamingMap.renamedIds (RenamingMap.new 1 1 RenamingSpec.exampleIntervals) in
  exists e,
    ExtendedRenamingMap.new 1 1 RenamingSpec.exampleIntervals = Some e
    /\ ExtendedRenamingMap.renamedIds e = R
    /\ (forall k, ExtendedRenamingMap.newOffsetToOldIdMap e !! k = arrayAt R k)
    /\ (forall k id, arrayAt R k = Some id ->
          exists j old,
            ExtendedRenamingMap.lookupOffset e (Identifier.replicaNumber id)
              (Identifier.clock id) (Identifier.lastOffset id) = Some j
            /\ k <= j
            /\ ExtendedRenamingMap.newOffsetToOldIdMap e !! j = Some old
            /\ RenamingSpec.keyOf old = RenamingSpec.keyOf id
            /\ (NoDup (RenamingSpec.keyOf <$> R) -> j = k))
    /\ (forall r c o, (r, c, o) ∉ (RenamingSpec.keyOf <$> R) ->
          ExtendedRenamingMap.lookupOffset e r c o = None).
Proof.
  exact (extended_constructor_maps 1 1 RenamingSpec.exampleIntervals eq_refl).
Defined.

Lemma renameId_renamed_order_witness :
  let this := RenamingMap.new 1 1 RenamingSpec.exampleIntervals in
  let R := RenamingMap.renamedIds this in
  exists first last newFirst newLast,
    RenamingMap.firstId this = Some first
    /\ RenamingMap.lastId this = Some last
    /\ RenamingMap.newFirstId this = Some newFirst
    /\ RenamingMap.newLastId this = Some newLast
    /\ RenamingMap.renameId this first = Some newFirst
    /\ RenamingMap.renameId this last = Some newLast
    /\ Identifier.compareTo newLast newFirst <> Less
    /\ forall i j a b,
         i < j -> arrayAt R i = Some a -> arrayAt R j = Some b ->
         exists ra rb,
           RenamingMap.renameId this a = Some ra
           /\ RenamingMap.renameId this b = Some rb
           /\ Identifier.compareTo a b = Less
           /\ Identifier.compareTo ra rb = Less
           /\ Identifier.compareTo ra newFirst <> Less
           /\ Identifier.compareTo newLast rb <> Less.
Proof.
  exact (renameId_renamed_order 1 1 RenamingSpec.exampleIntervals eq_refl eq_refl).
Defined.

Lemma reverseRenameId_throws_witness :
  let this := RenamingMap.new 1 1 RenamingSpec.exampleIntervals in
  exists first last newFirst newLast,
    RenamingMap.firstId this = Some first
    /\ RenamingMap.lastId this = Some last
    /\ RenamingMap.newFirstId this = Some newFirst
    /\ RenamingMap.newLastId this = Some newLast
    /\ (Identifier.compareTo first (RenamingSpec.closestPredecessor newFirst) <> Less ->
        RenamingMap.reverseRenameId this (RenamingSpec.closestPredecessor newFirst) = None)
    /\ (Identifier.compareTo last newLast <> Greater ->
        RenamingMap.reverseRenameId this (RenamingSpec.closestSuccessor newLast) = None).
Proof.
  exact (reverseRenameId_throws 1 1 RenamingSpec.exampleIntervals eq_refl eq_refl).
Defined.

Lemma findIndex_findId_inverse_witness :
  let this := RenamingMap.new 1 1 RenamingSpec.exampleIntervals in
  let R := RenamingMap.renamedIds this in
  (forall k, 0 <= k <= RenamingMap.maxOffset this ->
     exists id,
       RenamingMap.findIdFromIndex this k = Some id
       /\ RenamingMap.findIndexOfIdOrPredecessor this id = Some k)
  /\ (forall id, id ∈ R ->
        exists k,
          RenamingMap.findIndexOfIdOrPredecessor this id = Some k
          /\ RenamingMap.findIdFromIndex this k = Some id).
Proof.
  exact (findIndex_findId_inverse 1 1 RenamingSpec.exampleIntervals eq_refl eq_refl).
Defined.

Lemma findIndexOfIdOrPredecessor_monotone_witness :
  let this := RenamingMap.new 1 1 RenamingSpec.exampleIntervals in
  exists ka kb,
    RenamingMap.findIndexOfIdOrPredecessor this [IdentifierTuple.mk 5 3 0 1] = Some ka
    /\ RenamingMap.findIndexOfIdOrPredecessor this
         [IdentifierTuple.mk 5 3 0 1; IdentifierTuple.mk 7 4 0 0] = Some kb
    /\ ka <= kb.
Proof.
  apply (findIndexOfIdOrPredecessor_monotone 1 1 RenamingSpec.exampleIntervals
           eq_refl eq_refl
           [IdentifierTuple.mk 5 3 0 1]
           [IdentifierTuple.mk 5 3 0 1; IdentifierTuple.mk 7 4 0 0]).
  vm_compute. discriminate.
Defined.

(** ** Maps without intervals *)

(** X13.  On an empty list of intervals the constructor of
    [ExtendedRenamingMap] throws ([reduce] of an empty array); the
    constructor of [RenamingMap] returns a map with [maxOffset = -1] whose
    getters [firstId] and [lastId] throw, and so do [renameIds],
    [reverseRenameId] and [hasBeenRenamed] on every identifier; only the
    renaming of an empty batch returns, with an empty batch. *)
Theorem empty_intervals (replicaNumber clock : Z) :
  let this := RenamingMap.new replicaNumber clock [] in
  ExtendedRenamingMap.new replicaNumber clock [] = None
  /\ ExtendedRenamingMap.fromRenamingMap this = None
  /\ RenamingMap.maxOffset this = -1
  /\ RenamingMap.firstId this = None
  /\ RenamingMap.lastId this = None
  /\ RenamingMap.initRenameSeq this [] = Some []
  /\ forall id rest,
       RenamingMap.initRenameSeq this (id :: rest) = None
       /\ RenamingMap.renameId this id = None
       /\ RenamingMap.reverseRenameId this id = None
       /\ RenamingMap.hasBeenRenamed this id = None.
Proof.
  cbn zeta. do 6 (split; [reflexivity|]).
  intros id rest. repeat split; reflexivity.
Qed.

(** The empty batch.  [initRenameIds([])] hands [undefined] to the binary
    search: without intervals the search returns [maxOffset] without
    reading it, and the result is the empty array; with an interval the
    search reads it and throws. *)
Lemma initRenameIds_empty_batch (replicaNumber clock : Z) (ivs : list Interval) :
  RenamingMap.initRenameIds (RenamingMap.new replicaNumber clock ivs) []
  = if bool_decide (ivs = []) then Some [] else None.
Proof.
  unfold RenamingMap.initRenameIds, RenamingMap.findIndexOfUndefined.
  rewrite new_eq. destruct ivs as [|i ivs]; reflexivity.
Qed.

(** ** The size and the fields of a created identifier *)

Section FactoryBounds.

Import IdFactory FactorySpec TupleSpec.

Variable randomInt32 : Z -> Z -> Z.
Hypothesis randomInt32_range : forall l u, l < u -> l <= randomInt32 l u < u.

Variables replicaNumber clock : Z.

Lemma padded_beyond l d i : (List.length l <= i)%nat -> padded l d i = d.
Proof. intros H. unfold padded. now apply nth_overflow. Qed.

Lemma padded_int32 l d i :
  forallb int32Tuple l = true -> int32Tuple d = true -> int32Tuple (padded l d i) = true.
Proof.
  intros Hl Hd. unfold padded.
  destruct (nth_in_or_default i l d) as [Hin| ->]; trivial.
  rewrite forallb_forall in Hl. now apply Hl.
Qed.

(** X14.  [createBetweenPosition] returns for every pair of bounds, also
    when they are not in order: the identifier it returns is above [id1],
    and it has at most one tuple more than the longer of [id1] and [id2]. *)
Theorem createBetweenPosition_length (id1 id2 : option Identifier) :
  exists id,
    createBetweenPosition randomInt32 id1 id2 replicaNumber clock = Some id
    /\ below id1 id
    /\ 1 <= Identifier.length id
       <= Z.max (arrayLength (tuplesOf id1)) (arrayLength (tuplesOf id2)) + 1.
Proof.
  destruct (loop_spec randomInt32 randomInt32_range replicaNumber clock
              (S (Nat.max (List.length (tuplesOf id1)) (List.length (tuplesOf id2))))
              (tuplesOf id1) (tuplesOf id2) [] ltac:(lia))
    as (k & random & Hrun & Hgaps & _ & Hlow & _).
  cbn zeta in *. rewrite createBetweenPosition_loop, Hrun. simpl app.
  eexists. split; [reflexivity|]. split.
  - destruct id1 as [a|]; simpl; trivial.
  - unfold Identifier.length, arrayLength. rewrite length_app, length_map, length_seq.
    simpl.
    assert (Hk : (k <= Nat.max (List.length (tuplesOf id1))
                               (List.length (tuplesOf id2)))%nat).
    { destruct (Nat.le_gt_cases k (Nat.max (List.length (tuplesOf id1))
                                           (List.length (tuplesOf id2)))) as [|Hgt];
        trivial. exfalso.
      specialize (Hgaps _ Hgt). rewrite !padded_beyond in Hgaps by lia.
      revert Hgaps. unfold MIN_TUPLE, MAX_TUPLE, Int32.INT32_TOP, Int32.INT32_BOTTOM.
      simpl. lia. }
    lia.
Qed.

(** X15.  [createBetweenPosition] keeps the fields of the tuples within
    int32: when the tuples of [id1] and [id2] have int32 fields and
    [replicaNumber] and [clock] are int32, so have the tuples of the
    identifier it returns. *)
Theorem createBetweenPosition_int32 (id1 id2 : option Identifier) :
  forallb int32Tuple (tuplesOf id1) = true ->
  forallb int32Tuple (tuplesOf id2) = true ->
  Int32.isInt32 replicaNumber = true -> Int32.isInt32 clock = true ->
  exists id,
    createBetweenPosition randomInt32 id1 id2 replicaNumber clock = Some id
    /\ forallb int32Tuple id = true.
Proof.
  intros H1 H2 Hrep Hclk.
  destruct (loop_spec randomInt32 randomInt32_range replicaNumber clock
              (S (Nat.max (List.length (tuplesOf id1)) (List.length (tuplesOf id2))))
              (tuplesOf id1) (tuplesOf id2) [] ltac:(lia))
    as (k & random & Hrun & _ & Hrnd & _ & _).
  cbn zeta in *. rewrite createBetweenPosition_loop, Hrun. simpl app.
  eexists. split; [reflexivity|].
  rewrite forallb_app. apply andb_true_iff. split.
  - apply forallb_forall. intros x Hx. apply in_map_iff in Hx as (i & <- & _).
    now apply padded_int32.
  - simpl. rewrite andb_true_r.
    pose proof (padded_int32 (tuplesOf id1) MIN_TUPLE k H1 eq_refl) as Hp1.
    pose proof (padded_int32 (tuplesOf id2) MAX_TUPLE k H2 eq_refl) as Hp2.
    unfold int32Tuple in *. simpl.
    rewrite Hrep, Hclk.
    apply andb_true_iff in Hp1 as [Hp1 _]. apply andb_true_iff in Hp1 as [Hp1 _].
    apply andb_true_iff in Hp1 as [Hp1 _].
    apply andb_true_iff in Hp2 as [Hp2 _]. apply andb_true_iff in Hp2 as [Hp2 _].
    apply andb_true_iff in Hp2 as [Hp2 _].
    unfold Int32.isInt32 in *.
    apply andb_true_iff in Hp1 as [Hp1 _]. apply andb_true_iff in Hp2 as [_ Hp2].
    apply Z.leb_le in Hp1, Hp2.
    rewrite !andb_true_r. apply andb_true_iff. split; apply Z.leb_le; lia.
Qed.

End FactoryBounds.

Lemma createBetweenPosition_length_witness :
  exists id,
    IdFactory.createBetweenPosition (fun l _ => l)
      (Some [IdentifierTuple.mk 5 1 0 0]) (Some [IdentifierTuple.mk 6 2 0 0]) 7 3 = Some id
    /\ FactorySpec.below (Some [IdentifierTuple.mk 5 1 0 0]) id
    /\ 1 <= Identifier.length id
       <= Z.max (arrayLength (IdFactory.tuplesOf (Some [IdentifierTuple.mk 5 1 0 0])))
                (arrayLength (IdFactory.tuplesOf (Some [IdentifierTuple.mk 6 2 0 0]))) + 1.
Proof.
  exact (createBetweenPosition_length (fun l _ => l)
           (fun (l u : Z) (H : l < u) => conj (Z.le_refl l) H) 7 3
           (Some [IdentifierTuple.mk 5 1 0 0]) (Some [IdentifierTuple.mk 6 2 0 0])).
Defined.

Lemma createBetweenPosition_int32_witness :
  exists id,
    IdFactory.createBetweenPosition (fun l _ => l)
      (Some [IdentifierTuple.mk 5 1 0 0]) (Some [IdentifierTuple.mk 6 2 0 0]) 7 3 = Some id
    /\ forallb TupleSpec.int32Tuple id = true.
Proof.
  apply (createBetweenPosition_int32 (fun l _ => l)
           (fun (l u : Z) (H : l < u) => conj (Z.le_refl l) H) 7 3
           (Some [IdentifierTuple.mk 5 1 0 0]) (Some [IdentifierTuple.mk 6 2 0 0]));
    reflexivity.
Defined.

(** ** The interval and the count of a block along a run *)

Section BlockRuns.

Import LogootSBlock BlockSpec.

(** X16.  Along any run of [addBlock] and [delBlock] calls the interval of
    a block only grows: its base is kept, [begin] never increases and [end]
    never decreases, so that a block emptied by [delBlock] keeps its whole
    interval; the interval covers the offsets [pos..pos + length - 1] of
    every [addBlock] of the run; and the count changes by the sum of the
    added lengths minus the sum of the removed counts. *)
Theorem run_interval_grows (b : t) (cs : list call) :
  IdentifierInterval.base (idInterval (run b cs)) = IdentifierInterval.base (idInterval b)
  /\ IdentifierInterval.begin (idInterval (run b cs))
     <= IdentifierInterval.begin (idInterval b)
  /\ IdentifierInterval.end_ (idInterval b)
     <= IdentifierInterval.end_ (idInterval (run b cs))
  /\ (forall pos length, In (AddBlock pos length) cs ->
        IdentifierInterval.begin (idInterval (run b cs)) <= pos
        /\ pos + length - 1 <= IdentifierInterval.end_ (idInterval (run b cs)))
  /\ nbElement (run b cs) = nbElement b + net cs.
Proof.
  revert b. induction cs as [|c cs IH]; intros b; simpl.
  - split; [reflexivity|]. split; [lia|]. split; [lia|].
    split; [intros pos length []|lia].
  - destruct (IH (exec b c)) as (Hbase & Hbeg & Hend & Hadd & Hnb).
    destruct c as [pos length|nbElt]; simpl in *.
    + rewrite Hbase, Hnb. split; [reflexivity|]. split; [lia|]. split; [lia|].
      split; [|lia].
      intros pos' length' [[= <- <-]|Hin]; [lia|]. now apply Hadd.
    + rewrite Hbase, Hnb. split; [reflexivity|]. split; [lia|]. split; [lia|].
      split; [|lia].
      intros pos' length' [Hd|Hin]; [discriminate|]. now apply Hadd.
Qed.

(** X21.  A block returned by [LogootSBlock.fromPlain] satisfies the
    assertion of the constructor ([nbElement] is a non-negative int32), so
    that its count stays non-negative along every run of [addBlock] and
    [delBlock] calls that respect their preconditions. *)
Theorem fromPlain_block_runs (o : JsValue) (b : t) (cs : list call) :
  fromPlain o = Some b ->
  respects b cs ->
  pre_new (nbElement b) /\ 0 <= nbElement (run b cs).
Proof.
  intros Hplain Hcs.
  assert (Hpre : pre_new (nbElement b)).
  { unfold fromPlain in Hplain.
    destruct (Js.isObject o); [|discriminate].
    destruct (Js.isObject (Js.get o "idInterval")); [|discriminate].
    destruct (Js.asInt32 (Js.get o "nbElement")) as [n|] eqn:Hn; [|discriminate].
    destruct (Z.leb_spec 0 n) as [Hpos|]; [|discriminate].
    destruct (IdentifierIntervalPlain.fromPlain (Js.get o "idInterval"));
      [|discriminate].
    injection Hplain as <-. simpl. split; [|exact Hpos].
    unfold Js.asInt32 in Hn.
    destruct (Js.get o "nbElement") as [| | |[z|]| | |]; try discriminate.
    destruct (Int32.isInt32 z) eqn:Hz; [|discriminate]. now injection Hn as <-. }
  split; [exact Hpre|]. apply run_nonneg; [apply Hpre|exact Hcs].
Qed.

End BlockRuns.

Lemma fromPlain_block_runs_witness :
  let o :=
    JsObject
      [("idInterval"%string,
        JsObject
          [("base"%string,
            JsArray
              [JsObject [("random"%string, JsNum (JsInt 5));
                         ("replicaNumber"%string, JsNum (JsInt 1));
                         ("clock"%string, JsNum (JsInt 0));
                         ("offset"%string, JsNum (JsInt 0))]]);
           ("begin"%string, JsNum (JsInt 0));
           ("end"%string, JsNum (JsInt 1))]);
       ("nbElement"%string, JsNum (JsInt 2))] in
  let b := LogootSBlock.new (IdentifierInterval.mk [IdentifierTuple.mk 5 1 0 0] 0 1) 2 in
  let cs := [LogootSBlock.AddBlock 2 3; LogootSBlock.DelBlock 5] in
  LogootSBlock.fromPlain o = Some b
  /\ LogootSBlock.pre_new (LogootSBlock.nbElement b)
  /\ 0 <= LogootSBlock.nbElement (LogootSBlock.run b cs).
Proof.
  intros o b cs. split; [reflexivity|].
  apply (fromPlain_block_runs o b cs).
  - reflexivity.
  - simpl. repeat split; lia.
Defined.
